(** * ncjoin: joining NetCDF trajectory segments

    A shallow embedding of [src/ncjoin.py] and the properties its
    specification states about it.

    Numbers.  Time stamps, test quantities and tolerances are rationals ([Q])
    with exact arithmetic; [==] is equality of rationals.  Rounding of IEEE
    doubles is outside the model, and so are infinities and values that are
    not numbers: a property stated here about sums, quotients or comparisons
    of them holds of the script where these are exact, which the statement
    of the property says.

    Arrays.  A numpy array of rank 1 is a [list Q]; the arrays of rank 0 or 1
    that the overlap search handles (frames of the test variable, tolerance,
    residuals) are values of [nd].  A frame of a variable of higher rank is
    seen by the search flattened: this is what numpy computes for frames of
    one shape and a tolerance that is one number, and for a test variable of
    rank at most 2 with any tolerance; a tolerance per component against
    frames of rank 2 or more, which numpy lines up along the last axis, is
    not covered.

    Exceptions.  Python exceptions are values of [exn]; code that may raise
    returns [res].  The copy loop, which writes to the output dataset as it
    goes, lives in a state-and-exception monad [M]: what was written before
    an exception stays written. *)

From Stdlib Require Import QArith Qabs Qminmax Qround Lqa Lia ZArith List String Ascii.
From stdpp Require Import gmap strings list sorting.

Open Scope Q_scope.

(** ** Arrays of rank 0 or 1 *)

Inductive nd : Type :=
| Sc (x : Q)
| Vec (v : list Q).

(** ** Exceptions *)

(** The [RuntimeError]s of the script; the fields are the values
    interpolated into the message, in order. *)
Inductive runtime_error : Type :=
| NotConsecutive (fn1 fn2 : string) (min_maxdiff max_maxdiff : nd)
| NoFramesLeft
| IndexVariableDims
| PerFileDiffers (var_str fn1 fn2 : string).

Inductive exn : Type :=
| RuntimeError (e : runtime_error)
| IndexError
| KeyError (key : string)
| ValueError
| TypeError
| OverflowError
| NameError (name : string)
| UnboundLocalError (name : string)
| IOError (path : string).

Inductive res (A : Type) : Type :=
| Ok (a : A)
| Err (e : exn).
Arguments Ok {A} a.
Arguments Err {A} e.

#[global] Instance res_ret : MRet res := fun A a => Ok a.
#[global] Instance res_bind : MBind res := fun A B f c =>
  match c with
  | Ok a => f a
  | Err e => Err e
  end.

#[global] Instance res_fmap : FMap res := fun A B f c =>
  match c with
  | Ok a => Ok (f a)
  | Err e => Err e
  end.

Definition of_option {A} (e : exn) (o : option A) : res A :=
  match o with
  | Some a => Ok a
  | None => Err e
  end.

(** [for x in l: f x] in [res], stopping at the first exception. *)
Fixpoint res_mapM {A B} (f : A -> res B) (l : list A) : res (list B) :=
  match l with
  | [] => Ok []
  | x :: l' => y ← f x; ys ← res_mapM f l'; Ok (y :: ys)
  end.

(** ** Rational helpers *)

Definition Qltb (x y : Q) : bool := negb (Qle_bool y x).

(** Python's [int()] on a float: truncation toward zero. *)
Definition Qtrunc (q : Q) : Z := Z.quot (Qnum q) (Zpos (Qden q)).

(** [range(n, m)] *)
Definition zrange (n m : Z) : list Z :=
  map (fun k => (n + Z.of_nat k)%Z) (seq 0 (Z.to_nat (m - n))).

(** [np.arange(n)] *)
Definition arange (n : nat) : list Q := map (fun k => inject_Z (Z.of_nat k)) (seq 0 n).

(** [np.min], [np.max] of a rank-1 array; [None] stands for the [ValueError]
    numpy raises on a zero-size array. *)
Definition amin (l : list Q) : option Q :=
  match l with
  | [] => None
  | x :: l' => Some (fold_left Qmin l' x)
  end.

Definition amax (l : list Q) : option Q :=
  match l with
  | [] => None
  | x :: l' => Some (fold_left Qmax l' x)
  end.

(** [np.argmin]: the index of the first occurrence of the minimum. *)
Fixpoint argmin_from (best_i : nat) (best : Q) (i : nat) (l : list Q) : nat :=
  match l with
  | [] => best_i
  | x :: l' =>
      if Qltb x best then argmin_from i x (S i) l'
      else argmin_from best_i best (S i) l'
  end.

Definition argmin (l : list Q) : nat :=
  match l with
  | [] => 0%nat
  | x :: l' => argmin_from 0 x 1 l'
  end.

(** ** Python indexing *)

(** [l[i]] for an integer [i]: negative indices count from the end. *)
Definition py_index (n : nat) (i : Z) : option nat :=
  let i' := if (i <? 0)%Z then (i + Z.of_nat n)%Z else i in
  if ((0 <=? i') && (i' <? Z.of_nat n))%Z then Some (Z.to_nat i') else None.

Definition getitem {A} (l : list A) (i : Z) : res A :=
  match py_index (length l) i with
  | Some k => of_option IndexError (l !! k)
  | None => Err IndexError
  end.

(** The bounds [slice(start, stop).indices(n)] computes, step 1. *)
Definition slice_bound (n : Z) (i : Z) : Z :=
  if (i <? 0)%Z then Z.max (i + n) 0 else Z.min i n.

Definition slice_list {A} (start stop : Z) (l : list A) : list A :=
  let n := Z.of_nat (length l) in
  let a := slice_bound n start in
  let b := slice_bound n stop in
  take (Z.to_nat (b - a)) (drop (Z.to_nat a) l).

(** The third component of the tuples the script passes around: a [slice]
    object after [open_trajs], an index array after [filter_trajs]. *)
Inductive data_slice : Type :=
| Slice (start stop : Z)
| Indices (idx : list Z).

(** [np.arange(n)[data_slice]] *)
Definition arange_select (n : nat) (s : data_slice) : res (list nat) :=
  match s with
  | Slice start stop => Ok (slice_list start stop (seq 0 n))
  | Indices idx => res_mapM (fun i => of_option IndexError (py_index n i)) idx
  end.

(** [range(len(time))[data_slice]]: a Python list accepts a slice only. *)
Definition range_select (n : nat) (s : data_slice) : res (list nat) :=
  match s with
  | Slice start stop => Ok (slice_list start stop (seq 0 n))
  | Indices _ => Err TypeError
  end.

(** ** [get_nearest_indices] (lines 44-61) *)

Definition slot (every : Q) (i : Z) : Q := inject_Z i * every.

Definition difftime (time : list Q) (every : Q) (i : Z) : list Q :=
  map (fun t => Qabs (t - slot every i)) time.

Definition same_index (last_j : option nat) (j : nat) : bool :=
  match last_j with
  | None => false
  | Some j' => Nat.eqb j j'
  end.

(** The [for] loop; [last_j = None] is the initial [-1], which no index
    returned by [np.argmin] equals. *)
Fixpoint nearest_loop (time : list Q) (every : Q) (slots : list Z)
    (last_j : option nat) : list nat :=
  match slots with
  | [] => []
  | i :: rest =>
      let d := difftime time every i in
      let j := argmin d in
      if Qltb (nth j d 0) 1 && negb (same_index last_j j)
      then j :: nearest_loop time every rest (Some j)
      else nearest_loop time every rest last_j
  end.

(** Lines 52-53: [int(np.min(time)/every)] and [int(np.max(time)/every)+1],
    with the quotient exact; a quotient rounded down across a whole number
    in floating point gives a slot less. *)
Definition first_slot (lo every : Q) : Z := Qtrunc (lo / every).
Definition stop_slot (hi every : Q) : Z := (Qtrunc (hi / every) + 1)%Z.

(** [np.min] of an empty list raises [ValueError].  With [every = 0] the
    quotient is an infinity or a NaN, and [int()] raises [OverflowError] or
    [ValueError] respectively. *)
Definition get_nearest_indices (time : list Q) (every : Q) : res (list nat) :=
  match amin time, amax time with
  | Some lo, Some hi =>
      if Qeq_bool every 0 then
        Err (if Qeq_bool lo 0 then ValueError else OverflowError)
      else
        Ok (nearest_loop time every
              (zrange (first_slot lo every) (stop_slot hi every)) None)
  | _, _ => Err ValueError
  end.

(** ** [strip_fn] (lines 65-68) *)

Definition plus_sign : ascii := "+"%char.

Definition strip_fn (fn : string) : string :=
  match fn with
  | String c rest => if Ascii.eqb c plus_sign then rest else fn
  | EmptyString => fn
  end.

(** [fn[0] == '+'] (line 110); indexing the empty string raises. *)
Definition starts_with_plus (fn : string) : res bool :=
  match fn with
  | String c _ => Ok (Ascii.eqb c plus_sign)
  | EmptyString => Err IndexError
  end.

(** ** [fix_time] (lines 72-76) *)

(** The condition of line 73; when it holds [np.array(time)] makes a copy. *)
Definition fix_time_copies (time : list Q) : bool :=
  match time with
  | t0 :: t1 :: t2 :: _ => Qltb (1 # 1000) (Qabs (t2 - t1 - (t1 - t0)))
  | _ => false
  end.

Definition fix_time (time : list Q) : list Q :=
  match time with
  | t0 :: t1 :: t2 :: rest =>
      if fix_time_copies time then (t1 - (t2 - t1)) :: t1 :: t2 :: rest
      else time
  | _ => time
  end.

(** ** Datasets *)

Definition FRAME_DIM : string := "frame".
Definition ATOM_DIM : string := "atom".

(** A row is what lies behind one index of a frame's first axis, flattened;
    a frame is what lies behind one index of a variable's first axis.  A
    variable of rank 1 has frames of one row holding one number. *)
Definition row : Type := list Q.
Definition frame : Type := list row.

Inductive dtype : Type := DInt | DFloat | DChar.

Module Var.
Record t : Type := mk {
    dimensions : list string;
    dtype : dtype;
    ncattrs : list (string * string);
    data : list frame
  }.
End Var.

Module Dim.
Record t : Type := mk {
    isunlimited : bool;
    len : nat
  }.
End Dim.

(** [variables] and [dimensions] are ordered dictionaries. *)
Module Dataset.
Record t : Type := mk {
    variables : list (string * Var.t);
    dimensions : list (string * Dim.t);
    ncattrs : list (string * string)
  }.
End Dataset.

(** [d[key]] and [key in d] on an ordered dictionary. *)
Fixpoint dict_get {V} (d : list (string * V)) (key : string) : option V :=
  match d with
  | [] => None
  | (k, v) :: d' => if String.eqb k key then Some v else dict_get d' key
  end.

Definition dict_has {V} (d : list (string * V)) (key : string) : bool :=
  match dict_get d key with
  | Some _ => true
  | None => false
  end.

Definition dict_item {V} (d : list (string * V)) (key : string) : res V :=
  of_option (KeyError key) (dict_get d key).

(** [var.shape[0]]; a scalar variable has an empty shape. *)
Definition shape0 (v : Var.t) : res nat :=
  match Var.dimensions v with
  | [] => Err IndexError
  | _ :: _ => Ok (length (Var.data v))
  end.

Definition frame_scalar (f : frame) : Q := hd 0 (concat f).

(** The values of a variable used as the time axis.  The script indexes it
    with one integer and compares the result with a number, which asks for a
    variable of rank 1. *)
Definition time_values (v : Var.t) : res (list Q) :=
  match Var.dimensions v with
  | [_] => Ok (map frame_scalar (Var.data v))
  | _ => Err ValueError
  end.

(** A frame of the test variable as the search sees it: a number for a
    variable of rank 1, the flattened frame otherwise. *)
Definition frame_nd (v : Var.t) (f : frame) : nd :=
  match Var.dimensions v with
  | [] | [_] => Sc (frame_scalar f)
  | _ => Vec (concat f)
  end.

(** [test[:, test_index]] restricted to one frame (lines 120-122). *)
Definition frame_select (v : Var.t) (test_index : Z) (f : frame) : res nd :=
  match Var.dimensions v with
  | [] | [_] => Err IndexError
  | [_; _] => r ← getitem f test_index; Ok (Sc (hd 0 r))
  | _ => r ← getitem f test_index; Ok (Vec r)
  end.

(** ** numpy on arrays of rank 0 or 1 *)

(** Broadcasting of a binary operation. *)
Definition nd_map2 {A} (f : Q -> Q -> A) (a b : nd) : res (A + list A) :=
  match a, b with
  | Sc x, Sc y => Ok (inl (f x y))
  | Sc x, Vec v => Ok (inr (map (f x) v))
  | Vec u, Sc y => Ok (inr (map (fun x => f x y) u))
  | Vec u, Vec v =>
      if Nat.eqb (length u) (length v) then Ok (inr (zip_with f u v))
      else if Nat.eqb (length u) 1 then Ok (inr (map (f (hd 0 u)) v))
      else if Nat.eqb (length v) 1 then Ok (inr (map (fun x => f x (hd 0 v)) u))
      else Err ValueError
  end.

Definition to_nd (r : Q + list Q) : nd :=
  match r with
  | inl x => Sc x
  | inr v => Vec v
  end.

(** [np.abs(a - b)] *)
Definition nd_absdiff (a b : nd) : res nd :=
  to_nd <$> nd_map2 (fun x y => Qabs (x - y)) a b.

Definition nd_maximum (a b : nd) : res nd := to_nd <$> nd_map2 Qmax a b.
Definition nd_minimum (a b : nd) : res nd := to_nd <$> nd_map2 Qmin a b.

(** [np.any(a > b)], on numbers: the comparison with a value that is not
    a number, which numpy makes false, does not occur. *)
Definition nd_any_gt (a b : nd) : res bool :=
  r ← nd_map2 (fun x y => Qltb y x) a b;
  match r with
  | inl c => Ok c
  | inr cs => Ok (existsb id cs)
  end.

(** [np.max(a)] *)
Definition nd_max (a : nd) : res Q :=
  match a with
  | Sc x => Ok x
  | Vec v => of_option ValueError (amax v)
  end.

Definition nd_add (a : nd) (c : Q) : nd :=
  match a with
  | Sc x => Sc (x + c)
  | Vec v => Vec (map (fun x => x + c) v)
  end.

Definition nd_zeros_like (a : nd) : nd :=
  match a with
  | Sc _ => Sc 0
  | Vec v => Vec (map (fun _ => 0) v)
  end.

(** [test_tol.shape == ()] *)
Definition is_scalar (a : nd) : bool :=
  match a with
  | Sc _ => true
  | Vec _ => false
  end.

(** ** [open_trajs] (lines 79-198) *)

(** One output tuple: [(fn, data, data_slice, time)]. *)
Definition traj : Type := string * Dataset.t * data_slice * list Q.

Definition traj_fn (r : traj) : string := r.1.1.1.
Definition traj_data (r : traj) : Dataset.t := r.1.1.2.
Definition traj_slice (r : traj) : data_slice := r.1.2.
Definition traj_time (r : traj) : list Q := r.2.

(** The local variables of the overlap search. *)
Record search_state : Type := mk_search {
  st_first2 : Z;
  st_last1 : option Z;   (* [None]: not assigned yet *)
  st_maxdiff : nd;
  st_max_maxdiff : nd;
  st_min_maxdiff : nd
}.

Section overlap_search.
Context (test_tol : nd) (test1 test2 : list nd).

  (** Lines 130-134: the residual against the last frame of the previous
      file; kept per element unless the tolerance is a scalar. *)
Definition residual_last (first2 : Z) : res nd :=
    f1 ← getitem test1 (Z.of_nat (length test1) - 1);
    f2 ← getitem test2 first2;
    d ← nd_absdiff f1 f2;
    if is_scalar test_tol then Sc <$> nd_max d else Ok d.

  (** Lines 142-144: the residual inside the backward scan; [np.max] is
      taken whatever the tolerance is, which leaves line 144 nothing to do. *)
Definition residual_scan (last1 first2 : Z) : res nd :=
    f1 ← getitem test1 last1;
    f2 ← getitem test2 first2;
    d ← nd_absdiff f1 f2;
    Sc <$> nd_max d.

  (** Lines 135-144, entered with [last1 = k - 1]. *)
Fixpoint backward_scan (k : nat) (first2 : Z) (maxdiff mx mn : nd)
      : res (Z * nd * nd * nd) :=
    match k with
    | O => Ok ((-1)%Z, maxdiff, mx, mn)
    | S k' =>
        above ← nd_any_gt maxdiff test_tol;
        if above : bool then
          mx' ← nd_maximum maxdiff mx;
          mn' ← nd_minimum maxdiff mn;
          maxdiff' ← residual_scan (Z.of_nat k' - 1) first2;
          backward_scan k' first2 maxdiff' mx' mn'
        else Ok (Z.of_nat k', maxdiff, mx, mn)
    end.

  (** Lines 126-146.  [first2] starts at [-1] and the guard asks for
      [first2 < min(n2 - 1, 5)], so six rounds exhaust the loop. *)
Fixpoint search (fuel : nat) (s : search_state) : res search_state :=
    match fuel with
    | O => Ok s
    | S fuel' =>
        if (st_first2 s <? Z.min (Z.of_nat (length test2) - 1) 5)%Z then
          above ← nd_any_gt (st_maxdiff s) test_tol;
          if above : bool then
            let first2 := (st_first2 s + 1)%Z in
            maxdiff ← residual_last first2;
            '(last1, maxdiff, mx, mn) ←
              backward_scan (length test1) first2 maxdiff
                (st_max_maxdiff s) (st_min_maxdiff s);
            mx ← nd_maximum maxdiff mx;
            mn ← nd_minimum maxdiff mn;
            search fuel' (mk_search first2 (Some last1) maxdiff mx mn)
          else Ok s
        else Ok s
    end.
End overlap_search.

Section open_trajs.
Context (time_var test_var : string) (test_index : option Z) (test_tol : nd).

  (** Lines 117-122, for a test variable already looked up: the array the
      overlap search reads.  The pair [(test_var, test_index)] is what lines
      86-91 parse out of the command-line value [VAR] or [VAR[k]]. *)
Definition test_array (v : Var.t) : res (list nd) :=
    if String.eqb test_var time_var then
      ts ← time_values v;
      match test_index with
      | None => Ok (map Sc (fix_time ts))
      | Some _ => Err IndexError
      end
    else
      match test_index with
      | None => Ok (map (frame_nd v) (Var.data v))
      | Some k => res_mapM (frame_select v k) (Var.data v)
      end.

  (** Lines 107-154: [(first2, last1)] for the pair [(fn1, data1)],
      [(fn2, data2)].  [last1_before] is what the previous round of the loop
      left in [last1]. *)
Definition find_overlap (fn1 fn2 : string) (data1 data2 : Dataset.t)
      (last1_before : option Z) : res (Z * Z) :=
    let max_maxdiff := nd_zeros_like test_tol in
    let min_maxdiff := nd_add test_tol (1000000000000 # 1) in
    trusted ← starts_with_plus fn2;
    s ← (if trusted : bool then
           v ← dict_item (Dataset.variables data1) test_var;
           n ← shape0 v;
           Ok (mk_search 0 (Some (Z.of_nat n)) (Sc 0) max_maxdiff min_maxdiff)
         else
           v1 ← dict_item (Dataset.variables data1) test_var;
           v2 ← dict_item (Dataset.variables data2) test_var;
           test1 ← test_array v1;
           test2 ← test_array v2;
           search test_tol test1 test2 6
             (mk_search (-1) last1_before (nd_add test_tol 1)
                max_maxdiff min_maxdiff));
    match st_last1 s with
    | None => Err (UnboundLocalError "last1")
    | Some last1 =>
        if (last1 <? 0)%Z then
          Err (RuntimeError (NotConsecutive fn1 fn2 (st_min_maxdiff s)
                               (st_max_maxdiff s)))
        else Ok (st_first2 s, last1)
    end.

  (** Lines 158-161 and 183-186: the time axis of a dataset, whether its
      numbers are integers, and whether it was made by [np.arange] (then a
      slice of it is a view, not a copy). *)
Definition time_axis (data : Dataset.t) : res (list Q * bool * bool) :=
    match dict_get (Dataset.variables data) time_var with
    | Some v =>
        ts ← time_values v;
        Ok (ts, match Var.dtype v with DInt => true | _ => false end, false)
    | None =>
        v ← dict_item (Dataset.variables data) test_var;
        n ← shape0 v;
        Ok (arange n, true, true)
    end.

  (** Lines 168-171 and 192-195.  [last_time] carries with the number
      whether it is an integer: adding a float in place to an integer array
      is refused by numpy's casting rule.  The shift is exact here; in
      floating point [time[0] + (last_time - time[0])] can miss [last_time]
      by a rounding. *)
Definition add_offset (is_int : bool) (last_time : option (Q * bool))
      (time : list Q) : res (list Q) :=
    match last_time with
    | None => Ok time
    | Some (lt, lt_int) =>
        t0 ← getitem time 0;
        if is_int && negb lt_int then Err TypeError
        else Ok (map (fun t => t + (lt - t0)) time)
    end.

  (** [time1] after [time], a view of [time1[first1:last1]], was updated in
      place. *)
Definition write_back (first1 last1 : Z) (time1 time : list Q) : list Q :=
    let n := Z.of_nat (length time1) in
    let a := Z.to_nat (slice_bound n first1) in
    let b := Z.to_nat (slice_bound n last1) in
    take a time1 ++ time ++ drop (a `max` b) time1.

  (** Lines 175-178. *)
Definition next_last_time (first1 last1 : Z) (time1 time : list Q)
      (is_view : bool) : res Q :=
    if (Z.of_nat (length time1) <=? last1)%Z then
      tl ← getitem time (-1);
      tl2 ← getitem time (-2);
      t1l ← getitem (if is_view then write_back first1 last1 time1 time
                     else time1) (-1);
      Ok (tl + (tl2 - t1l) * inject_Z (Z.of_nat (length time1) - last1 + 1))
    else getitem time (-1).

  (** One round of the loop, lines 102-181: the tuple appended to
      [filtered_data_f] and the new [first1], [last1], [last_time]. *)
Definition open_step (fn1 fn2 : string) (data1 data2 : Dataset.t)
      (first1 : Z) (last1_before : option Z) (last_time : option (Q * bool))
      : res (traj * Z * Z * (Q * bool)) :=
    '(first2, last1) ← find_overlap fn1 fn2 data1 data2 last1_before;
    '(time1, is_int, from_arange) ← time_axis data1;
    let sliced := slice_list first1 last1 time1 in
    let time := fix_time sliced in
    let is_view := from_arange && negb (fix_time_copies sliced) in
    time ← add_offset is_int last_time time;
    lt ← next_last_time first1 last1 time1 time is_view;
    Ok ((fn1, data1, Slice first1 last1, time), first2, last1, (lt, is_int)).

  (** Lines 183-196: the tuple of the last file. *)
Definition open_last (fn2 : string) (data2 : Dataset.t) (first1 : Z)
      (last_time : option (Q * bool)) : res traj :=
    '(time, is_int, _) ← time_axis data2;
    time ← add_offset is_int last_time (fix_time time);
    Ok (fn2, data2, Slice first1 (Z.of_nat (length time)), time).

Fixpoint open_loop (first1 : Z) (last1 : option Z)
      (last_time : option (Q * bool)) (cur : string * Dataset.t)
      (rest : list (string * Dataset.t)) : res (list traj) :=
    match rest with
    | [] => r ← open_last cur.1 cur.2 first1 last_time; Ok [r]
    | next :: rest' =>
        '(r, first2, last1', lt) ←
          open_step cur.1 next.1 cur.2 next.2 first1 last1 last_time;
        rs ← open_loop first2 (Some last1') (Some lt) next rest';
        Ok (r :: rs)
    end.

  (** [data_f] is the list of file names zipped with the datasets they
      open; [data_f[0]] raises on an empty list. *)
Definition open_trajs (data_f : list (string * Dataset.t)) : res (list traj) :=
    match data_f with
    | [] => Err IndexError
    | first :: rest => open_loop 0 None None first rest
    end.
End open_trajs.

(** ** [filter_trajs] (lines 202-234) *)

(** An entry of [idata_oframe]: [(fn, data, i, time[i])], preceded by the
    position of its tuple in [idata_f].  Each tuple holds a [Dataset] object
    of its own, so [data is not cur_data] compares these positions. *)
Definition oframe : Type := nat * string * Dataset.t * nat * Q.

Definition oframe_time (f : oframe) : Q := f.2.

(** Lines 205-206, for the tuple at position [k]. *)
Definition frames_of (k : nat) (r : traj) : res (list oframe) :=
  let '(fn, data, data_slice, time) := r in
  idx ← range_select (length time) data_slice;
  res_mapM (fun i => t ← of_option IndexError (time !! i);
                     Ok (k, fn, data, i, t)) idx.

Fixpoint all_frames (k : nat) (idata_f : list traj) : res (list oframe) :=
  match idata_f with
  | [] => Ok []
  | r :: rest =>
      fs ← frames_of k r;
      fs' ← all_frames (S k) rest;
      Ok (fs ++ fs')
  end.

(** Lines 222-233. *)
Fixpoint consolidate (cur_k : nat) (cur_fn : string) (cur_data : Dataset.t)
    (cur_slice : list Z) (cur_time : list Q) (frames : list oframe)
    : list traj :=
  match frames with
  | [] => [(cur_fn, cur_data, Indices cur_slice, cur_time)]
  | (k, fn, data, i, t) :: rest =>
      if Nat.eqb k cur_k then
        consolidate cur_k cur_fn cur_data
          (cur_slice ++ [Z.of_nat i]) (cur_time ++ [t]) rest
      else
        (cur_fn, cur_data, Indices cur_slice, cur_time)
          :: consolidate k fn data [Z.of_nat i] [t] rest
  end.

Definition filter_trajs (idata_f : list traj) (every : Q) : res (list traj) :=
  idata_oframe ← all_frames 0 idata_f;
  i ← get_nearest_indices (map oframe_time idata_oframe) every;
  match i with
  | [] => Err (RuntimeError NoFramesLeft)
  | _ =>
      idata_oframe ← res_mapM (fun _i => of_option IndexError
                                           (idata_oframe !! _i)) i;
      match idata_oframe with
      | [] => Err IndexError
      | (k, fn, data, _, _) :: _ =>
          Ok (consolidate k fn data [] [] idata_oframe)
      end
  end.

(** ** The output dataset *)

Record ovar : Type := mk_ovar {
  ovar_dtype : dtype;
  ovar_dimensions : list string;
  ovar_attrs : list (string * string)
}.

(** The assignments to the variables of the output dataset, in the order
    the script makes them. *)
Inductive write : Type :=
| WriteFrame (var_str : string) (pos : Z) (var_data : frame)
    (* [odata.variables[var_str][pos] = var_data] *)
| WriteFrom (var_str : string) (start : Z) (time : list Q)
    (* [odata.variables[var_str][start:] = time] *)
| WriteAll (var_str : string) (contents : list frame).
    (* [odata.variables[var_str][:] = contents] *)

Definition write_var (w : write) : string :=
  match w with
  | WriteFrame v _ _ | WriteFrom v _ _ | WriteAll v _ => v
  end.

Record output : Type := mk_output {
  out_attrs : list (string * string);
  out_dimensions : gmap string (option nat);   (* [None]: unlimited *)
  out_variables : gmap string ovar;
  out_written : list write
}.

Definition empty_output : output := mk_output [] ∅ ∅ [].

(** ** State and exceptions *)

Definition M (A : Type) : Type := output -> output * res A.

#[global] Instance M_ret : MRet M := fun A a o => (o, Ok a).
#[global] Instance M_bind : MBind M := fun A B f c o =>
  match c o with
  | (o', Ok a) => f a o'
  | (o', Err e) => (o', Err e)
  end.

Definition lift {A} (r : res A) : M A := fun o => (o, r).
Definition get_output : M output := fun o => (o, Ok o).
Definition put_output (o : output) : M unit := fun _ => (o, Ok ()).

Fixpoint for_each {A} (l : list A) (body : A -> M unit) : M unit :=
  match l with
  | [] => mret ()
  | x :: l' => _ ← body x; for_each l' body
  end.

(** [odata.setncattr] *)
Definition setncattr (attr_str value : string) : M unit :=
  o ← get_output;
  put_output (mk_output (out_attrs o ++ [(attr_str, value)])
                (out_dimensions o) (out_variables o) (out_written o)).

(** [odata.createDimension] *)
Definition createDimension (dim_str : string) (size : option nat) : M unit :=
  o ← get_output;
  put_output (mk_output (out_attrs o) (<[dim_str := size]> (out_dimensions o))
                (out_variables o) (out_written o)).

(** [odata.createVariable] *)
Definition createVariable (var_str : string) (ty : dtype)
    (dims : list string) : M unit :=
  o ← get_output;
  put_output (mk_output (out_attrs o) (out_dimensions o)
                (<[var_str := mk_ovar ty dims []]> (out_variables o))
                (out_written o)).

(** [odata.variables[var_str].setncattr] *)
Definition var_setncattr (var_str attr_str value : string) : M unit :=
  o ← get_output;
  match out_variables o !! var_str with
  | None => lift (Err (KeyError var_str))
  | Some v =>
      put_output (mk_output (out_attrs o) (out_dimensions o)
        (<[var_str := mk_ovar (ovar_dtype v) (ovar_dimensions v)
                        (ovar_attrs v ++ [(attr_str, value)])]>
           (out_variables o))
        (out_written o))
  end.

Definition add_write (o : output) (w : write) : output :=
  mk_output (out_attrs o) (out_dimensions o) (out_variables o)
    (out_written o ++ [w]).

(** An assignment into [odata.variables[var_str]]. *)
Definition assign (w : write) : M unit :=
  o ← get_output;
  match out_variables o !! write_var w with
  | None => lift (Err (KeyError (write_var w)))
  | Some _ => put_output (add_write o w)
  end.

(** ** The command line *)

(** The parsed command line.  [test_var] and [test_index] are the two parts
    of the value of [--test_var]; [test_tol] is the value of [--test_tol]
    after lines 278-281. *)
Module Args.
Record t : Type := mk {
    filenames : list string;
    every : option Q;
    test_var : string;
    test_index : option Z;
    test_tol : nd;
    netcdf_format : string;
    exclude : option string;
    index : string;
    index_offset : Z
  }.
End Args.

(** [s.split(',')] *)
Fixpoint split_commas_aux (cur : string) (s : string) : list string :=
  match s with
  | EmptyString => [cur]
  | String c rest =>
      if Ascii.eqb c ","%char then cur :: split_commas_aux EmptyString rest
      else split_commas_aux (cur +:+ String c EmptyString) rest
  end.

Definition split_commas (s : string) : list string :=
  split_commas_aux EmptyString s.

(** Lines 315-317. *)
Definition exclude_list (arguments : Args.t) : gset string :=
  let exclude_list : gset string := {[ Args.index arguments ]} in
  match Args.exclude arguments with
  | Some x => exclude_list ∪ list_to_set (split_commas x)
  | None => exclude_list
  end.

(** ** Reordering by particle identifier (lines 382-387) *)

(** The identifiers in one frame of the index variable, a variable of
    integers with dimensions (frame, atom). *)
Definition ids_of_frame (f : frame) : list Z := map (fun r => Qfloor (hd 0 r)) f.

(** [sorted_var_data[ids + index_offset] = var_data], row by row. *)
Fixpoint scatter (index_offset : Z) (ids : list Z) (var_data : list row)
    (sorted_var_data : list row) : res (list row) :=
  match ids, var_data with
  | id :: ids', r :: var_data' =>
      k ← of_option IndexError
            (py_index (length sorted_var_data) (id + index_offset));
      scatter index_offset ids' var_data' (<[k := r]> sorted_var_data)
  | _, _ => Ok sorted_var_data
  end.

(** [np.zeros_like] *)
Definition zeros_like (var_data : list row) : list row :=
  map (map (fun _ => 0)) var_data.

Definition reorder (index_offset : Z) (ids : list Z) (var_data : list row)
    : res (list row) :=
  if Nat.eqb (length ids) (length var_data)
  then scatter index_offset ids var_data (zeros_like var_data)
  else Err ValueError.

(** ** The copy loop (lines 322-408) *)

(** The full contents [var[:]] of a variable as an array of rank 3: the
    shape of a variable of lower rank is filled up on the left with axes of
    length 1, which is how numpy lines up two shapes before it broadcasts.
    (A variable of rank above 3 keeps its trailing axes flattened in its
    rows.) *)
Definition array3 : Type := list (list (list Q)).

Definition contents (v : Var.t) : array3 :=
  match Var.dimensions v with
  | [] | [_] => [[map frame_scalar (Var.data v)]]
  | [_; _] => [map (map (hd 0)) (Var.data v)]
  | _ => Var.data v
  end.

Definition shape3 (a : array3) : nat * nat * nat :=
  (length a, length (hd [] a), length (hd [] (hd [] a))).

(** Two lengths go together along an axis when they are equal or one of
    them is 1. *)
Definition goes_with (m n : nat) : bool :=
  Nat.eqb m n || Nat.eqb m 1 || Nat.eqb n 1.

(** Along an axis of length 1 the one element is repeated. *)
Definition stretch {A} (n : nat) (l : list A) : list A :=
  match l with
  | [x] => repeat x n
  | _ => l
  end.

(** [np.any] of a comparison [ne] broadcast along one axis. *)
Definition broadcast_exists {A} (ne : A -> A -> bool) (a b : list A) : bool :=
  existsb id (zip_with ne (stretch (length b) a) (stretch (length a) b)).

Definition values_differ (x y : Q) : bool := negb (Qeq_bool x y).

(** [np.any(last_var[:] != var[:])] (line 396).  Shapes that do not go
    together make the comparison as a whole come out true. *)
Definition contents_differ (last_var var : Var.t) : bool :=
  let a := contents last_var in
  let b := contents var in
  let '(a0, a1, a2) := shape3 a in
  let '(b0, b1, b2) := shape3 b in
  if goes_with a0 b0 && goes_with a1 b1 && goes_with a2 b2 then
    broadcast_exists (broadcast_exists (broadcast_exists values_differ)) a b
  else true.

(** Lines 397-399 build the message from [var_str], [trajfns[i-1]] and
    [trajfns[i]].  At module level neither [trajfns] (a parameter of
    [open_trajs]) nor [i] is bound; evaluating the arguments of [%] stops at
    [trajfns], before any [RuntimeError] is made. *)
Definition raise_per_file_differs (var_str : string) : exn :=
  NameError "trajfns".

Section copy.
Context (arguments : Args.t).

  (** Lines 329-334. *)
Definition find_index (idata : Dataset.t) : res (option Var.t) :=
    match dict_get (Dataset.variables idata) (Args.index arguments) with
    | None => Ok None
    | Some index =>
        match Var.dimensions index with
        | [d0; d1] =>
            if String.eqb d0 FRAME_DIM && String.eqb d1 ATOM_DIM
            then Ok (Some index)
            else Err (RuntimeError IndexVariableDims)
        | _ => Err (RuntimeError IndexVariableDims)
        end
    end.

  (** Lines 348-355, for one dimension of the variable being created. *)
Definition ensure_dimension (idata : Dataset.t) (dim_str : string) : M unit :=
    o ← get_output;
    match out_dimensions o !! dim_str with
    | Some _ => mret ()
    | None =>
        dim ← lift (dict_item (Dataset.dimensions idata) dim_str);
        if Dim.isunlimited dim then createDimension dim_str None
        else createDimension dim_str (Some (Dim.len dim))
    end.

  (** Lines 337-361, the body of the first loop over the variables. *)
Definition create_variable (idata : Dataset.t) (item : string * Var.t)
      : M unit :=
    let '(var_str, var) := item in
    if decide (var_str ∈ exclude_list arguments) then mret ()
    else
      o ← get_output;
      match out_variables o !! var_str with
      | Some _ => mret ()
      | None =>
          if String.eqb (Args.netcdf_format arguments) "NETCDF4"
             && dict_has (Dataset.dimensions idata) var_str
          then mret ()
          else
            _ ← for_each (Var.dimensions var) (ensure_dimension idata);
            _ ← createVariable var_str (Var.dtype var) (Var.dimensions var);
            for_each (Var.ncattrs var)
              (fun a => var_setncattr var_str a.1 a.2)
      end.

  (** Lines 377-388, for the pair [(oframe, iframe)] of the enumeration. *)
Definition copy_frame (cursor : Z) (index : option Var.t) (var_str : string)
      (var : Var.t) (item : nat * nat) : M unit :=
    let '(oframe, iframe) := item in
    var_data ← lift (getitem (Var.data var) (Z.of_nat iframe));
    var_data ←
      match index, Var.dimensions var with
      | Some index, _ :: d1 :: _ =>
          if String.eqb d1 ATOM_DIM then
            ids ← lift (getitem (Var.data index) (Z.of_nat iframe));
            match Var.dtype index with
            | DInt => lift (reorder (Args.index_offset arguments)
                              (ids_of_frame ids) var_data)
            | _ => lift (Err IndexError)
            end
          else mret var_data
      | _, _ => mret var_data
      end;
    assign (WriteFrame var_str (cursor + Z.of_nat oframe) var_data).

  (** [enumerate] *)
Definition enumerate {A} (l : list A) : list (nat * A) :=
    zip (seq 0 (length l)) l.

  (** Lines 364-399, the body of the second loop over the variables. *)
Definition copy_variable (cursor : Z) (last_data : option Dataset.t)
      (idata : Dataset.t) (data_slice : data_slice) (time : list Q)
      (index : option Var.t) (item : string * Var.t) : M unit :=
    let '(var_str, var) := item in
    if decide (var_str ∈ exclude_list arguments) then mret ()
    else if dict_has (Dataset.dimensions idata) var_str then mret ()
    else
      d0 ← lift (getitem (Var.dimensions var) 0);
      if String.eqb d0 FRAME_DIM then
        if String.eqb var_str "time" then
          assign (WriteFrom var_str cursor time)
        else
          n ← lift (shape0 var);
          frames ← lift (arange_select n data_slice);
          for_each (enumerate frames) (copy_frame cursor index var_str var)
      else
        match
          match last_data with
          | Some last_data => dict_get (Dataset.variables last_data) var_str
          | None => None
          end
        with
        | None => assign (WriteAll var_str (Var.data var))
        | Some last_var =>
            if contents_differ last_var var
            then lift (Err (raise_per_file_differs var_str))
            else mret ()
        end.

  (** Lines 325-402: one round of the loop over [idata_f]; returns the new
      [cursor]. *)
Definition copy_segment (cursor : Z) (last_data : option Dataset.t)
      (r : traj) : M Z :=
    let '(trajfn, idata, data_slice, time) := r in
    index ← lift (find_index idata);
    _ ← for_each (Dataset.variables idata) (create_variable idata);
    _ ← for_each (Dataset.variables idata)
          (copy_variable cursor last_data idata data_slice time index);
    _ ← lift (getitem time (-1));
    mret (cursor + Z.of_nat (length time))%Z.

  (** Lines 324-405; [last_data] becomes [idata] at the end of each round. *)
Fixpoint copy_loop (cursor : Z) (last_data : option Dataset.t)
      (idata_f : list traj) : M Z :=
    match idata_f with
    | [] => mret cursor
    | r :: rest =>
        cursor ← copy_segment cursor last_data r;
        copy_loop cursor (Some (traj_data r)) rest
    end.

  (** Lines 303-408, from the creation of the output dataset on; returns
      the number of frames the last line reports. *)
Definition copy_all (idata_f : list traj) : M Z :=
    first ← lift (getitem idata_f 0);
    _ ← for_each (Dataset.ncattrs (traj_data first))
          (fun a => setncattr a.1 a.2);
    copy_loop 0 None idata_f.

  (** ** The script *)

  (** [opened] is what [Dataset(path)] returns for each path. *)
Definition open_files (opened : string -> res Dataset.t)
      : res (list (string * Dataset.t)) :=
    res_mapM (fun fn => d ← opened (strip_fn fn); Ok (fn, d))
      (Args.filenames arguments).

  (** Lines 296-408.  The caller of [open_trajs] leaves [time_var] at its
      default. *)
Definition main (opened : string -> res Dataset.t) : M Z :=
    data_f ← lift (open_files opened);
    idata_f ← lift (open_trajs "time" (Args.test_var arguments)
                      (Args.test_index arguments) (Args.test_tol arguments)
                      data_f);
    idata_f ← match Args.every arguments with
               | Some every => lift (filter_trajs idata_f every)
               | None => mret idata_f
               end;
    copy_all idata_f.
End copy.

(** ** Vocabulary of the properties *)

(** [j] is the first index of [d] that holds the minimum of [d]. *)
Definition is_argmin (d : list Q) (j : nat) : Prop :=
  exists x, d !! j = Some x /\
    (forall k y, d !! k = Some y -> x <= y) /\
    (forall k y, (k < j)%nat -> d !! k = Some y -> x < y).

(** Frame [j] is the frame of [time] nearest to [x], the earliest one among
    equally near frames. *)
Definition nearest_frame (time : list Q) (x : Q) (j : nat) : Prop :=
  exists tj, time !! j = Some tj /\
    (forall k t, time !! k = Some t -> Qabs (tj - x) <= Qabs (t - x)) /\
    (forall k t, (k < j)%nat -> time !! k = Some t ->
                 Qabs (tj - x) < Qabs (t - x)).

(** The maximum absolute difference, element by element, of two frames. *)
Definition residual (a b : nd) : res Q := d ← nd_absdiff a b; nd_max d.

(** Two frames agree within the tolerance: no element of their absolute
    difference exceeds the tolerance, taken element by element when the
    tolerance is a vector. *)
Definition within_tol (tol a b : nd) : res bool :=
  d ← nd_absdiff a b; negb <$> nd_any_gt d tol.

(** The pairs (frame [l] of the earlier file, frame [f] of the later file)
    the search has gone through once it has handled the candidates below
    [c] and stands at [last1] for candidate [c - 1]. *)
Definition examined (n1 c : nat) (last1 : Z) (l f : nat) : Prop :=
  (f < c)%nat /\ (l < n1)%nat /\ (f = (c - 1)%nat -> (last1 <= Z.of_nat l)%Z).

(** The number of candidates of the later file, [min(n2 - 1, 5) + 1]. *)
Definition candidates (n2 : nat) : nat := Nat.min n2 6.

(** The sentinel [min_maxdiff] starts from, above the tolerance. *)
Definition huge : Q := 1000000000000 # 1.

(** [mx] and [mn] are what [max_maxdiff] and [min_maxdiff] hold after the
    residuals [rho l f] of the pairs in [P] went through lines 139-140 and
    145-146: the largest of them and 0, the smallest of them and the
    sentinel. *)
Definition residual_bounds (tol : Q) (rho : nat -> nat -> Q)
    (P : nat -> nat -> Prop) (mx mn : Q) : Prop :=
  0 <= mx /\
  (forall l f, P l f -> rho l f <= mx) /\
  (mx == 0 \/ exists l f, P l f /\ mx == rho l f) /\
  mn <= tol + huge /\
  (forall l f, P l f -> mn <= rho l f) /\
  (mn == tol + huge \/ exists l f, P l f /\ mn == rho l f).

(** The state of the search, for a scalar tolerance, after the candidates
    below [c]: the candidates before the last one found no frame within the
    tolerance; the last one, [c - 1], stands at [last1 = l], with every
    frame after [l] out of tolerance, frame [l] within it when [l >= 0], and
    no frame within it when [l = -1]. *)
Definition search_inv (tol : Q) (n1 n2 : nat) (rho : nat -> nat -> Q)
    (c : nat) (s : search_state) : Prop :=
  st_first2 s = (Z.of_nat c - 1)%Z /\
  (c <= candidates n2)%nat /\
  exists d mx mn,
    st_maxdiff s = Sc d /\ st_max_maxdiff s = Sc mx /\
    st_min_maxdiff s = Sc mn /\
    (c = 0%nat -> tol < d) /\
    ((1 <= c)%nat ->
       exists l, st_last1 s = Some l /\ (-1 <= l < Z.of_nat n1)%Z /\
         (forall l' f, examined n1 c (l + 1) l' f -> tol < rho l' f) /\
         ((0 <= l)%Z -> d = rho (Z.to_nat l) (c - 1)%nat /\ d <= tol) /\
         (l = (-1)%Z -> tol < d)) /\
    residual_bounds tol rho (examined n1 c (default (-1)%Z (st_last1 s)))
      mx mn.

(** ** Datasets for the examples *)

(** A dataset holding one variable [cell_lengths] of dimensions
    (frame, cell_spatial), one list of numbers per frame. *)
Definition cell_dataset (frames : list (list Q)) : Dataset.t :=
  Dataset.mk
    [("cell_lengths"%string,
      Var.mk ["frame"%string; "cell_spatial"%string] DFloat []
        (map (map (fun x => [x])) frames))]
    [("frame"%string, Dim.mk true 0);
     ("cell_spatial"%string, Dim.mk false 2)]
    [].

(** A dataset with a [time] variable and a variable [coordinates] of
    dimensions (frame, atom), one number per atom. *)
Definition traj_dataset (times : list Q) (coordinates : list (list Q))
    : Dataset.t :=
  Dataset.mk
    [("time"%string,
      Var.mk ["frame"%string] DFloat [] (map (fun t => [[t]]) times));
     ("coordinates"%string,
      Var.mk ["frame"%string; "atom"%string] DFloat []
        (map (map (fun x => [x])) coordinates))]
    [("frame"%string, Dim.mk true 0); ("atom"%string, Dim.mk false 2)]
    [].

(** The same with a per-file variable [box] of dimension (cell_spatial). *)
Definition boxed_dataset (times : list Q) (coordinates : list (list Q))
    (box : list Q) : Dataset.t :=
  Dataset.mk
    (Dataset.variables (traj_dataset times coordinates) ++
     [("box"%string,
       Var.mk ["cell_spatial"%string] DFloat [] (map (fun x => [[x]]) box))])
    (Dataset.dimensions (traj_dataset times coordinates) ++
     [("cell_spatial"%string, Dim.mk false 1)])
    [].

(** A directory of two files. *)
Definition two_files (a b : Dataset.t) (path : string) : res Dataset.t :=
  if String.eqb path "a.nc" then Ok a
  else if String.eqb path "b.nc" then Ok b
  else Err (IOError path).

(** The command line [ncjoin.py a.nc b.nc], all options at their defaults. *)
Definition default_arguments : Args.t :=
  Args.mk ["a.nc"%string; "b.nc"%string] None "coordinates" None
    (Sc (1 # 1000000)) "NETCDF3_64BIT" None "id" (-1).

(** Two files of three frames each; the first frame of the second is the
    last frame of the first. *)
Definition file_a : Dataset.t :=
  boxed_dataset [0; 1; 2] [[0; 0]; [1; 1]; [2; 2]] [10].
Definition file_b (box : Q) : Dataset.t :=
  boxed_dataset [0; 1; 2] [[2; 2]; [3; 3]; [4; 4]] [box].

(** The test variable of a dataset has at least one frame, and its time
    variable, when it has one, has as many values as the test variable has
    frames (both run along the frame dimension). *)
Definition frames_agree (time_var test_var : string) (data : Dataset.t)
    : Prop :=
  forall v, dict_get (Dataset.variables data) test_var = Some v ->
    Var.data v <> [] /\
    forall vt, dict_get (Dataset.variables data) time_var = Some vt ->
               length (Var.data vt) = length (Var.data v).

(** The time values a dataset declares are strictly increasing. *)
Definition time_increases (time_var : string) (data : Dataset.t) : Prop :=
  forall vt ts, dict_get (Dataset.variables data) time_var = Some vt ->
    time_values vt = Ok ts -> StronglySorted Qlt ts.

(** The distance of frame [j] to [x]. *)
Definition distance (time : list Q) (x : Q) (j : nat) : Q :=
  Qabs (nth j time 0 - x).

(** ** Vocabulary for the copy loop *)

(** Whatever it returns or raises, [m] takes an output dataset to one
    related to it by [R]. *)
Definition steps (R : relation output) {A} (m : M A) : Prop :=
  forall o, R o (m o).1.

(** The assignments a round of the copy loop may make when it starts at
    [cursor]: frames go to [cursor + oframe], the time stamps to
    [cursor:]. *)
Definition starts_at (cursor : Z) (w : write) : Prop :=
  match w with
  | WriteFrame _ pos _ => exists oframe : nat, pos = (cursor + Z.of_nat oframe)%Z
  | WriteFrom _ start _ => start = cursor
  | WriteAll _ _ => True
  end.

(** [o'] is [o] after more assignments, all of them in [P]. *)
Definition appends (P : write -> Prop) (o o' : output) : Prop :=
  exists new, out_written o' = out_written o ++ new /\ Forall P new.

(** The variable [var_str] is neither created in [o] nor assigned to. *)
Definition absent (var_str : string) (o : output) : Prop :=
  out_variables o !! var_str = None /\
  Forall (fun w => write_var w <> var_str) (out_written o).

(** [cursor] after the tuples [idata_f]. *)
Definition advance (cursor : Z) (idata_f : list traj) : Z :=
  (cursor +
   Z.of_nat (sum_list (map (fun r => length (traj_time r)) idata_f)))%Z.

(** ** Vocabulary for the output dataset *)

(** [m], run from an output that satisfies [P], raises no [KeyError]: every
    [odata.variables[...]] and [idata.dimensions[...]] it evaluates finds its
    key.  When it returns [a], the output satisfies [Q a]. *)
Definition finds_its_keys {A} (P : output -> Prop) (m : M A)
    (Q : A -> output -> Prop) : Prop :=
  forall o, P o ->
    match (m o).2 with
    | Ok a => Q a (m o).1
    | Err e => forall key, e <> KeyError key
    end.

(** A result that is not the exception [KeyError]. *)
Definition keyless {A} (r : res A) : Prop :=
  forall key, r <> Err (KeyError key).

(** Every variable of the output has all its dimensions in the output. *)
Definition dimensions_declared (o : output) : Prop :=
  forall v ov, out_variables o !! v = Some ov ->
    Forall (fun d => is_Some (out_dimensions o !! d)) (ovar_dimensions ov).

(** [o'] is [o] grown: the variables of [o] are still there with their type
    and dimensions, the dimensions of [o] with their sizes, the global
    attributes and the assignments of [o] are a prefix of those of [o']. *)
Definition persists (o o' : output) : Prop :=
  (forall v ov, out_variables o !! v = Some ov ->
     exists ov', out_variables o' !! v = Some ov' /\
       ovar_dtype ov' = ovar_dtype ov /\
       ovar_dimensions ov' = ovar_dimensions ov) /\
  (forall d n, out_dimensions o !! d = Some n -> out_dimensions o' !! d = Some n) /\
  (exists new, out_attrs o' = out_attrs o ++ new) /\
  (exists new, out_written o' = out_written o ++ new).

(** [o'] differs from [o] by new dimensions at most. *)
Definition adds_dimensions (o o' : output) : Prop :=
  out_attrs o' = out_attrs o /\ out_variables o' = out_variables o /\
  out_written o' = out_written o /\
  forall d n, out_dimensions o !! d = Some n -> out_dimensions o' !! d = Some n.

(** ** Vocabulary for the rounds of the copy loop *)






(** Every dimension of every variable of the dataset is a dimension of the
    dataset. *)
Definition dimensions_known (data : Dataset.t) : Prop :=
  forall var_str var d,
    (var_str, var) ∈ Dataset.variables data -> d ∈ Var.dimensions var ->
    dict_has (Dataset.dimensions data) d = true.

(** ** Vocabulary for [filter_trajs] *)

(** An entry of [idata_oframe] with its frame number as the index arrays of
    line 225 hold it. *)
Definition regrouped : Type := nat * string * Dataset.t * Z * Q.

Definition as_regrouped (fr : oframe) : regrouped :=
  let '(k, fn, data, i, t) := fr in (k, fn, data, Z.of_nat i, t).

(** The entries a tuple of [filter_trajs] stands for: its frame numbers
    paired with its time stamps, under its file name and dataset; [k] is the
    position in [idata_f] of the tuple they come from. *)
Definition group_frames (k : nat) (r : traj) : list regrouped :=
  match traj_slice r with
  | Indices idx =>
      zip_with (fun i t => (k, traj_fn r, traj_data r, i, t)) idx (traj_time r)
  | Slice _ _ => []
  end.

Definition groups_frames (ks : list nat) (out : list traj) : list regrouped :=
  concat (zip_with group_frames ks out).

(** No two neighbours in [ks] are equal. *)
Definition neighbours_differ (ks : list nat) : Prop :=
  forall j a b, ks !! j = Some a -> ks !! S j = Some b -> a <> b.

(** The entry [fr] is frame [i] of the tuple at position [k] of [idata_f]:
    it carries the file name and the dataset of that tuple and the time
    stamp [time[i]]. *)
Definition frame_of_tuple (idata_f : list traj) (fr : oframe) : Prop :=
  let '(k, fn, data, i, t) := fr in
  exists r, idata_f !! k = Some r /\ fn = traj_fn r /\ data = traj_data r /\
    traj_time r !! i = Some t.

(** ** Vocabulary for the tuples *)

(** The time stamps of the tuples one after the other: what the copy loop
    writes to the variable [time]. *)
Definition timeline (recs : list traj) : list Q := concat (map traj_time recs).

(** The timeline without the first time stamp of every tuple after the
    first. *)
Definition without_join_repeats (recs : list traj) : list Q :=
  match recs with
  | [] => []
  | r :: rs => traj_time r ++ concat (map (fun r' => tail (traj_time r')) rs)
  end.

(** None of the files after the first carries the marker [+]. *)
Definition none_trusted (data_f : list (string * Dataset.t)) : Prop :=
  Forall (fun fd => starts_with_plus fd.1 = Ok false) (tail data_f).

(** The residual of frame [l] of the earlier file against frame [f] of the
    later file, as line 142 computes it; 0 where there is no such pair or
    the frames cannot be subtracted. *)
Definition residual_at (test1 test2 : list nd) (l f : nat) : Q :=
  match test1 !! l, test2 !! f with
  | Some a, Some b =>
      match residual a b with
      | Ok q => q
      | Err _ => 0
      end
  | _, _ => 0
  end.


(** Every frame of the earlier file can be subtracted from every frame of
    the later file. *)
Definition comparable (test1 test2 : list nd) : Prop :=
  forall l f a b, test1 !! l = Some a -> test2 !! f = Some b ->
    exists q, residual a b = Ok q.

(** [o'] has the global attributes of [o]. *)
Definition same_attrs (o o' : output) : Prop := out_attrs o' = out_attrs o.

(** * Properties *)

(** ** Exceptions and rationals *)

Lemma res_bind_ok {A B} (c : res A) (f : A -> res B) b :
  c ≫= f = Ok b -> exists a, c = Ok a /\ f a = Ok b.
Proof. destruct c as [a|e]; simpl; [eauto | discriminate]. Qed.

Lemma res_fmap_ok {A B} (c : res A) (f : A -> B) b :
  f <$> c = Ok b -> exists a, c = Ok a /\ b = f a.
Proof.
  destruct c as [a|e]; simpl; [|discriminate].
  intros [= <-]. eauto.
Qed.

Lemma of_option_ok {A} e (o : option A) a : of_option e o = Ok a -> o = Some a.
Proof. destruct o; simpl; congruence. Qed.

(** Decomposes a hypothesis [c ≫= f = Ok b] into its steps. *)
Ltac res_inv H :=
  match type of H with
  | mbind _ _ = Ok _ =>
      let a := fresh "a" in let H1 := fresh H in
      apply res_bind_ok in H; destruct H as (a & H1 & H); res_inv H
  | fmap _ _ = Ok _ =>
      let a := fresh "a" in let H1 := fresh H in
      apply res_fmap_ok in H; destruct H as (a & H1 & H)
  | of_option _ _ = Ok _ => apply of_option_ok in H
  | Ok _ = Ok _ => injection H as H
  | _ => idtac
  end.

Lemma Qltb_lt x y : Qltb x y = true <-> x < y.
Proof.
  unfold Qltb. rewrite negb_true_iff. split.
  - intros H. apply Qnot_le_lt. intros Hle.
    apply Qle_bool_iff in Hle. congruence.
  - intros H. destruct (Qle_bool y x) eqn:E; [|reflexivity].
    apply Qle_bool_iff in E. lra.
Qed.

Lemma Qltb_ge x y : Qltb x y = false <-> y <= x.
Proof. unfold Qltb. rewrite negb_false_iff. apply Qle_bool_iff. Qed.

Lemma Qabs_cases (t : Q) :
  (0 <= t /\ Qabs t == t) \/ (t <= 0 /\ Qabs t == - t).
Proof.
  apply (Qabs_case t (fun q => (0 <= t /\ q == t) \/ (t <= 0 /\ q == - t)));
    intros H; [left | right]; split; auto; reflexivity.
Qed.

(** Replaces every [Qabs t] by a fresh number with its defining cases. *)
Ltac qabs :=
  repeat match goal with
  | |- context [Qabs ?t] =>
      let H := fresh "Habs" in
      destruct (Qabs_cases t) as [[? H]|[? H]];
      revert H; generalize (Qabs t); intros ? H
  | H0 : context [Qabs ?t] |- _ =>
      let H := fresh "Habs" in
      destruct (Qabs_cases t) as [[? H]|[? H]];
      revert H; generalize dependent (Qabs t); intros
  end.

(** The points nearer to [a] than to [b] form a half-line. *)
Lemma closer_convex_le a b x1 x2 x3 :
  Qabs (a - x1) <= Qabs (b - x1) -> Qabs (a - x3) <= Qabs (b - x3) ->
  x1 <= x2 -> x2 <= x3 -> Qabs (a - x2) <= Qabs (b - x2).
Proof. intros. qabs; lra. Qed.

Lemma closer_convex_lt a b x1 x2 x3 :
  Qabs (a - x1) < Qabs (b - x1) -> Qabs (a - x3) < Qabs (b - x3) ->
  x1 <= x2 -> x2 <= x3 -> Qabs (a - x2) < Qabs (b - x2).
Proof. intros. qabs; lra. Qed.

Lemma getitem_0 {A} (l : list A) x : getitem l 0 = Ok x -> head l = Some x.
Proof.
  destruct l as [|a l]; [discriminate|].
  unfold getitem, py_index.
  replace ((0 <=? 0) && (0 <? Z.of_nat (length (a :: l))))%Z with true
    by (symmetry; apply andb_true_iff; split;
        [reflexivity | apply Z.ltb_lt; simpl; lia]).
  simpl. congruence.
Qed.

Lemma getitem_last {A} (l : list A) x : getitem l (-1) = Ok x -> last l = Some x.
Proof.
  unfold getitem, py_index.
  destruct (decide (l = [])) as [->|Hne]; [discriminate|].
  assert (0 < length l)%nat by (destruct l; simpl; [congruence | lia]).
  replace ((-1 <? 0)%Z) with true by reflexivity.
  destruct (_ && _) eqn:E; [|discriminate].
  intros Hx%of_option_ok. rewrite last_lookup.
  rewrite <- Hx. f_equal. lia.
Qed.

(** ** Reordering by particle identifier *)

Lemma py_index_in_range (n : nat) (i : Z) :
  (0 <= i < Z.of_nat n)%Z -> py_index n i = Some (Z.to_nat i).
Proof.
  intros H. unfold py_index.
  replace (i <? 0)%Z with false by (symmetry; apply Z.ltb_ge; lia).
  replace ((0 <=? i) && (i <? Z.of_nat n))%Z with true; [reflexivity|].
  symmetry. apply andb_true_iff. split; [apply Z.leb_le | apply Z.ltb_lt]; lia.
Qed.

Lemma getitem_in_range {A} (l : list A) (i : nat) x :
  l !! i = Some x -> getitem l (Z.of_nat i) = Ok x.
Proof.
  intros H. unfold getitem.
  rewrite py_index_in_range by (apply lookup_lt_Some in H; lia).
  rewrite Nat2Z.id, H. reflexivity.
Qed.

Lemma scatter_spec (index_offset : Z) (ids : list Z) :
  forall (var_data acc : list row),
  length ids = length var_data ->
  NoDup ids ->
  (forall id, id ∈ ids -> (0 <= id + index_offset < Z.of_nat (length acc))%Z) ->
  exists out,
    scatter index_offset ids var_data acc = Ok out /\
    length out = length acc /\
    (forall i id r, ids !! i = Some id -> var_data !! i = Some r ->
                    out !! Z.to_nat (id + index_offset) = Some r) /\
    (forall k, (forall id, id ∈ ids -> Z.to_nat (id + index_offset) <> k) ->
               out !! k = acc !! k).
Proof.
  induction ids as [|id ids IH]; intros var_data acc Hlen Hnd Hrange.
  - exists acc. split; [destruct var_data; reflexivity|].
    split; [reflexivity|]. split; [|auto].
    intros i id r Hi. rewrite lookup_nil in Hi. discriminate.
  - destruct var_data as [|r var_data]; [discriminate|].
    simpl in Hlen. injection Hlen as Hlen.
    apply NoDup_cons in Hnd as [Hnotin Hnd].
    assert (Hid : (0 <= id + index_offset < Z.of_nat (length acc))%Z)
      by (apply Hrange; left).
    simpl. rewrite py_index_in_range by exact Hid. simpl.
    destruct (IH var_data (<[Z.to_nat (id + index_offset) := r]> acc))
      as (out & Hout & Hlen' & Hrows & Hrest); auto.
    { intros id' Hid'. rewrite length_insert. apply Hrange. right. exact Hid'. }
    exists out. split; [exact Hout|]. split; [|split].
    + rewrite Hlen', length_insert. reflexivity.
    + intros [|i] id' r' Hi Hr; simpl in Hi, Hr.
      * injection Hi as <-. injection Hr as <-.
        rewrite Hrest.
        -- apply list_lookup_insert_eq. lia.
        -- intros id' Hid' Heq.
           assert (0 <= id' + index_offset)%Z
             by (apply (Hrange id'); right; exact Hid').
           assert (id' = id) as -> by lia. contradiction.
      * eapply Hrows; eauto.
    + intros k Hk. rewrite Hrest.
      * apply list_lookup_insert_ne. apply Hk. left.
      * intros id' Hid'. apply Hk. right. exact Hid'.
Qed.

(** With as many identifiers as rows, distinct, and every
    [identifier + index_offset] a valid row number, the reordering succeeds
    and puts input row [i] at output row [ids[i] + index_offset]. *)
Lemma reorder_spec (index_offset : Z) (ids : list Z) (var_data : list row) :
  length ids = length var_data ->
  NoDup ids ->
  (forall id, id ∈ ids ->
     (0 <= id + index_offset < Z.of_nat (length var_data))%Z) ->
  exists out,
    reorder index_offset ids var_data = Ok out /\
    length out = length var_data /\
    forall i id r, ids !! i = Some id -> var_data !! i = Some r ->
                   out !! Z.to_nat (id + index_offset) = Some r.
Proof.
  intros Hlen Hnd Hrange. unfold reorder.
  rewrite Hlen, Nat.eqb_refl.
  destruct (scatter_spec index_offset ids var_data (zeros_like var_data))
    as (out & Hout & Hlen' & Hrows & _); auto.
  { intros id Hid. unfold zeros_like. rewrite length_map. auto. }
  exists out. split; [exact Hout|]. split; [|exact Hrows].
  rewrite Hlen'. unfold zeros_like. apply length_map.
Qed.

(** The example of the specification: identifiers 3, 1, 2 and offset -1. *)
Example reorder_312 (r0 r1 r2 : row) :
  reorder (-1) [3; 1; 2]%Z [r0; r1; r2] = Ok [r1; r2; r0].
Proof. reflexivity. Qed.

Lemma assign_created (w : write) (o : output) :
  is_Some (out_variables o !! write_var w) ->
  assign w o = (add_write o w, Ok ()).
Proof.
  intros [v Hv]. unfold assign, mbind, M_bind, get_output, put_output.
  rewrite Hv. reflexivity.
Qed.

(** C7.  When the index variable is present and the variable being copied
    has the particle axis as its second dimension, copying frame [iframe]
    writes at [cursor + oframe] a frame in which input row [i] sits at row
    [identifier[i] + index_offset] -- for identifiers that are distinct and,
    once shifted, valid row numbers. *)
Theorem copy_frame_reorders (arguments : Args.t) (cursor : Z)
    (index var : Var.t) (var_str : string) (oframe iframe : nat) (o : output)
    (ids var_data : frame) (d0 : string) (dims : list string) :
  Var.dimensions var = d0 :: ATOM_DIM :: dims ->
  Var.dtype index = DInt ->
  Var.data var !! iframe = Some var_data ->
  Var.data index !! iframe = Some ids ->
  length ids = length var_data ->
  NoDup (ids_of_frame ids) ->
  (forall id, id ∈ ids_of_frame ids ->
     (0 <= id + Args.index_offset arguments < Z.of_nat (length var_data))%Z) ->
  is_Some (out_variables o !! var_str) ->
  exists sorted_var_data,
    copy_frame arguments cursor (Some index) var_str var (oframe, iframe) o =
      (add_write o (WriteFrame var_str (cursor + Z.of_nat oframe)
                      sorted_var_data), Ok ()) /\
    length sorted_var_data = length var_data /\
    forall i id r,
      ids_of_frame ids !! i = Some id -> var_data !! i = Some r ->
      sorted_var_data !! Z.to_nat (id + Args.index_offset arguments) = Some r.
Proof.
  intros Hdims Hint Hvar Hids Hlen Hnd Hrange Hcreated.
  destruct (reorder_spec (Args.index_offset arguments) (ids_of_frame ids)
              var_data) as (out & Hout & Hlen' & Hrows); auto.
  { unfold ids_of_frame. rewrite length_map. exact Hlen. }
  exists out. split; [|split; assumption].
  unfold copy_frame, mbind, M_bind, lift.
  rewrite (getitem_in_range _ _ _ Hvar), Hdims. simpl.
  rewrite (getitem_in_range _ _ _ Hids), Hint, Hout.
  apply assign_created, Hcreated.
Qed.

Lemma copy_frame_reorders_witness :
  let r0 := [1; 0; 0] in let r1 := [0; 1; 0] in let r2 := [0; 0; 1] in
  exists sorted_var_data : frame,
    sorted_var_data !! 2%nat = Some r0 /\
    sorted_var_data !! 0%nat = Some r1 /\
    sorted_var_data !! 1%nat = Some r2.
Proof.
  intros r0 r1 r2.
  pose (arguments := Args.mk [] None "coordinates" None (Sc 0) "NETCDF3_64BIT"
                       None "id" (-1)).
  pose (index := Var.mk ["frame"; "atom"] DInt [] [[[3]; [1]; [2]]]).
  pose (var := Var.mk ["frame"; "atom"; "spatial"] DFloat [] [[r0; r1; r2]]).
  pose (o := mk_output [] ∅ {["coordinates" := mk_ovar DFloat [] []]} []).
  destruct (copy_frame_reorders arguments 0 index var "coordinates" 0 0 o
              [[3]; [1]; [2]] [r0; r1; r2] "frame" ["spatial"])
    as (out & _ & _ & Hrows).
  - reflexivity.
  - reflexivity.
  - reflexivity.
  - reflexivity.
  - reflexivity.
  - refine (bool_decide_unpack _ _). vm_compute. reflexivity.
  - intros id Hid. vm_compute in Hid.
    repeat (apply elem_of_cons in Hid as [->|Hid]; [vm_compute; split; congruence|]).
    inversion Hid.
  - eexists. apply lookup_insert_eq.
  - exists out. repeat split.
    + apply (Hrows 0%nat 3%Z r0); reflexivity.
    + apply (Hrows 1%nat 1%Z r1); reflexivity.
    + apply (Hrows 2%nat 2%Z r2); reflexivity.
Defined.

(** ** The resampler: [get_nearest_indices] *)

Lemma argmin_from_spec (l pre : list Q) (bi : nat) (b : Q) (i : nat) :
  i = length pre ->
  pre !! bi = Some b ->
  (forall k y, pre !! k = Some y -> b <= y) ->
  (forall k y, (k < bi)%nat -> pre !! k = Some y -> b < y) ->
  is_argmin (pre ++ l) (argmin_from bi b i l).
Proof.
  revert pre bi b i.
  induction l as [|x l IH]; intros pre bi b i Hi Hb Hle Hlt; simpl.
  - rewrite app_nil_r. exists b. auto.
  - assert (Hbi : (bi < length pre)%nat) by (eapply lookup_lt_Some; eauto).
    replace (pre ++ x :: l) with ((pre ++ [x]) ++ l)
      by (rewrite <- app_assoc; reflexivity).
    destruct (Qltb x b) eqn:E.
    + apply Qltb_lt in E. apply IH.
      * rewrite length_app. simpl. lia.
      * subst i. rewrite lookup_app_r by lia.
        rewrite Nat.sub_diag. reflexivity.
      * intros k y Hk. apply lookup_app_Some in Hk as [Hk|[_ Hk]].
        -- apply Hle in Hk. lra.
        -- apply list_lookup_singleton_Some in Hk as [_ <-]. lra.
      * intros k y Hki Hk. subst i.
        rewrite lookup_app_l in Hk by lia. apply Hle in Hk. lra.
    + apply Qltb_ge in E. apply IH.
      * rewrite length_app. simpl. lia.
      * rewrite lookup_app_l by lia. exact Hb.
      * intros k y Hk. apply lookup_app_Some in Hk as [Hk|[_ Hk]].
        -- eauto.
        -- apply list_lookup_singleton_Some in Hk as [_ <-]. exact E.
      * intros k y Hki Hk.
        rewrite lookup_app_l in Hk by lia. eauto.
Qed.

Lemma argmin_spec (d : list Q) : d <> [] -> is_argmin d (argmin d).
Proof.
  destruct d as [|x d]; [congruence|]. intros _. simpl.
  apply (argmin_from_spec d [x] 0 x 1); simpl; auto.
  - intros [|k] y Hk; simpl in Hk; [|discriminate].
    injection Hk as <-. lra.
  - intros k y Hk. lia.
Qed.

Lemma is_argmin_unique d j j' : is_argmin d j -> is_argmin d j' -> j = j'.
Proof.
  intros (x & Hj & Hle & Hlt) (x' & Hj' & Hle' & Hlt').
  destruct (Nat.lt_trichotomy j j') as [H|[H|H]]; [|exact H|].
  - specialize (Hlt' _ _ H Hj). specialize (Hle _ _ Hj'). lra.
  - specialize (Hlt _ _ H Hj'). specialize (Hle' _ _ Hj). lra.
Qed.

Lemma difftime_lookup time every i k y :
  difftime time every i !! k = Some y <->
  exists t, time !! k = Some t /\ y = Qabs (t - slot every i).
Proof.
  unfold difftime. rewrite list_lookup_fmap.
  destruct (time !! k) as [t|]; simpl; split.
  - intros [= <-]. eauto.
  - intros (t' & [= <-] & ->). reflexivity.
  - discriminate.
  - intros (t' & [=] & _).
Qed.

Lemma is_argmin_difftime time every i j :
  is_argmin (difftime time every i) j <->
  nearest_frame time (slot every i) j.
Proof.
  split.
  - intros (x & Hj & Hle & Hlt).
    apply difftime_lookup in Hj as (tj & Hj & ->).
    exists tj. split; [exact Hj|]. split.
    + intros k t Hk. apply (Hle k). apply difftime_lookup. eauto.
    + intros k t Hkj Hk. apply (Hlt k); [exact Hkj|].
      apply difftime_lookup. eauto.
  - intros (tj & Hj & Hle & Hlt).
    exists (Qabs (tj - slot every i)). split.
    + apply difftime_lookup. eauto.
    + split.
      * intros k y (t & Hk & ->)%difftime_lookup. eauto.
      * intros k y Hkj (t & Hk & ->)%difftime_lookup. eauto.
Qed.

Lemma nearest_frame_unique time x j j' :
  nearest_frame time x j -> nearest_frame time x j' -> j = j'.
Proof.
  intros (t & Hj & Hle & Hlt) (t' & Hj' & Hle' & Hlt').
  destruct (Nat.lt_trichotomy j j') as [H|[H|H]]; [|exact H|].
  - specialize (Hlt' _ _ H Hj). specialize (Hle _ _ Hj'). lra.
  - specialize (Hlt _ _ H Hj'). specialize (Hle' _ _ Hj). lra.
Qed.

(** The targets for which a given frame is the nearest one form an
    interval. *)
Lemma nearest_frame_convex time x1 x2 x3 j :
  nearest_frame time x1 j -> nearest_frame time x3 j ->
  x1 <= x2 -> x2 <= x3 -> nearest_frame time x2 j.
Proof.
  intros (t & Hj & Hle & Hlt) (t' & Hj' & Hle' & Hlt') H12 H23.
  assert (t' = t) as -> by congruence.
  exists t. split; [exact Hj|]. split.
  - intros k s Hk. apply (closer_convex_le t s x1 x2 x3); eauto.
  - intros k s Hkj Hk. apply (closer_convex_lt t s x1 x2 x3); eauto.
Qed.

Lemma slot_between every i1 i2 i3 :
  (i1 <= i2)%Z -> (i2 <= i3)%Z ->
  (slot every i1 <= slot every i2 /\ slot every i2 <= slot every i3) \/
  (slot every i3 <= slot every i2 /\ slot every i2 <= slot every i1).
Proof.
  intros H12 H23. unfold slot.
  rewrite Zle_Qle in H12, H23.
  destruct (Qlt_le_dec every 0); [right | left]; split; nra.
Qed.

Lemma nearest_frame_between time every i1 i2 i3 j :
  (i1 <= i2)%Z -> (i2 <= i3)%Z ->
  nearest_frame time (slot every i1) j ->
  nearest_frame time (slot every i3) j ->
  nearest_frame time (slot every i2) j.
Proof.
  intros H12 H23 H1 H3.
  destruct (slot_between every _ _ _ H12 H23) as [[? ?]|[? ?]];
    eauto using nearest_frame_convex.
Qed.

Lemma difftime_nonempty time every i : time <> [] -> difftime time every i <> [].
Proof. destruct time; simpl; congruence. Qed.

Lemma argmin_nearest time every i :
  time <> [] ->
  nearest_frame time (slot every i) (argmin (difftime time every i)).
Proof.
  intros H. apply is_argmin_difftime, argmin_spec, difftime_nonempty, H.
Qed.

Lemma difftime_nth time every i j :
  (j < length time)%nat ->
  nth j (difftime time every i) 0 = distance time (slot every i) j.
Proof.
  intros Hlt. unfold distance, difftime.
  rewrite (nth_indep _ 0 (Qabs (0 - slot every i)))
    by (rewrite length_map; exact Hlt).
  apply (map_nth (fun t => Qabs (t - slot every i))).
Qed.

Lemma nearest_frame_lt time x j : nearest_frame time x j -> (j < length time)%nat.
Proof. intros (t & Hj & _). eapply lookup_lt_Some, Hj. Qed.

Section nearest_loop.
Context (time : list Q) (every : Q).
Hypothesis time_nonempty : time <> [].

Let pick (i : Z) : nat := argmin (difftime time every i).
Let near (i : Z) : bool := Qltb (nth (pick i) (difftime time every i) 0) 1.

Lemma same_index_true last_j j : same_index last_j j = true <-> last_j = Some j.
  Proof.
    destruct last_j as [j'|]; simpl; [|split; discriminate].
    rewrite Nat.eqb_eq. split; congruence.
  Qed.

Lemma nearest_loop_cons i rest last_j :
    nearest_loop time every (i :: rest) last_j =
    if near i && negb (same_index last_j (pick i))
    then pick i :: nearest_loop time every rest (Some (pick i))
    else nearest_loop time every rest last_j.
  Proof. reflexivity. Qed.

  (** Every index returned was picked for some slot, within the threshold. *)
Lemma nearest_loop_elem slots last_j j :
    j ∈ nearest_loop time every slots last_j ->
    exists i, i ∈ slots /\ pick i = j /\ near i = true.
  Proof.
    revert last_j. induction slots as [|i rest IH]; intros last_j.
    - intros H. inversion H.
    - rewrite nearest_loop_cons.
      destruct (near i && negb (same_index last_j (pick i))) eqn:E.
      + apply andb_true_iff in E as [En _].
        intros [->|H]%elem_of_cons.
        * exists i. split; [left|]; auto.
        * apply IH in H as (i' & Hi' & ?). exists i'. split; [right|]; auto.
      + intros H. apply IH in H as (i' & Hi' & ?).
        exists i'. split; [right|]; auto.
  Qed.

  (** An index that was the last one returned comes back only after the
      loop picked another index in between. *)
Lemma nearest_loop_again slots j :
    StronglySorted Z.lt slots ->
    j ∈ nearest_loop time every slots (Some j) ->
    exists i' i, i' ∈ slots /\ i ∈ slots /\ (i' < i)%Z /\
                 pick i' <> j /\ pick i = j.
  Proof.
    induction slots as [|i0 rest IH]; intros Hs.
    - intros H. inversion H.
    - rewrite nearest_loop_cons.
      apply StronglySorted_inv in Hs as [Hs Hall].
      destruct (near i0 && negb (same_index (Some j) (pick i0))) eqn:E.
      + apply andb_true_iff in E as [_ En].
        apply negb_true_iff in En. simpl in En. apply Nat.eqb_neq in En.
        intros [->|H]%elem_of_cons; [congruence|].
        apply nearest_loop_elem in H as (i & Hi & Hp & _).
        exists i0, i. repeat split; auto.
        * left.
        * right. exact Hi.
        * rewrite Forall_forall in Hall. apply Hall. exact Hi.
      + intros H. apply (IH Hs) in H as (i' & i & Hi' & Hi & ? & ? & ?).
        exists i', i. repeat split; auto; right; assumption.
  Qed.

  (** No frame is returned twice. *)
Lemma nearest_loop_NoDup slots last_j :
    StronglySorted Z.lt slots ->
    NoDup (nearest_loop time every slots last_j).
  Proof.
    revert last_j. induction slots as [|i0 rest IH]; intros last_j Hs.
    - constructor.
    - rewrite nearest_loop_cons.
      pose proof Hs as Hs0.
      apply StronglySorted_inv in Hs as [Hs Hall].
      destruct (near i0 && negb (same_index last_j (pick i0))) eqn:E;
        [|apply IH, Hs].
      constructor; [|apply IH, Hs].
      intros Hin.
      apply (nearest_loop_again rest (pick i0) Hs) in Hin
        as (i' & i & Hi' & Hi & Hlt & Hne & Heq).
      rewrite Forall_forall in Hall.
      apply Hne, (nearest_frame_unique time (slot every i')).
      + apply argmin_nearest, time_nonempty.
      + apply (nearest_frame_between time every i0 i' i).
        * apply Hall in Hi'. lia.
        * lia.
        * apply argmin_nearest, time_nonempty.
        * rewrite <- Heq. apply argmin_nearest, time_nonempty.
  Qed.

  (** A slot with a frame within the threshold has its nearest frame among
      the indices returned, unless that frame was the last one returned
      before the loop started. *)
Lemma nearest_loop_complete slots last_j i :
    i ∈ slots -> near i = true ->
    pick i ∈ nearest_loop time every slots last_j \/ last_j = Some (pick i).
  Proof.
    revert last_j. induction slots as [|i0 rest IH]; intros last_j Hin Hn.
    - inversion Hin.
    - rewrite nearest_loop_cons.
      apply elem_of_cons in Hin as [->|Hin].
      + rewrite Hn. simpl.
        destruct (same_index last_j (pick i0)) eqn:E; simpl.
        * right. apply same_index_true, E.
        * left. left.
      + destruct (near i0 && negb (same_index last_j (pick i0))) eqn:E.
        * left. destruct (IH (Some (pick i0)) Hin Hn) as [H|H].
          -- right. exact H.
          -- injection H as ->. left.
        * destruct (IH last_j Hin Hn) as [H|H]; [left|right]; exact H.
  Qed.
End nearest_loop.

Lemma zrange_sorted n m : StronglySorted Z.lt (zrange n m).
Proof.
  unfold zrange. generalize (Z.to_nat (m - n)) as len. intros len.
  generalize 0%nat as s. induction len as [|len IH]; intros s; simpl.
  - constructor.
  - constructor; [apply IH|].
    apply Forall_forall. intros x Hx. apply list_elem_of_In in Hx.
    apply in_map_iff in Hx as (k & <- & Hk).
    apply in_seq in Hk. lia.
Qed.

Lemma elem_of_zrange n m i : i ∈ zrange n m <-> (n <= i < m)%Z.
Proof.
  unfold zrange. rewrite list_elem_of_In, in_map_iff. split.
  - intros (k & <- & Hk). apply in_seq in Hk. lia.
  - intros H. exists (Z.to_nat (i - n)). split; [lia|].
    apply in_seq. lia.
Qed.

Lemma amin_nonempty time lo : amin time = Some lo -> time <> [].
Proof. destruct time; simpl; congruence. Qed.

(** The indices returned line up with the slots they were picked for, in
    the order of the slots. *)
Lemma nearest_loop_slots time every slots last_j :
  StronglySorted Z.lt slots ->
  exists ks,
    Forall2 (fun i j => argmin (difftime time every i) = j /\
                        Qltb (nth j (difftime time every i) 0) 1 = true)
      ks (nearest_loop time every slots last_j) /\
    StronglySorted Z.lt ks /\
    Forall (fun i => i ∈ slots) ks.
Proof.
  revert last_j. induction slots as [|i0 rest IH]; intros last_j Hs.
  - exists []. simpl. repeat constructor.
  - rewrite nearest_loop_cons.
    apply StronglySorted_inv in Hs as [Hs Hall].
    destruct (_ && _) eqn:E.
    + apply andb_true_iff in E as [En _].
      destruct (IH (Some (argmin (difftime time every i0))) Hs)
        as (ks & HF & Hsorted & Hin).
      exists (i0 :: ks). split; [|split].
      * constructor; auto.
      * constructor; [exact Hsorted|].
        rewrite Forall_forall in *. intros k Hk. apply Hall, Hin, Hk.
      * constructor; [left|].
        eapply Forall_impl; [exact Hin|]. intros k Hk. right. exact Hk.
    + destruct (IH last_j Hs) as (ks & HF & Hsorted & Hin).
      exists ks. split; [exact HF|]. split; [exact Hsorted|].
      eapply Forall_impl; [exact Hin|]. intros k Hk. right. exact Hk.
Qed.

(** C6.  Whenever [get_nearest_indices time every] returns, the frames it
    returns are paired, in order, with distinct slots [i] of
    [range(n, m)]: each returned frame is the frame nearest to its target
    [i * every] and lies strictly less than 1 away from it; no frame is
    returned twice; and every slot that has a frame strictly less than 1
    away has its nearest frame among those returned. *)
Theorem get_nearest_indices_selects (time : list Q) (every : Q) (r : list nat) :
  get_nearest_indices time every = Ok r ->
  exists lo hi ks,
    amin time = Some lo /\ amax time = Some hi /\
    let slots := zrange (first_slot lo every) (stop_slot hi every) in
    NoDup r /\
    StronglySorted Z.lt ks /\
    Forall2 (fun i j => i ∈ slots /\
                        nearest_frame time (slot every i) j /\
                        distance time (slot every i) j < 1) ks r /\
    (forall i j, i ∈ slots -> nearest_frame time (slot every i) j ->
                 distance time (slot every i) j < 1 -> j ∈ r).
Proof.
  unfold get_nearest_indices.
  destruct (amin time) as [lo|] eqn:Hlo; [|discriminate].
  destruct (amax time) as [hi|] eqn:Hhi; [|discriminate].
  destruct (Qeq_bool every 0); [discriminate|].
  intros [= <-].
  pose proof (amin_nonempty _ _ Hlo) as Hne.
  set (slots := zrange (first_slot lo every) (stop_slot hi every)).
  destruct (nearest_loop_slots time every slots None (zrange_sorted _ _))
    as (ks & HF & Hsorted & Hin).
  exists lo, hi, ks. repeat split; auto.
  - apply nearest_loop_NoDup; [exact Hne | apply zrange_sorted].
  - clear Hsorted. revert Hin HF.
    generalize (nearest_loop time every slots None) as r.
    induction ks as [|k ks IH]; intros r Hin HF; inversion HF; subst;
      constructor.
    + apply Forall_cons in Hin as [Hk _].
      match goal with H : _ /\ _ |- _ => destruct H as [<- Hnear] end.
      pose proof (argmin_nearest time every k Hne) as Hn.
      repeat split; [exact Hk | exact Hn |].
      apply Qltb_lt in Hnear.
      rewrite difftime_nth in Hnear by (eapply nearest_frame_lt, Hn).
      exact Hnear.
    + apply IH; [|assumption]. apply Forall_cons in Hin as [_ Hin]. exact Hin.
  - intros i j Hi Hn Hd.
    pose proof (argmin_nearest time every i Hne) as Hn'.
    pose proof (nearest_frame_unique _ _ _ _ Hn Hn') as ->.
    destruct (nearest_loop_complete time every slots None i Hi) as [H|H];
      [|exact H|discriminate].
    apply Qltb_lt.
    rewrite difftime_nth by (eapply nearest_frame_lt, Hn'). exact Hd.
Qed.

Lemma get_nearest_indices_selects_witness : NoDup [0; 2]%nat.
Proof.
  destruct (get_nearest_indices_selects [0; 1; 2; 3] 2 [0; 2]%nat eq_refl)
    as (lo & hi & ks & _ & _ & H & _).
  exact H.
Defined.

(** The resampler on the timeline 0, 1, ..., 19 with interval 2. *)
Example get_nearest_indices_unit_steps :
  get_nearest_indices
    (map inject_Z [0;1;2;3;4;5;6;7;8;9;10;11;12;13;14;15;16;17;18;19]%Z) 2
  = Ok [0;2;4;6;8;10;12;14;16;18]%nat.
Proof. vm_compute. reflexivity. Qed.

(** A frame is not returned again for the next slot when it is nearest to
    two successive targets. *)
Example get_nearest_indices_skips_repeat :
  get_nearest_indices [0; 3] (1 # 2) = Ok [0; 1]%nat.
Proof. vm_compute. reflexivity. Qed.

(** ** The overlap search *)

Lemma slice_bound_range n i : (0 <= n)%Z -> (0 <= slice_bound n i <= n)%Z.
Proof. intros Hn. unfold slice_bound. destruct (i <? 0)%Z eqn:E; lia. Qed.

Lemma slice_list_to_end {A} (first1 : Z) (l : list A) :
  slice_list first1 (Z.of_nat (length l)) l =
  drop (Z.to_nat (slice_bound (Z.of_nat (length l)) first1)) l.
Proof.
  unfold slice_list.
  pose proof (slice_bound_range (Z.of_nat (length l)) first1 ltac:(lia)) as Hr.
  set (a := slice_bound (Z.of_nat (length l)) first1) in *.
  replace (slice_bound (Z.of_nat (length l)) (Z.of_nat (length l)))
    with (Z.of_nat (length l)).
  - apply take_ge. rewrite length_drop. lia.
  - unfold slice_bound.
    replace (Z.of_nat (length l) <? 0)%Z with false
      by (symmetry; apply Z.ltb_ge; lia).
    lia.
Qed.

(** C2.  When the name of the later file starts with the marker [+], the
    pair gets [first2 = 0] and [last1] equal to the number of frames of the
    earlier file's test variable, whatever the later dataset holds and
    whatever the tolerance is: no frame is compared.  The range
    [first1 : last1] the earlier file then keeps runs to its last frame. *)
Theorem trusted_skips_search (time_var test_var : string)
    (test_index : option Z) (test_tol : nd) (fn1 fn2 : string)
    (data1 data2 : Dataset.t) (last1_before : option Z) (v : Var.t) (n : nat) :
  starts_with_plus fn2 = Ok true ->
  dict_get (Dataset.variables data1) test_var = Some v ->
  shape0 v = Ok n ->
  find_overlap time_var test_var test_index test_tol fn1 fn2 data1 data2
    last1_before = Ok (0%Z, Z.of_nat n) /\
  forall first1 : Z,
    slice_list first1 (Z.of_nat n) (seq 0 n) =
    drop (Z.to_nat (slice_bound (Z.of_nat n) first1)) (seq 0 n).
Proof.
  intros Hplus Hv Hn. split.
  - unfold find_overlap. rewrite Hplus. simpl.
    unfold dict_item. rewrite Hv. simpl. rewrite Hn. simpl.
    replace (Z.of_nat n <? 0)%Z with false
      by (symmetry; apply Z.ltb_ge; lia).
    reflexivity.
  - intros first1.
    pose proof (slice_list_to_end first1 (seq 0 n)) as H.
    rewrite length_seq in H. exact H.
Qed.

Lemma trusted_skips_search_witness :
  find_overlap "time" "coordinates" None (Sc (1 # 1000000)) "a.nc" "+b.nc"
    (Dataset.mk
       [("coordinates",
         Var.mk ["frame"; "atom"] DFloat [] [[[0]; [0]]; [[1]; [1]]])]
       [] [])
    (Dataset.mk [] [] []) None = Ok (0%Z, 2%Z).
Proof.
  apply (trusted_skips_search "time" "coordinates" None (Sc (1 # 1000000))
           "a.nc" "+b.nc" _ (Dataset.mk [] [] []) None
           (Var.mk ["frame"; "atom"] DFloat [] [[[0]; [0]]; [[1]; [1]]]) 2);
    reflexivity.
Defined.

Lemma getitem_minus_1 {A} (l : list A) x :
  l !! (length l - 1)%nat = Some x -> getitem l (-1) = Ok x.
Proof.
  intros H. pose proof (lookup_lt_Some _ _ _ H) as Hlt.
  unfold getitem, py_index.
  replace (-1 <? 0)%Z with true by reflexivity.
  replace ((0 <=? -1 + Z.of_nat (length l)) &&
           (-1 + Z.of_nat (length l) <? Z.of_nat (length l)))%Z with true
    by (symmetry; apply andb_true_iff; split;
        [apply Z.leb_le | apply Z.ltb_lt]; lia).
  replace (Z.to_nat (-1 + Z.of_nat (length l))) with (length l - 1)%nat by lia.
  rewrite H. reflexivity.
Qed.

Lemma residual_as_nd a b q :
  residual a b = Ok q -> (d ← nd_absdiff a b; Sc <$> nd_max d) = Ok (Sc q).
Proof.
  unfold residual. destruct (nd_absdiff a b) as [d|]; simpl; [|discriminate].
  intros ->. reflexivity.
Qed.

Lemma Qmax_cases x y : (Qmax x y == x /\ y <= x) \/ (Qmax x y == y /\ x <= y).
Proof.
  destruct (Qlt_le_dec x y) as [H|H].
  - right. split; [apply Q.max_r|]; lra.
  - left. split; [apply Q.max_l|]; lra.
Qed.

Lemma Qmin_cases x y : (Qmin x y == x /\ x <= y) \/ (Qmin x y == y /\ y <= x).
Proof.
  destruct (Qlt_le_dec x y) as [H|H].
  - left. split; [apply Q.min_l|]; lra.
  - right. split; [apply Q.min_r|]; lra.
Qed.

Section scalar_search.
Context (tol : Q) (test1 test2 : list nd) (rho : nat -> nat -> Q).
Hypothesis residual_rho : forall l f a b,
    test1 !! l = Some a -> test2 !! f = Some b -> residual a b = Ok (rho l f).
Hypothesis test1_nonempty : (0 < length test1)%nat.

Lemma residual_scan_at (l f : nat) :
    (l < length test1)%nat -> (f < length test2)%nat ->
    residual_scan test1 test2 (Z.of_nat l) (Z.of_nat f) = Ok (Sc (rho l f)).
  Proof.
    intros Hl Hf. unfold residual_scan.
    destruct (lookup_lt_is_Some_2 _ _ Hl) as [a Ha].
    destruct (lookup_lt_is_Some_2 _ _ Hf) as [b Hb].
    rewrite (getitem_in_range _ _ _ Ha). simpl.
    rewrite (getitem_in_range _ _ _ Hb). simpl.
    apply residual_as_nd. eauto.
  Qed.

Lemma residual_scan_wrap (f : nat) :
    (f < length test2)%nat ->
    residual_scan test1 test2 (-1) (Z.of_nat f)
    = Ok (Sc (rho (length test1 - 1) f)).
  Proof.
    intros Hf. unfold residual_scan.
    assert (Hl : (length test1 - 1 < length test1)%nat) by lia.
    destruct (lookup_lt_is_Some_2 _ _ Hl) as [a Ha].
    destruct (lookup_lt_is_Some_2 _ _ Hf) as [b Hb].
    rewrite (getitem_minus_1 _ _ Ha). simpl.
    rewrite (getitem_in_range _ _ _ Hb). simpl.
    apply residual_as_nd. eauto.
  Qed.

Lemma residual_last_at (f : nat) :
    (f < length test2)%nat ->
    residual_last (Sc tol) test1 test2 (Z.of_nat f)
    = Ok (Sc (rho (length test1 - 1) f)).
  Proof.
    intros Hf. unfold residual_last.
    assert (Hl : (length test1 - 1 < length test1)%nat) by lia.
    destruct (lookup_lt_is_Some_2 _ _ Hl) as [a Ha].
    destruct (lookup_lt_is_Some_2 _ _ Hf) as [b Hb].
    replace (Z.of_nat (length test1) - 1)%Z
      with (Z.of_nat (length test1 - 1)) by lia.
    rewrite (getitem_in_range _ _ _ Ha). simpl.
    rewrite (getitem_in_range _ _ _ Hb). simpl.
    apply residual_as_nd. eauto.
  Qed.

  (** The backward scan for candidate [f], entered at frame [k - 1] with
      its residual in [d]. *)
Lemma backward_scan_scalar (f : nat) :
    (f < length test2)%nat ->
    forall (k : nat) (d mx mn : Q),
    (k <= length test1)%nat ->
    ((1 <= k)%nat -> d = rho (k - 1) f) ->
    exists (l : Z) (d' mx' mn' : Q),
      backward_scan (Sc tol) test1 test2 k (Z.of_nat f) (Sc d) (Sc mx) (Sc mn)
        = Ok (l, Sc d', Sc mx', Sc mn') /\
      (-1 <= l < Z.of_nat k)%Z /\
      (forall j : nat, (l < Z.of_nat j)%Z -> (j < k)%nat -> tol < rho j f) /\
      ((0 <= l)%Z -> d' = rho (Z.to_nat l) f /\ d' <= tol) /\
      (l = (-1)%Z -> (1 <= k)%nat -> d' = rho (length test1 - 1) f) /\
      mx <= mx' /\
      (forall j : nat, (l < Z.of_nat j)%Z -> (j < k)%nat -> rho j f <= mx') /\
      (mx' == mx \/
       exists j : nat, (l < Z.of_nat j)%Z /\ (j < k)%nat /\ mx' == rho j f) /\
      mn' <= mn /\
      (forall j : nat, (l < Z.of_nat j)%Z -> (j < k)%nat -> mn' <= rho j f) /\
      (mn' == mn \/
       exists j : nat, (l < Z.of_nat j)%Z /\ (j < k)%nat /\ mn' == rho j f).
  Proof.
    intros Hf. induction k as [|k IH]; intros d mx mn Hk Hd.
    - exists (-1)%Z, d, mx, mn. simpl.
      repeat split; try lia; try lra; try (intros; lia); left; reflexivity.
    - specialize (Hd ltac:(lia)).
      replace (S k - 1)%nat with k in Hd by lia. subst d.
      cbn [backward_scan]. unfold nd_any_gt. cbn [nd_map2 mbind res_bind].
      destruct (Qltb tol (rho k f)) eqn:E.
      + apply Qltb_lt in E.
        cbn [nd_maximum nd_minimum nd_map2 fmap res_fmap to_nd mbind res_bind].
        assert (Hscan : exists d1,
                   residual_scan test1 test2 (Z.of_nat k - 1) (Z.of_nat f)
                   = Ok (Sc d1) /\
                   ((1 <= k)%nat -> d1 = rho (k - 1) f) /\
                   (k = 0%nat -> d1 = rho (length test1 - 1) f)).
        { destruct k as [|k'].
          - exists (rho (length test1 - 1) f). split; [|split]; try lia; auto.
            apply residual_scan_wrap, Hf.
          - exists (rho k' f). split; [|split]; try lia.
            + replace (Z.of_nat (S k') - 1)%Z with (Z.of_nat k') by lia.
              apply residual_scan_at; [lia | exact Hf].
            + intros _. f_equal. lia. }
        destruct Hscan as (d1 & -> & Hd1 & Hd1').
        cbn [mbind res_bind].
        destruct (IH d1 (Qmax (rho k f) mx) (Qmin (rho k f) mn)
                    ltac:(lia) Hd1)
          as (l & d' & mx' & mn' & Hrun & Hl & Hout & Hin & Hwrap & Hmx
              & Hmxall & Hmxone & Hmn & Hmnall & Hmnone).
        destruct (Qmax_cases (rho k f) mx) as [[Hm1 Hm2]|[Hm1 Hm2]];
        destruct (Qmin_cases (rho k f) mn) as [[Hn1 Hn2]|[Hn1 Hn2]].
        all: exists l, d', mx', mn'; split; [exact Hrun|].
        all: split; [lia|].
        all: split;
          [intros j Hj1 Hj2; destruct (decide (j = k)) as [->|Hne];
           [exact E | apply Hout; [exact Hj1 | lia]] |].
        all: split; [exact Hin|].
        all: split;
          [intros Hl1 _; destruct k as [|k'];
           [simpl in Hrun; injection Hrun as _ <- _ _; auto
           | apply Hwrap; [exact Hl1 | lia]] |].
        all: split; [lra|].
        all: split;
          [intros j Hj1 Hj2; destruct (decide (j = k)) as [->|Hne];
           [lra | apply Hmxall; [exact Hj1 | lia]] |].
        all: split;
          [destruct Hmxone as [Hone|(j & Hj1 & Hj2 & Hone)];
           [ first [ left; lra
                   | right; exists k; split; [lia|]; split; [lia|]; lra ]
           | right; exists j; split; [lia|]; split; [lia|]; exact Hone ] |].
        all: split; [lra|].
        all: split;
          [intros j Hj1 Hj2; destruct (decide (j = k)) as [->|Hne];
           [lra | apply Hmnall; [exact Hj1 | lia]] |].
        all: destruct Hmnone as [Hone|(j & Hj1 & Hj2 & Hone)];
           [ first [ left; lra
                   | right; exists k; split; [lia|]; split; [lia|]; lra ]
           | right; exists j; split; [lia|]; split; [lia|]; exact Hone ].
      + apply Qltb_ge in E.
        exists (Z.of_nat k), (rho k f), mx, mn.
        split; [reflexivity|].
        split; [lia|].
        split; [intros; lia|].
        split; [intros _; rewrite Nat2Z.id; auto|].
        split; [intros; lia|].
        split; [lra|].
        split; [intros; lia|].
        split; [left; reflexivity|].
        split; [lra|].
        split; [intros; lia|].
        left; reflexivity.
  Qed.
End scalar_search.

Section scalar_search_loop.
Context (tol : Q) (test1 test2 : list nd) (rho : nat -> nat -> Q).
Hypothesis residual_rho : forall l f a b,
    test1 !! l = Some a -> test2 !! f = Some b -> residual a b = Ok (rho l f).
Hypothesis test1_nonempty : (0 < length test1)%nat.

Let n1 := length test1.
Let n2 := length test2.

  (** One round of the outer loop keeps the invariant. *)
Lemma search_round (c : nat) (s : search_state) (d mx mn : Q)
      (l : Z) (d' mx' mn' : Q) :
    search_inv tol n1 n2 rho c s ->
    (c < n2)%nat -> (c < 6)%nat ->
    st_maxdiff s = Sc d -> st_max_maxdiff s = Sc mx ->
    st_min_maxdiff s = Sc mn ->
    tol < d ->
    (-1 <= l < Z.of_nat n1)%Z ->
    (forall j : nat, (l < Z.of_nat j)%Z -> (j < n1)%nat -> tol < rho j c) ->
    ((0 <= l)%Z -> d' = rho (Z.to_nat l) c /\ d' <= tol) ->
    (l = (-1)%Z -> d' = rho (n1 - 1) c) ->
    mx <= mx' ->
    (forall j : nat, (l < Z.of_nat j)%Z -> (j < n1)%nat -> rho j c <= mx') ->
    (mx' == mx \/
     exists j : nat, (l < Z.of_nat j)%Z /\ (j < n1)%nat /\ mx' == rho j c) ->
    mn' <= mn ->
    (forall j : nat, (l < Z.of_nat j)%Z -> (j < n1)%nat -> mn' <= rho j c) ->
    (mn' == mn \/
     exists j : nat, (l < Z.of_nat j)%Z /\ (j < n1)%nat /\ mn' == rho j c) ->
    search_inv tol n1 n2 rho (S c)
      (mk_search (Z.of_nat c) (Some l) (Sc d')
         (Sc (Qmax d' mx')) (Sc (Qmin d' mn'))).
  Proof.
    intros (Hf2 & Hc & d0 & mx0 & mn0 & Hd0 & Hmx0 & Hmn0 & Hc0 & Hc1 & Hb)
      Hcn Hc6 Hd Hmx Hmn E Hl Hout Hin Hwrap Hmxle Hmxall Hmxone
      Hmnle Hmnall Hmnone.
    rewrite Hd in Hd0. injection Hd0 as <-.
    rewrite Hmx in Hmx0. injection Hmx0 as <-.
    rewrite Hmn in Hmn0. injection Hmn0 as <-.
    destruct Hb as (Hb1 & Hb2 & Hb3 & Hb4 & Hb5 & Hb6).
    (* what the earlier candidates left behind *)
    assert (Hold : forall l' f, (f < c)%nat -> (l' < n1)%nat ->
              tol < rho l' f /\ rho l' f <= mx /\ mn <= rho l' f).
    { intros l' f Hf Hl'. destruct c as [|c']; [lia|].
      destruct (Hc1 ltac:(lia)) as (l0 & Hl0 & Hr0 & Hall0 & Hin0 & _).
      assert (l0 = (-1)%Z) as ->.
      { destruct (Z_lt_le_dec l0 0) as [?|Hge]; [lia|].
        destruct (Hin0 Hge) as [_ ?]. lra. }
      rewrite Hl0 in Hb2, Hb5. simpl in Hb2, Hb5.
      assert (Hex : examined n1 (S c') (-1) l' f)
        by (unfold examined; repeat split; lia).
      repeat split; [|apply Hb2, Hex|apply Hb5, Hex].
      apply Hall0. unfold examined. repeat split; lia. }
    assert (Holdmx : mx == 0 \/
              exists l' f, (f < c)%nat /\ (l' < n1)%nat /\ mx == rho l' f).
    { destruct Hb3 as [?|(l' & f & (? & ? & _) & ?)]; [left; auto|].
      right. exists l', f. auto. }
    assert (Holdmn : mn == tol + huge \/
              exists l' f, (f < c)%nat /\ (l' < n1)%nat /\ mn == rho l' f).
    { destruct Hb6 as [?|(l' & f & (? & ? & _) & ?)]; [left; auto|].
      right. exists l', f. auto. }
    (* the frame whose residual is left in maxdiff *)
    assert (Hld : exists ld : nat,
              (ld < n1)%nat /\ (l <= Z.of_nat ld)%Z /\ d' = rho ld c /\
              ((0 <= l)%Z -> Z.of_nat ld = l)).
    { destruct (Z_lt_le_dec l 0) as [Hneg|Hge].
      - exists (n1 - 1)%nat. repeat split; try lia. apply Hwrap. lia.
      - exists (Z.to_nat l). destruct (Hin Hge) as [? _].
        repeat split; try lia. assumption. }
    destruct Hld as (ld & Hld1 & Hld2 & Hld3 & Hld4).
    assert (Hd' : d' == rho ld c) by (rewrite Hld3; reflexivity).
    unfold search_inv. cbn [st_first2 st_last1 st_maxdiff st_max_maxdiff
                            st_min_maxdiff default].
    split; [lia|].
    split; [unfold candidates in *; lia|].
    exists d', (Qmax d' mx'), (Qmin d' mn').
    split; [reflexivity|]. split; [reflexivity|]. split; [reflexivity|].
    split; [intros; lia|].
    split.
    { intros _. exists l. split; [reflexivity|]. split; [exact Hl|].
      replace (S c - 1)%nat with c by lia.
      split; [|split].
      - intros l' f (Hf & Hl' & Hlast).
        destruct (decide (f = c)) as [->|Hne].
        + apply Hout; [|exact Hl']. specialize (Hlast ltac:(lia)). lia.
        + apply Hold; [lia | exact Hl'].
      - exact Hin.
      - intros ->. rewrite (Hwrap eq_refl). apply Hout; lia. }
    assert (Hnew : forall l' f, examined n1 (S c) l l' f ->
              (f < c)%nat \/ (f = c /\ (l < Z.of_nat l')%Z) \/
              (f = c /\ l' = ld /\ (0 <= l)%Z)).
    { intros l' f (Hf & Hl' & Hlast).
      destruct (decide (f = c)) as [->|Hne]; [|left; lia].
      right. specialize (Hlast ltac:(lia)).
      destruct (decide (l = Z.of_nat l')) as [->|?]; [right|left]; lia. }
    assert (Hexd : examined n1 (S c) l ld c)
      by (unfold examined; repeat split; lia).
    assert (Hexj : forall j : nat, (l < Z.of_nat j)%Z -> (j < n1)%nat ->
              examined n1 (S c) l j c)
      by (intros; unfold examined; repeat split; lia).
    assert (Hexold : forall l' f, (f < c)%nat -> (l' < n1)%nat ->
              examined n1 (S c) l l' f)
      by (intros; unfold examined; repeat split; lia).
    destruct (Qmax_cases d' mx') as [[Hm1 Hm2]|[Hm1 Hm2]];
    destruct (Qmin_cases d' mn') as [[Hn1 Hn2]|[Hn1 Hn2]].
    all: unfold residual_bounds.
    all: split; [lra|].
    all: split;
      [intros l' f Hex; pose proof Hex as (_ & Hl' & _);
       destruct (Hnew _ _ Hex) as [Hf|[[-> Hj]|(-> & -> & _)]];
       [ destruct (Hold l' f Hf Hl') as (_ & ? & _); lra
       | specialize (Hmxall l' Hj Hl'); lra
       | lra ] |].
    all: split;
      [ first
          [ right; exists ld, c; split; [exact Hexd | lra]
          | destruct Hmxone as [Hone|(j & Hj1 & Hj2 & Hone)];
            [ destruct Holdmx as [?|(l' & f & ? & ? & ?)];
              [ left; lra
              | right; exists l', f; split; [apply Hexold; assumption | lra] ]
            | right; exists j, c; split; [apply Hexj; assumption | lra] ] ] |].
    all: split; [lra|].
    all: split;
      [intros l' f Hex; pose proof Hex as (_ & Hl' & _);
       destruct (Hnew _ _ Hex) as [Hf|[[-> Hj]|(-> & -> & _)]];
       [ destruct (Hold l' f Hf Hl') as (_ & _ & ?); lra
       | specialize (Hmnall l' Hj Hl'); lra
       | lra ] |].
    all: first
          [ right; exists ld, c; split; [exact Hexd | lra]
          | destruct Hmnone as [Hone|(j & Hj1 & Hj2 & Hone)];
            [ destruct Holdmn as [?|(l' & f & ? & ? & ?)];
              [ left; lra
              | right; exists l', f; split; [apply Hexold; assumption | lra] ]
            | right; exists j, c; split; [apply Hexj; assumption | lra] ] ].
  Qed.
End scalar_search_loop.

Section scalar_search_run.
Context (tol : Q) (test1 test2 : list nd) (rho : nat -> nat -> Q).
Hypothesis residual_rho : forall l f a b,
    test1 !! l = Some a -> test2 !! f = Some b -> residual a b = Ok (rho l f).
Hypothesis test1_nonempty : (0 < length test1)%nat.

Let n1 := length test1.
Let n2 := length test2.

  (** The outer loop stops with the invariant, either out of candidates or
      on a residual within the tolerance. *)
Lemma search_scalar (fuel : nat) :
    forall (c : nat) (s : search_state),
    search_inv tol n1 n2 rho c s ->
    (6 <= fuel + c)%nat ->
    exists (s' : search_state) (c' : nat),
      search (Sc tol) test1 test2 fuel s = Ok s' /\
      search_inv tol n1 n2 rho c' s' /\
      (c <= c')%nat /\
      (c' = candidates n2 \/
       ((1 <= c')%nat /\ exists d, st_maxdiff s' = Sc d /\ d <= tol)).
  Proof.
    induction fuel as [|fuel IH]; intros c s Hinv Hfuel.
    - exists s, c. split; [reflexivity|]. split; [exact Hinv|].
      split; [lia|]. left.
      destruct Hinv as (_ & Hc & _). unfold candidates in *. lia.
    - pose proof Hinv as
        (Hf2 & Hc & d & mx & mn & Hd & Hmx & Hmn & Hc0 & Hc1 & Hb).
      cbn [search]. rewrite Hf2. fold n2.
      destruct (Z.of_nat c - 1 <? Z.min (Z.of_nat n2 - 1) 5)%Z eqn:Eguard.
      2: { apply Z.ltb_ge in Eguard.
           exists s, c. split; [reflexivity|]. split; [exact Hinv|].
           split; [lia|]. left. unfold candidates in *. lia. }
      apply Z.ltb_lt in Eguard.
      rewrite Hd. unfold nd_any_gt at 1. cbn [nd_map2 mbind res_bind].
      destruct (Qltb tol d) eqn:E.
      2: { apply Qltb_ge in E.
           exists s, c. split; [reflexivity|]. split; [exact Hinv|].
           split; [lia|]. right. split; [|eauto].
           destruct c; [specialize (Hc0 eq_refl); lra | lia]. }
      apply Qltb_lt in E.
      replace (Z.of_nat c - 1 + 1)%Z with (Z.of_nat c) by lia.
      rewrite (residual_last_at tol test1 test2 rho residual_rho
                 test1_nonempty c) by (fold n2; lia).
      cbn [mbind res_bind]. rewrite Hmx, Hmn.
      destruct (backward_scan_scalar tol test1 test2 rho residual_rho
                  test1_nonempty c ltac:(fold n2; lia) (length test1)
                  (rho (length test1 - 1) c) mx mn ltac:(lia)
                  ltac:(intros; reflexivity))
        as (l & d' & mx' & mn' & Hrun & Hl & Hout & Hin & Hwrap & Hmxle
            & Hmxall & Hmxone & Hmnle & Hmnall & Hmnone).
      rewrite Hrun.
      cbn [mbind res_bind nd_maximum nd_minimum nd_map2 fmap res_fmap to_nd].
      assert (Hnext : search_inv tol n1 n2 rho (S c)
                (mk_search (Z.of_nat c) (Some l) (Sc d')
                   (Sc (Qmax d' mx')) (Sc (Qmin d' mn')))).
      { eapply search_round with (s := s) (d := d) (mx := mx) (mn := mn);
          eauto; try (fold n2; lia). }
      destruct (IH (S c) _ Hnext ltac:(lia)) as (s' & c' & Hs' & Hinv' & Hcc & Hstop).
      exists s', c'. split; [exact Hs'|]. split; [exact Hinv'|].
      split; [lia | exact Hstop].
  Qed.

Lemma search_inv_init (last1_before : option Z) :
    search_inv tol n1 n2 rho 0
      (mk_search (-1) last1_before (nd_add (Sc tol) 1)
         (nd_zeros_like (Sc tol)) (nd_add (Sc tol) (1000000000000 # 1))).
  Proof.
    unfold search_inv. cbn.
    split; [reflexivity|]. split; [lia|].
    exists (tol + 1), 0, (tol + huge).
    split; [reflexivity|]. split; [reflexivity|]. split; [reflexivity|].
    split; [intros _; lra|]. split; [intros; lia|].
    unfold residual_bounds, examined.
    split; [lra|]. split; [intros l f (? & _); lia|].
    split; [left; reflexivity|]. split; [lra|].
    split; [intros l f (? & _); lia|]. left. reflexivity.
  Qed.

  (** What the search returns for a scalar tolerance: the first pair within
      the tolerance, candidates of the later file in increasing order and
      for each the frames of the earlier file from the last one backward;
      [last1 = -1] when no pair is. *)
Lemma search_scalar_result (last1_before : option Z) :
    (0 < n2)%nat ->
    exists s' mx mn,
      search (Sc tol) test1 test2 6
        (mk_search (-1) last1_before (nd_add (Sc tol) 1)
           (nd_zeros_like (Sc tol)) (nd_add (Sc tol) (1000000000000 # 1)))
      = Ok s' /\
      st_max_maxdiff s' = Sc mx /\ st_min_maxdiff s' = Sc mn /\
      ((exists f l : nat,
          st_first2 s' = Z.of_nat f /\ st_last1 s' = Some (Z.of_nat l) /\
          (f < candidates n2)%nat /\ (l < n1)%nat /\ rho l f <= tol /\
          (forall l' f', (l' < n1)%nat ->
             (f' < f)%nat \/ (f' = f /\ (l < l')%nat) -> tol < rho l' f') /\
          residual_bounds tol rho (examined n1 (S f) (Z.of_nat l)) mx mn)
       \/
       (st_first2 s' = (Z.of_nat (candidates n2) - 1)%Z /\
        st_last1 s' = Some (-1)%Z /\
        (forall l f, (l < n1)%nat -> (f < candidates n2)%nat ->
                     tol < rho l f) /\
        residual_bounds tol rho (examined n1 (candidates n2) (-1)) mx mn)).
  Proof.
    intros Hn2.
    destruct (search_scalar 6 0 _ (search_inv_init last1_before) ltac:(lia))
      as (s' & c' & Hs' & Hinv & _ & Hstop).
    destruct Hinv as (Hf2 & Hc & d & mx & mn & Hd & Hmx & Hmn & Hc0 & Hc1 & Hb).
    exists s', mx, mn. split; [exact Hs'|]. split; [exact Hmx|].
    split; [exact Hmn|].
    assert (Hc' : (1 <= c')%nat).
    { destruct Hstop as [->|[? _]]; [unfold candidates; lia | assumption]. }
    destruct (Hc1 Hc') as (l & Hl & Hr & Hall & Hin & Hnone).
    rewrite Hl in Hb. cbn [default] in Hb.
    destruct (Z_lt_le_dec l 0) as [Hneg|Hge].
    - assert (l = (-1)%Z) as -> by lia.
      specialize (Hnone eq_refl).
      assert (c' = candidates n2) as ->.
      { destruct Hstop as [?|(_ & d0 & Hd0 & ?)]; [assumption|].
        rewrite Hd in Hd0. injection Hd0 as <-. lra. }
      right. split; [exact Hf2|]. split; [exact Hl|]. split; [|exact Hb].
      intros l' f Hl' Hf. apply Hall. unfold examined. repeat split; lia.
    - destruct (Hin Hge) as [-> Hle].
      left. exists (c' - 1)%nat, (Z.to_nat l).
      replace (S (c' - 1)) with c' by lia.
      rewrite Z2Nat.id by lia.
      split; [rewrite Hf2; lia|]. split; [exact Hl|].
      split; [lia|]. split; [lia|]. split; [exact Hle|].
      split; [|exact Hb].
      intros l' f' Hl' Hf'. apply Hall. unfold examined.
      repeat split; lia.
  Qed.
End scalar_search_run.

Lemma fold_left_Qmax_ge (l : list Q) (x : Q) : x <= fold_left Qmax l x.
Proof.
  revert x. induction l as [|y l IH]; intros x; simpl; [lra|].
  specialize (IH (Qmax x y)).
  destruct (Qmax_cases x y) as [[? ?]|[? ?]]; lra.
Qed.

Lemma amax_nonneg (l : list Q) (q : Q) :
  Forall (fun y => 0 <= y) l -> amax l = Some q -> 0 <= q.
Proof.
  destruct l as [|y l]; simpl; [discriminate|].
  intros Hall [= <-]. apply Forall_cons in Hall as [Hy _].
  pose proof (fold_left_Qmax_ge l y). lra.
Qed.

Lemma map_abs_nonneg (f : Q -> Q) (v : list Q) :
  Forall (fun y => 0 <= y) (map (fun x => Qabs (f x)) v).
Proof.
  induction v as [|x v IH]; simpl; constructor; auto. apply Qabs_nonneg.
Qed.

Lemma zip_abs_nonneg (u v : list Q) :
  Forall (fun y => 0 <= y) (zip_with (fun x y => Qabs (x - y)) u v).
Proof.
  revert v.
  induction u as [|x u IH]; intros [|y v]; cbn [zip_with]; constructor; auto.
  apply Qabs_nonneg.
Qed.

Lemma residual_nonneg (a b : nd) (q : Q) : residual a b = Ok q -> 0 <= q.
Proof.
  unfold residual, nd_absdiff.
  destruct a as [x|u], b as [y|v]; cbn [nd_map2].
  - cbn [fmap res_fmap to_nd mbind res_bind nd_max].
    intros H. assert (q = Qabs (x - y)) as -> by congruence.
    apply Qabs_nonneg.
  - cbn [fmap res_fmap to_nd mbind res_bind nd_max]. intros H.
    apply of_option_ok in H. eapply amax_nonneg; [|exact H].
    apply (map_abs_nonneg (fun y => x - y)).
  - cbn [fmap res_fmap to_nd mbind res_bind nd_max]. intros H.
    apply of_option_ok in H. eapply amax_nonneg; [|exact H].
    apply (map_abs_nonneg (fun x => x - y)).
  - destruct (length u =? length v)%nat;
      [|destruct (length u =? 1)%nat; [|destruct (length v =? 1)%nat]];
      cbn [fmap res_fmap to_nd mbind res_bind nd_max]; try discriminate;
      intros H; apply of_option_ok in H; (eapply amax_nonneg; [|exact H]).
    + apply zip_abs_nonneg.
    + apply (map_abs_nonneg (fun y => hd 0 u - y)).
    + apply (map_abs_nonneg (fun x => x - hd 0 v)).
Qed.

Section find_overlap_scalar.
Context (time_var test_var : string) (test_index : option Z) (tol : Q).
Context (fn1 fn2 : string) (data1 data2 : Dataset.t).
Context (v1 v2 : Var.t) (test1 test2 : list nd) (rho : nat -> nat -> Q).
Hypothesis not_trusted : starts_with_plus fn2 = Ok false.
Hypothesis var1 : dict_get (Dataset.variables data1) test_var = Some v1.
Hypothesis var2 : dict_get (Dataset.variables data2) test_var = Some v2.
Hypothesis array1 : test_array time_var test_var test_index v1 = Ok test1.
Hypothesis array2 : test_array time_var test_var test_index v2 = Ok test2.
Hypothesis nonempty1 : (0 < length test1)%nat.
Hypothesis nonempty2 : (0 < length test2)%nat.
Hypothesis residual_rho : forall l f a b,
    test1 !! l = Some a -> test2 !! f = Some b -> residual a b = Ok (rho l f).

Let n1 := length test1.
Let n2 := length test2.

  (** With a scalar tolerance, [find_overlap] returns the first pair of
      frames within the tolerance, or raises when there is none. *)
Lemma find_overlap_scalar (last1_before : option Z) :
    (exists f l : nat,
       find_overlap time_var test_var test_index (Sc tol) fn1 fn2 data1 data2
         last1_before = Ok (Z.of_nat f, Z.of_nat l) /\
       (f < candidates n2)%nat /\ (l < n1)%nat /\ rho l f <= tol /\
       (forall l' f', (l' < n1)%nat ->
          (f' < f)%nat \/ (f' = f /\ (l < l')%nat) -> tol < rho l' f'))
    \/
    (exists mn mx : Q,
       find_overlap time_var test_var test_index (Sc tol) fn1 fn2 data1 data2
         last1_before
       = Err (RuntimeError (NotConsecutive fn1 fn2 (Sc mn) (Sc mx))) /\
       (forall l f, (l < n1)%nat -> (f < candidates n2)%nat -> tol < rho l f) /\
       residual_bounds tol rho (examined n1 (candidates n2) (-1)) mx mn).
  Proof.
    unfold find_overlap. rewrite not_trusted.
    unfold dict_item. rewrite var1, var2.
    cbn [of_option mbind res_bind]. rewrite array1, array2.
    cbn [mbind res_bind].
    destruct (search_scalar_result tol test1 test2 rho residual_rho nonempty1
                last1_before nonempty2)
      as (s' & mx & mn & Hs' & Hmx & Hmn & Hcase).
    rewrite Hs'. cbn [mbind res_bind].
    destruct Hcase as [(f & l & Hf & Hl & Hfc & Hln & Hle & Hfirst & _)
                      |(Hf & Hl & Hall & Hb)].
    - left. exists f, l. rewrite Hl, Hf.
      replace (Z.of_nat l <? 0)%Z with false
        by (symmetry; apply Z.ltb_ge; lia).
      auto.
    - right. exists mn, mx. rewrite Hl, Hmx, Hmn.
      replace (-1 <? 0)%Z with true by reflexivity. auto.
  Qed.
End find_overlap_scalar.

(** C1, failing input.  With the tolerance vector [1, 10], frame 0 of the
    earlier file, [0, 0], agrees with frame 0 of the later file, [0, 5],
    element by element; the search, which reaches that frame in its backward
    scan, compares the largest difference 5 with both tolerances, finds no
    pair and raises. *)
Theorem vector_tolerance_scan_rejects_match :
  let test_tol := Vec [1; 10] in
  let data1 := cell_dataset [[0; 0]; [100; 100]] in
  let data2 := cell_dataset [[0; 5]] in
  within_tol test_tol (Vec [0; 0]) (Vec [0; 5]) = Ok true /\
  find_overlap "time" "cell_lengths" None test_tol "a.nc" "b.nc" data1 data2
    None
  = Err (RuntimeError
           (NotConsecutive "a.nc" "b.nc" (Vec [5; 5]) (Vec [100; 100]))).
Proof. split; vm_compute; reflexivity. Qed.

(** On the same frames the test against the last frame of the earlier file
    (line 132) is made element by element: with the two frames of the
    earlier file swapped the pair is accepted. *)
Example vector_tolerance_last_frame_accepts :
  find_overlap "time" "cell_lengths" None (Vec [1; 10]) "a.nc" "b.nc"
    (cell_dataset [[100; 100]; [0; 0]]) (cell_dataset [[0; 5]]) None
  = Ok (0%Z, 1%Z).
Proof. vm_compute. reflexivity. Qed.


(** ** The copy loop *)

Section steps.
Context (R : relation output) `{!PreOrder R}.

Lemma steps_ret {A} (a : A) : steps R (mret a).
  Proof. intros o. reflexivity. Qed.

Lemma steps_lift {A} (r : res A) : steps R (lift r).
  Proof. intros o. reflexivity. Qed.

Lemma steps_get : steps R get_output.
  Proof. intros o. reflexivity. Qed.

Lemma steps_bind {A B} (m : M A) (f : A -> M B) :
    steps R m -> (forall a, steps R (f a)) -> steps R (m ≫= f).
  Proof.
    intros Hm Hf o. unfold mbind, M_bind.
    specialize (Hm o). destruct (m o) as [o' [a|e]]; simpl in *.
    - transitivity o'; [exact Hm | apply Hf].
    - exact Hm.
  Qed.

Lemma steps_for_each {A} (l : list A) (body : A -> M unit) :
    (forall x, x ∈ l -> steps R (body x)) -> steps R (for_each l body).
  Proof.
    induction l as [|x l IH]; intros Hbody; simpl.
    - apply steps_ret.
    - apply steps_bind.
      + apply Hbody. left.
      + intros _. apply IH. intros y Hy. apply Hbody. right. exact Hy.
  Qed.

  (** The rounds of the copy loop, given what the operations on the output
      dataset do. *)
Context (arguments : Args.t).
Hypothesis steps_setncattr : forall a v, steps R (setncattr a v).
Hypothesis steps_createDimension : forall d n, steps R (createDimension d n).
Hypothesis steps_var_setncattr : forall x a v, steps R (var_setncattr x a v).
Hypothesis steps_createVariable : forall x ty dims,
    x ∉ exclude_list arguments -> steps R (createVariable x ty dims).

Lemma steps_ensure_dimension idata dim_str :
    steps R (ensure_dimension idata dim_str).
  Proof.
    unfold ensure_dimension. apply steps_bind; [apply steps_get|].
    intros o. destruct (out_dimensions o !! dim_str); [apply steps_ret|].
    apply steps_bind; [apply steps_lift|].
    intros dim. destruct (Dim.isunlimited dim); apply steps_createDimension.
  Qed.

Lemma steps_create_variable idata item :
    steps R (create_variable arguments idata item).
  Proof.
    destruct item as [var_str var]. unfold create_variable.
    destruct (decide (var_str ∈ exclude_list arguments)) as [|Hnot];
      [apply steps_ret|].
    apply steps_bind; [apply steps_get|].
    intros o. destruct (out_variables o !! var_str); [apply steps_ret|].
    destruct (_ && _); [apply steps_ret|].
    apply steps_bind.
    { apply steps_for_each. intros. apply steps_ensure_dimension. }
    intros _. apply steps_bind; [apply steps_createVariable, Hnot|].
    intros _. apply steps_for_each. intros. apply steps_var_setncattr.
  Qed.

Section at_cursor.
Context (cursor : Z).
Hypothesis steps_assign : forall w, starts_at cursor w -> steps R (assign w).

Lemma steps_copy_frame index var_str var item :
      steps R (copy_frame arguments cursor index var_str var item).
    Proof.
      destruct item as [oframe iframe]. unfold copy_frame.
      apply steps_bind; [apply steps_lift|]. intros var_data.
      apply steps_bind.
      - destruct index as [index|]; [|apply steps_ret].
        destruct (Var.dimensions var) as [|? [|d1 ?]]; try apply steps_ret.
        destruct (String.eqb d1 ATOM_DIM); [|apply steps_ret].
        apply steps_bind; [apply steps_lift|]. intros ids.
        destruct (Var.dtype index); apply steps_lift.
      - intros sorted. apply steps_assign. simpl. eauto.
    Qed.

Lemma steps_copy_variable last_data idata data_slice time index item :
      steps R (copy_variable arguments cursor last_data idata data_slice time
                 index item).
    Proof.
      destruct item as [var_str var]. unfold copy_variable.
      destruct (decide _); [apply steps_ret|].
      destruct (dict_has _ _); [apply steps_ret|].
      apply steps_bind; [apply steps_lift|]. intros d0.
      destruct (String.eqb d0 FRAME_DIM).
      - destruct (String.eqb var_str "time").
        + apply steps_assign. reflexivity.
        + apply steps_bind; [apply steps_lift|]. intros nframes.
          apply steps_bind; [apply steps_lift|]. intros frames.
          apply steps_for_each. intros. apply steps_copy_frame.
      - destruct (match last_data with Some _ => _ | None => _ end).
        + destruct (contents_differ _ _); [apply steps_lift | apply steps_ret].
        + apply steps_assign. exact I.
    Qed.

Lemma steps_copy_segment last_data r :
      steps R (copy_segment arguments cursor last_data r).
    Proof.
      destruct r as [[[trajfn idata] data_slice] time]. unfold copy_segment.
      apply steps_bind; [apply steps_lift|]. intros index.
      apply steps_bind.
      { apply steps_for_each. intros. apply steps_create_variable. }
      intros _. apply steps_bind.
      { apply steps_for_each. intros. apply steps_copy_variable. }
      intros _. apply steps_bind; [apply steps_lift|].
      intros _. apply steps_ret.
    Qed.
End at_cursor.
End steps.

(** ** The exclude list *)

Lemma index_in_exclude_list (arguments : Args.t) :
  Args.index arguments ∈ exclude_list arguments.
Proof.
  unfold exclude_list. destruct (Args.exclude arguments); set_solver.
Qed.

Section keeps_absent.
Context (arguments : Args.t).

Let index : string := Args.index arguments.
Let R : relation output := fun o o' => absent index o -> absent index o'.

#[local] Instance keeps_absent_preorder : PreOrder R.
  Proof.
    split.
    - intros o H. exact H.
    - intros o1 o2 o3 H12 H23 H. apply H23, H12, H.
  Qed.

Lemma setncattr_keeps a v : steps R (setncattr a v).
  Proof. intros o H. exact H. Qed.

Lemma createDimension_keeps d n : steps R (createDimension d n).
  Proof. intros o H. exact H. Qed.

Lemma createVariable_keeps x ty dims :
    x ∉ exclude_list arguments -> steps R (createVariable x ty dims).
  Proof.
    intros Hx o [Hvar Hw]. split; [|exact Hw]. simpl.
    rewrite lookup_insert_ne; [exact Hvar|].
    intros ->. apply Hx, index_in_exclude_list.
  Qed.

Lemma var_setncattr_keeps x a v : steps R (var_setncattr x a v).
  Proof.
    intros o [Hvar Hw]. unfold var_setncattr, mbind, M_bind, get_output.
    destruct (out_variables o !! x) eqn:E; simpl; [|split; assumption].
    split; [|exact Hw]. simpl.
    rewrite lookup_insert_ne; [exact Hvar|]. intros ->.
    fold index in Hvar. congruence.
  Qed.

Lemma assign_keeps w : steps R (assign w).
  Proof.
    intros o [Hvar Hw]. unfold assign, mbind, M_bind, get_output.
    destruct (out_variables o !! write_var w) eqn:E; simpl;
      [|split; assumption].
    split; [exact Hvar|]. simpl.
    apply Forall_app. split; [exact Hw|].
    constructor; [|constructor]. intros Heq. rewrite Heq in E.
    fold index in Hvar. congruence.
  Qed.

Lemma copy_loop_keeps idata_f :
    forall cursor last_data,
    steps R (copy_loop arguments cursor last_data idata_f).
  Proof.
    induction idata_f as [|r rest IH]; intros cursor last_data; simpl.
    - apply steps_ret; apply _.
    - apply steps_bind; [apply _| |intros c; apply IH].
      apply steps_copy_segment with (arguments := arguments); try apply _;
        auto using setncattr_keeps, createDimension_keeps,
                   var_setncattr_keeps, createVariable_keeps, assign_keeps.
  Qed.

Lemma main_keeps opened : steps R (main arguments opened).
  Proof.
    unfold main.
    apply steps_bind; [apply _|apply steps_lift; apply _|]. intros data_f.
    apply steps_bind; [apply _|apply steps_lift; apply _|]. intros idata_f.
    apply steps_bind; [apply _| |].
    { destruct (Args.every arguments);
        [apply steps_lift | apply steps_ret]; apply _. }
    intros idata_f'. unfold copy_all.
    apply steps_bind; [apply _|apply steps_lift; apply _|]. intros first.
    apply steps_bind; [apply _| |intros _; apply copy_loop_keeps].
    apply steps_for_each; [apply _|]. intros. apply setncattr_keeps.
  Qed.
End keeps_absent.

(** C10.  The name of the index variable is in the exclude list whatever
    [--exclude] says, and in the output dataset a run leaves behind --
    whether it ends normally or on an exception -- no variable of that name
    was created and none was assigned to. *)
Theorem index_variable_excluded (arguments : Args.t)
    (opened : string -> res Dataset.t) :
  Args.index arguments ∈ exclude_list arguments /\
  absent (Args.index arguments) (main arguments opened empty_output).1.
Proof.
  split; [apply index_in_exclude_list|].
  apply (main_keeps arguments opened empty_output).
  split; [apply lookup_empty | constructor].
Qed.

(** ** The cursor *)


Lemma advance_nil cursor : advance cursor [] = cursor.
Proof. unfold advance. simpl. lia. Qed.

Lemma advance_cons cursor r rest :
  advance cursor (r :: rest)
  = advance (cursor + Z.of_nat (length (traj_time r))) rest.
Proof. unfold advance. simpl. lia. Qed.

Lemma advance_app cursor pre post :
  advance cursor (pre ++ post) = advance (advance cursor pre) post.
Proof.
  revert cursor. induction pre as [|r pre IH]; intros cursor; simpl.
  - rewrite advance_nil. reflexivity.
  - rewrite !advance_cons. apply IH.
Qed.

#[local] Instance appends_preorder (P : write -> Prop) : PreOrder (appends P).
Proof.
  split.
  - intros o. exists []. rewrite app_nil_r. split; [reflexivity|constructor].
  - intros o1 o2 o3 (n1 & H1 & HP1) (n2 & H2 & HP2).
    exists (n1 ++ n2). rewrite H2, H1, app_assoc.
    split; [reflexivity|]. apply Forall_app. auto.
Qed.

Lemma unwritten_appends (P : write -> Prop) (o o' : output) :
  out_written o' = out_written o -> appends P o o'.
Proof.
  intros H. exists []. rewrite app_nil_r. split; [exact H|constructor].
Qed.

Lemma assign_appends (P : write -> Prop) (w : write) :
  P w -> steps (appends P) (assign w).
Proof.
  intros HP o. unfold assign, mbind, M_bind, get_output.
  destruct (out_variables o !! write_var w); simpl.
  - exists [w]. split; [reflexivity|]. constructor; [exact HP|constructor].
  - reflexivity.
Qed.

Section cursor.
Context (arguments : Args.t).

  (** What a round writes, it writes from its own cursor on. *)
Lemma copy_segment_appends cursor last_data r :
    steps (appends (starts_at cursor))
      (copy_segment arguments cursor last_data r).
  Proof.
    apply steps_copy_segment with (arguments := arguments); try apply _.
    - intros d n o. apply unwritten_appends. reflexivity.
    - intros x a v o. apply unwritten_appends.
      unfold var_setncattr, mbind, M_bind, get_output.
      destruct (out_variables o !! x); reflexivity.
    - intros x ty dims _ o. apply unwritten_appends. reflexivity.
    - intros w Hw. apply assign_appends, Hw.
  Qed.



End cursor.

(** ** What a round assigns *)








#[local] Instance written_kept_preorder :
  PreOrder (fun o o' : output => out_written o' = out_written o).
Proof.
  split.
  - intros o. reflexivity.
  - intros o1 o2 o3 H12 H23. congruence.
Qed.

Section round.
Context (arguments : Args.t) (cursor : Z).





Section variable.
Context (last_data : option Dataset.t) (trajfn : string)
      (idata : Dataset.t) (data_slice : data_slice) (time : list Q).

Let r : traj := (trajfn, idata, data_slice, time).
Let index : option Var.t :=
      dict_get (Dataset.variables idata) (Args.index arguments).


End variable.


End round.


(** Two overlapping files: the first keeps frames 0 and 1, the second all
    three of its frames. *)
Example open_trajs_two_files :
  open_trajs "time" "coordinates" None (Sc (1 # 1000000))
    [("a.nc"%string, file_a); ("b.nc"%string, file_b 10)]
  = Ok [("a.nc"%string, file_a, Slice 0 2, [0; 1]);
        ("b.nc"%string, file_b 10, Slice 0 3,
         [0 + (1 - 0); 1 + (1 - 0); 2 + (1 - 0)])].
Proof. reflexivity. Qed.


(** The run on the two files ends normally and reports five frames. *)
Example main_two_files :
  (main default_arguments (two_files file_a (file_b 10)) empty_output).2
  = Ok 5%Z.
Proof. vm_compute. reflexivity. Qed.

(** What that run assigns, in order: the first round writes from frame 0
    on, the second from frame 2 on. *)
Example main_two_files_assigns :
  out_written
    (main default_arguments (two_files file_a (file_b 10)) empty_output).1
  = [WriteFrom "time" 0 [0; 1];
     WriteFrame "coordinates" 0 [[0]; [0]];
     WriteFrame "coordinates" 1 [[1]; [1]];
     WriteAll "box" [[[10]]];
     WriteFrom "time" 2 [1; 2; 3];
     WriteFrame "coordinates" 2 [[2]; [2]];
     WriteFrame "coordinates" 3 [[3]; [3]];
     WriteFrame "coordinates" 4 [[4]; [4]]].
Proof. vm_compute. reflexivity. Qed.

(** ** Per-file variables *)

(** The comparison of line 396 broadcasts: one value against three equal
    values shows no difference, against three values of which one is
    another it shows one, and two values against three cannot be lined
    up, which counts as a difference. *)
Example contents_differ_broadcasts :
  let box (l : list Q) :=
    Var.mk ["cell_spatial"%string] DFloat [] (map (fun x => [[x]]) l) in
  contents_differ (box [10]) (box [10; 10; 10]) = false /\
  contents_differ (box [10]) (box [10; 20; 10]) = true /\
  contents_differ (box [10; 10]) (box [10; 10; 10]) = true.
Proof. repeat split; vm_compute; reflexivity. Qed.

(** A per-file variable that the previous dataset also has, with other
    contents, ends the run on [NameError]: no [RuntimeError] is made. *)
Lemma copy_variable_mismatch (arguments : Args.t) (cursor : Z)
    (last_data idata : Dataset.t) (data_slice : data_slice) (time : list Q)
    (index : option Var.t) (var_str : string) (var last_var : Var.t)
    (d0 : string) (dims : list string) (o : output) :
  var_str ∉ exclude_list arguments ->
  dict_has (Dataset.dimensions idata) var_str = false ->
  Var.dimensions var = d0 :: dims ->
  String.eqb d0 FRAME_DIM = false ->
  dict_get (Dataset.variables last_data) var_str = Some last_var ->
  contents_differ last_var var = true ->
  copy_variable arguments cursor (Some last_data) idata data_slice time index
    (var_str, var) o
  = (o, Err (NameError "trajfns")).
Proof.
  intros Hex Hdim Hdims Hd0 Hlast Hdiff. unfold copy_variable.
  destruct (decide (var_str ∈ exclude_list arguments)); [contradiction|].
  rewrite Hdim, Hdims. unfold mbind, M_bind, lift.
  replace (getitem (d0 :: dims) 0) with (Ok d0 : res string) by reflexivity.
  cbv iota beta. rewrite Hd0, Hlast, Hdiff. reflexivity.
Qed.

(** C8, failing input.  The second file holds [box = 20] where the first
    holds [box = 10]: the run stops on [NameError] for the name [trajfns],
    not on a [RuntimeError] naming the variable and the two files. *)
Theorem per_file_mismatch_raises_name_error :
  (main default_arguments (two_files file_a (file_b 20)) empty_output).2
  = Err (NameError "trajfns") /\
  forall fn1 fn2 : string,
    (main default_arguments (two_files file_a (file_b 20)) empty_output).2
    <> Err (RuntimeError (PerFileDiffers "box" fn1 fn2)).
Proof.
  assert (H : (main default_arguments (two_files file_a (file_b 20))
                 empty_output).2 = Err (NameError "trajfns"))
    by (vm_compute; reflexivity).
  split; [exact H|]. intros fn1 fn2. rewrite H. discriminate.
Qed.

(** ** The sequencer: [open_trajs] *)

Section search_range.
Context (test_tol : nd) (test1 test2 : list nd).

Lemma backward_scan_range (k : nat) :
    forall first2 maxdiff mx mn l maxdiff' mx' mn',
    backward_scan test_tol test1 test2 k first2 maxdiff mx mn
      = Ok (l, maxdiff', mx', mn') ->
    (-1 <= l < Z.of_nat k)%Z.
  Proof.
    induction k as [|k IH]; intros first2 maxdiff mx mn l maxdiff' mx' mn' H.
    - simpl in H. injection H as <- _ _ _. lia.
    - cbn [backward_scan] in H.
      apply res_bind_ok in H as ([|] & _ & H).
      + apply res_bind_ok in H as (? & _ & H).
        apply res_bind_ok in H as (? & _ & H).
        apply res_bind_ok in H as (? & _ & H).
        apply IH in H. lia.
      + injection H as <- _ _ _. lia.
  Qed.

  (** The outer loop either does not run at all, or leaves in [last1] a
      frame number of the earlier file, or [-1], and in [first2] a frame
      number of the later file. *)
Lemma search_range (fuel : nat) :
    forall s s',
    search test_tol test1 test2 fuel s = Ok s' ->
    s' = s \/
    exists l, st_last1 s' = Some l /\
      (-1 <= l < Z.of_nat (length test1))%Z /\
      (st_first2 s < st_first2 s')%Z /\
      (st_first2 s' < Z.of_nat (length test2))%Z.
  Proof.
    induction fuel as [|fuel IH]; intros s s' H.
    - left. simpl in H. congruence.
    - cbn [search] in H.
      destruct (st_first2 s <? _)%Z eqn:Eguard; [|left; congruence].
      apply Z.ltb_lt in Eguard.
      apply res_bind_ok in H as ([|] & _ & H); [|left; congruence].
      apply res_bind_ok in H as (maxdiff & _ & H).
      apply res_bind_ok in H as ([[[l md] mx] mn] & Hscan & H).
      apply res_bind_ok in H as (mx' & _ & H).
      apply res_bind_ok in H as (mn' & _ & H).
      apply backward_scan_range in Hscan.
      right. apply IH in H as [->|(l' & Hl' & Hr & Hlt & Hn2)].
      + exists l. cbn. repeat split; lia.
      + exists l'. cbn in Hlt. repeat split; try assumption; lia.
  Qed.

Lemma initial_above : test_tol <> Vec [] ->
    nd_any_gt (nd_add test_tol 1) test_tol = Ok true.
  Proof.
    intros Hne. destruct test_tol as [x|v]; unfold nd_any_gt; cbn [nd_add nd_map2].
    - cbn [mbind res_bind]. f_equal. apply Qltb_lt. lra.
    - rewrite length_map, Nat.eqb_refl. cbn [mbind res_bind]. f_equal.
      destruct v as [|x v]; [congruence|]. cbn [map zip_with existsb].
      replace (Qltb x (x + 1)) with true by (symmetry; apply Qltb_lt; lra).
      reflexivity.
  Qed.

  (** From its initial state the loop runs at least once when the later
      file has a frame. *)
Lemma search_from_start (fuel : nat) (last1_before : option Z)
      (mx mn : nd) s' :
    test_tol <> Vec [] ->
    (0 < length test2)%nat ->
    search test_tol test1 test2 (S fuel)
      (mk_search (-1) last1_before (nd_add test_tol 1) mx mn) = Ok s' ->
    exists l, st_last1 s' = Some l /\
      (-1 <= l < Z.of_nat (length test1))%Z /\
      (0 <= st_first2 s' < Z.of_nat (length test2))%Z.
  Proof.
    intros Hne Hn2 H.
    pose proof H as H0.
    apply search_range in H as [->|(l & Hl & Hr & Hlt & Hn)].
    - exfalso. cbn [search st_first2 st_maxdiff] in H0.
      replace (-1 <? Z.min (Z.of_nat (length test2) - 1) 5)%Z with true in H0
        by (symmetry; apply Z.ltb_lt; lia).
      rewrite (initial_above Hne) in H0. cbn [mbind res_bind] in H0.
      apply res_bind_ok in H0 as (maxdiff & _ & H0).
      apply res_bind_ok in H0 as ([[[l md] mx'] mn'] & Hscan & H0).
      apply res_bind_ok in H0 as (mx'' & _ & H0).
      apply res_bind_ok in H0 as (mn'' & _ & H0).
      apply search_range in H0 as [H0|(l' & _ & _ & Hlt & _)].
      + apply (f_equal st_first2) in H0. cbn in H0. lia.
      + cbn in Hlt. lia.
    - exists l. cbn in Hlt. repeat split; try assumption; lia.
  Qed.
End search_range.

Lemma res_mapM_length {A B} (f : A -> res B) (l : list A) (l' : list B) :
  res_mapM f l = Ok l' -> length l' = length l.
Proof.
  revert l'. induction l as [|x l IH]; intros l' H; simpl in H.
  - injection H as <-. reflexivity.
  - apply res_bind_ok in H as (y & _ & H).
    apply res_bind_ok in H as (ys & Hys & H).
    injection H as <-. simpl. f_equal. apply IH, Hys.
Qed.

Lemma fix_time_length (time : list Q) : length (fix_time time) = length time.
Proof.
  unfold fix_time. destruct time as [|t0 [|t1 [|t2 rest]]]; try reflexivity.
  destruct (fix_time_copies _); reflexivity.
Qed.

Lemma time_values_length (v : Var.t) (ts : list Q) :
  time_values v = Ok ts -> length ts = length (Var.data v).
Proof.
  unfold time_values. destruct (Var.dimensions v) as [|? [|? ?]];
    try discriminate.
  intros [= <-]. apply length_map.
Qed.

Lemma test_array_length time_var test_var test_index (v : Var.t) test :
  test_array time_var test_var test_index v = Ok test ->
  length test = length (Var.data v).
Proof.
  unfold test_array. destruct (String.eqb test_var time_var).
  - intros H. apply res_bind_ok in H as (ts & Hts & H).
    destruct test_index; [discriminate|]. injection H as <-.
    rewrite length_map, fix_time_length. apply time_values_length, Hts.
  - destruct test_index as [k|].
    + apply res_mapM_length.
    + intros [= <-]. apply length_map.
Qed.

Lemma arange_length (n : nat) : length (arange n) = n.
Proof. unfold arange. rewrite length_map, length_seq. reflexivity. Qed.

Lemma shape0_length (v : Var.t) (n : nat) :
  shape0 v = Ok n -> n = length (Var.data v).
Proof. unfold shape0. destruct (Var.dimensions v); congruence. Qed.

Section open_step.
Context (time_var test_var : string) (test_index : option Z) (test_tol : nd).
Hypothesis tol_nonempty : test_tol <> Vec [].

  (** When the search ran, [last1] is a frame number of the earlier file. *)
Lemma find_overlap_range fn1 fn2 data1 data2 last1_before first2 last1 :
    starts_with_plus fn2 = Ok false ->
    frames_agree time_var test_var data2 ->
    find_overlap time_var test_var test_index test_tol fn1 fn2 data1 data2
      last1_before = Ok (first2, last1) ->
    exists v1, dict_get (Dataset.variables data1) test_var = Some v1 /\
      (0 <= last1 < Z.of_nat (length (Var.data v1)))%Z /\ (0 <= first2)%Z.
  Proof.
    intros Hplus Hwf2 H. unfold find_overlap in H. rewrite Hplus in H.
    cbn [mbind res_bind] in H.
    apply res_bind_ok in H as (s & Hs & H).
    apply res_bind_ok in Hs as (v1 & Hv1 & Hs).
    apply res_bind_ok in Hs as (v2 & Hv2 & Hs).
    apply res_bind_ok in Hs as (test1 & Ht1 & Hs).
    apply res_bind_ok in Hs as (test2 & Ht2 & Hs).
    apply of_option_ok in Hv1, Hv2.
    apply test_array_length in Ht1, Ht2.
    destruct (Hwf2 v2 Hv2) as [Hne2 _].
    apply search_from_start in Hs as (l & Hl & Hr & Hf); [|assumption|].
    2: { rewrite Ht2. destruct (Var.data v2); [congruence | simpl; lia]. }
    rewrite Hl in H. destruct (l <? 0)%Z eqn:E; [discriminate|].
    apply Z.ltb_ge in E. injection H as <- <-.
    exists v1. split; [exact Hv1|]. rewrite <- Ht1. lia.
  Qed.

Lemma time_axis_length data time1 is_int from_arange v1 :
    frames_agree time_var test_var data ->
    dict_get (Dataset.variables data) test_var = Some v1 ->
    time_axis time_var test_var data = Ok (time1, is_int, from_arange) ->
    length time1 = length (Var.data v1).
  Proof.
    intros Hwf Hv1 H. unfold time_axis in H.
    destruct (dict_get (Dataset.variables data) time_var) as [vt|] eqn:Ht.
    - apply res_bind_ok in H as (ts & Hts & H). injection H as <- _ _.
      rewrite (time_values_length _ _ Hts).
      destruct (Hwf v1 Hv1) as [_ Hlen]. exact (Hlen vt Ht).
    - unfold dict_item in H. rewrite Hv1 in H. cbn [of_option mbind res_bind] in H.
      apply res_bind_ok in H as (n & Hn & H). injection H as <- _ _.
      rewrite arange_length. apply shape0_length, Hn.
  Qed.

  (** After lines 168-171 the first time stamp is [last_time]. *)
Lemma add_offset_head is_int x b time0 time :
    add_offset is_int (Some (x, b)) time0 = Ok time ->
    exists t', head time = Some t' /\ t' == x.
  Proof.
    unfold add_offset. intros H.
    apply res_bind_ok in H as (t0 & Ht0 & H).
    destruct (is_int && negb b); [discriminate|]. injection H as <-.
    apply getitem_0 in Ht0. destruct time0 as [|t time0]; [discriminate|].
    injection Ht0 as ->.
    exists (t0 + (x - t0)). split; [reflexivity | ring].
  Qed.

Lemma open_step_spec fn1 fn2 data1 data2 first1 last1_before last_time
      r first2 last1 lt :
    open_step time_var test_var test_index test_tol fn1 fn2 data1 data2 first1
      last1_before last_time = Ok (r, first2, last1, lt) ->
    traj_fn r = fn1 /\
    (forall x b, last_time = Some (x, b) ->
       exists t', head (traj_time r) = Some t' /\ t' == x) /\
    (starts_with_plus fn2 = Ok false ->
     frames_agree time_var test_var data1 ->
     frames_agree time_var test_var data2 ->
     last (traj_time r) = Some lt.1).
  Proof.
    unfold open_step. intros H.
    apply res_bind_ok in H as ([f2 l1] & Hfind & H).
    apply res_bind_ok in H as ([[time1 is_int] from_arange] & Haxis & H).
    apply res_bind_ok in H as (time & Hoff & H).
    apply res_bind_ok in H as (t & Hnext & H).
    injection H as <- <- <- <-.
    split; [reflexivity|]. split.
    - intros x b ->. cbn [traj_time snd]. eapply add_offset_head, Hoff.
    - intros Hplus Hwf1 Hwf2. cbn [traj_time snd fst].
      destruct (find_overlap_range _ _ _ _ _ _ _ Hplus Hwf2 Hfind)
        as (v1 & Hv1 & Hl1 & _).
      pose proof (time_axis_length _ _ _ _ _ Hwf1 Hv1 Haxis) as Hlen.
      unfold next_last_time in Hnext.
      replace (Z.of_nat (length time1) <=? l1)%Z with false in Hnext
        by (symmetry; apply Z.leb_gt; lia).
      apply getitem_last, Hnext.
  Qed.

Lemma open_last_spec fn2 data2 first1 last_time r :
    open_last time_var test_var fn2 data2 first1 last_time = Ok r ->
    traj_fn r = fn2 /\
    (forall x b, last_time = Some (x, b) ->
       exists t', head (traj_time r) = Some t' /\ t' == x).
  Proof.
    unfold open_last. intros H.
    apply res_bind_ok in H as ([[time1 is_int] from_arange] & Haxis & H).
    apply res_bind_ok in H as (time & Hoff & H).
    injection H as <-. split; [reflexivity|].
    intros x b ->. cbn [traj_time snd]. eapply add_offset_head, Hoff.
  Qed.

  (** The loop over the files: the first tuple returned starts at
      [last_time], and every tuple of a file without the marker starts at
      the last time stamp of the tuple before it. *)
Lemma open_loop_joins (rest : list (string * Dataset.t)) :
    forall cur first1 last1 last_time recs,
    frames_agree time_var test_var cur.2 ->
    Forall (fun fd => frames_agree time_var test_var fd.2) rest ->
    open_loop time_var test_var test_index test_tol first1 last1 last_time
      cur rest = Ok recs ->
    exists r rs,
      recs = r :: rs /\ traj_fn r = cur.1 /\
      (forall x b, last_time = Some (x, b) ->
         exists t', head (traj_time r) = Some t' /\ t' == x) /\
      (forall k ra rb,
         recs !! k = Some ra -> recs !! S k = Some rb ->
         starts_with_plus (traj_fn rb) = Ok false ->
         exists t t', last (traj_time ra) = Some t /\
                      head (traj_time rb) = Some t' /\ t' == t).
  Proof.
    induction rest as [|next rest IH];
      intros cur first1 last1 last_time recs Hcur Hrest H.
    - cbn [open_loop] in H.
      apply res_bind_ok in H as (r & Hr & H). injection H as <-.
      apply open_last_spec in Hr as [Hfn Hhead].
      exists r, []. repeat split; auto.
      intros k ra rb _ Hb. destruct k; discriminate.
    - cbn [open_loop] in H.
      apply res_bind_ok in H as ([[[r first2] last1'] lt] & Hstep & H).
      apply res_bind_ok in H as (rs & Hrs & H). injection H as <-.
      apply Forall_cons in Hrest as [Hnext Hrest].
      apply open_step_spec in Hstep as (Hfn & Hhead & Hlast).
      destruct lt as [x b].
      destruct (IH next first2 (Some last1') (Some (x, b)) rs Hnext Hrest Hrs)
        as (r1 & rs1 & -> & Hfn1 & Hhead1 & Hjoins).
      exists r, (r1 :: rs1). repeat split; auto.
      intros [|k] ra rb Ha Hb Hplus.
      + cbn in Ha, Hb. injection Ha as <-. injection Hb as <-.
        rewrite Hfn1 in Hplus.
        destruct (Hhead1 x b eq_refl) as (t' & Ht' & Heq).
        exists x, t'. split; [|split; assumption].
        apply (Hlast Hplus Hcur Hnext).
      + apply (Hjoins k ra rb); assumption.
  Qed.
End open_step.

(** X14.  In the list [open_trajs] returns, the time array of every tuple
    whose file does not carry the marker [+] starts exactly at the last
    value of the time array of the tuple before it: lines 168-171 shift the
    times of a file so that they continue those of the file before.
    (Datasets with at least one frame, whose time and test variables have
    the same number of frames; exact arithmetic.) *)
Theorem join_continuity (time_var test_var : string) (test_index : option Z)
    (test_tol : nd) (data_f : list (string * Dataset.t)) (recs : list traj) :
  test_tol <> Vec [] ->
  Forall (fun fd => frames_agree time_var test_var fd.2) data_f ->
  open_trajs time_var test_var test_index test_tol data_f = Ok recs ->
  forall k ra rb,
    recs !! k = Some ra -> recs !! S k = Some rb ->
    starts_with_plus (traj_fn rb) = Ok false ->
    exists t t', last (traj_time ra) = Some t /\
                 head (traj_time rb) = Some t' /\ t' == t.
Proof.
  intros Htol Hwf H. unfold open_trajs in H.
  destruct data_f as [|first rest]; [discriminate|].
  apply Forall_cons in Hwf as [Hfirst Hrest].
  destruct (open_loop_joins time_var test_var test_index test_tol Htol rest
              first 0 None None recs Hfirst Hrest H)
    as (r & rs & _ & _ & _ & Hjoins).
  exact Hjoins.
Qed.

(** ** The helpers: [fix_time], [strip_fn], [split] *)

Lemma fix_time_tail (time : list Q) : tail (fix_time time) = tail time.
Proof.
  unfold fix_time. destruct time as [|t0 [|t1 [|t2 rest]]]; try reflexivity.
  destruct (fix_time_copies _); reflexivity.
Qed.

Lemma fix_time_sorted (time : list Q) :
  StronglySorted Qlt time -> StronglySorted Qlt (fix_time time).
Proof.
  unfold fix_time. destruct time as [|t0 [|t1 [|t2 rest]]]; try (intros H; exact H).
  destruct (fix_time_copies _); [|intros H; exact H].
  intros H. apply StronglySorted_inv in H as [H _].
  pose proof H as H1. apply StronglySorted_inv in H1 as [_ H12].
  constructor; [exact H|].
  apply Forall_cons in H12 as [H12 Hrest].
  assert (t1 - (t2 - t1) < t1) by lra.
  constructor; [assumption|].
  apply Forall_cons. split; [lra|].
  eapply Forall_impl; [exact Hrest|]. intros x Hx. simpl in Hx. lra.
Qed.

Lemma fix_time_settled (time : list Q) : fix_time_copies (fix_time time) = false.
Proof.
  unfold fix_time. destruct time as [|t0 [|t1 [|t2 rest]]]; try reflexivity.
  destruct (fix_time_copies (t0 :: t1 :: t2 :: rest)) eqn:E; [|exact E].
  cbn [fix_time_copies]. apply Qltb_ge. qabs; lra.
Qed.

(** X1.  [fix_time] is idempotent: in the array it returns the first three
    values are evenly spaced within 1e-3, so a second call changes
    nothing. *)
Theorem fix_time_idempotent (time : list Q) :
  fix_time_copies (fix_time time) = false /\
  fix_time (fix_time time) = fix_time time.
Proof.
  pose proof (fix_time_settled time) as H. split; [exact H|].
  unfold fix_time at 1.
  destruct (fix_time time) as [|t0 [|t1 [|t2 rest]]]; try reflexivity.
  rewrite H. reflexivity.
Qed.

(** X2.  [fix_time] touches the first value only: the array keeps its
    length and every value after the first, and an array that increases
    strictly still does so afterwards. *)
Theorem fix_time_first_value_only (time : list Q) :
  length (fix_time time) = length time /\
  tail (fix_time time) = tail time /\
  (StronglySorted Qlt time -> StronglySorted Qlt (fix_time time)).
Proof.
  split; [apply fix_time_length|].
  split; [apply fix_time_tail | apply fix_time_sorted].
Qed.

(** *** [str.split(',')] *)

Lemma append_assoc (a b c : string) :
  String.append (String.append a b) c = String.append a (String.append b c).
Proof.
  induction a as [|x a IH]; [reflexivity|].
  change (String x (String.append (String.append a b) c)
          = String x (String.append a (String.append b c))).
  rewrite IH. reflexivity.
Qed.

Lemma append_empty (a : string) : String.append a EmptyString = a.
Proof.
  induction a as [|x a IH]; [reflexivity|].
  change (String x (String.append a EmptyString) = String x a).
  rewrite IH. reflexivity.
Qed.

Lemma split_commas_aux_nonempty (cur s : string) : split_commas_aux cur s <> [].
Proof.
  revert cur. induction s as [|c rest IH]; intros cur; simpl; [discriminate|].
  destruct (Ascii.eqb c ","); [discriminate | apply IH].
Qed.

Lemma split_commas_aux_join (s cur : string) :
  String.concat "," (split_commas_aux cur s) = String.append cur s.
Proof.
  revert cur. induction s as [|c rest IH]; intros cur;
    [symmetry; apply append_empty|].
  cbn [split_commas_aux]. destruct (Ascii.eqb c ",") eqn:E.
  - apply Ascii.eqb_eq in E. subst c.
    pose proof (split_commas_aux_nonempty EmptyString rest) as Hne.
    specialize (IH EmptyString).
    destruct (split_commas_aux EmptyString rest) as [|p ps] eqn:Es;
      [congruence|].
    cbn [String.concat]. cbn [String.concat] in IH. rewrite IH.
    reflexivity.
  - rewrite IH. apply append_assoc.
Qed.

Lemma list_ascii_of_string_append (a b : string) :
  list_ascii_of_string (String.append a b)
  = (list_ascii_of_string a ++ list_ascii_of_string b)%list.
Proof.
  induction a as [|x a IH]; [reflexivity|].
  change (x :: list_ascii_of_string (String.append a b)
          = x :: (list_ascii_of_string a ++ list_ascii_of_string b)%list).
  rewrite IH. reflexivity.
Qed.

(** The pieces hold the characters of [cur] and [s] other than commas. *)
Lemma split_commas_aux_pieces (s cur : string) :
  ~ In ","%char (list_ascii_of_string cur) ->
  Forall (fun p => ~ In ","%char (list_ascii_of_string p))
    (split_commas_aux cur s).
Proof.
  revert cur. induction s as [|c rest IH]; intros cur Hcur; cbn [split_commas_aux].
  - constructor; [exact Hcur | constructor].
  - destruct (Ascii.eqb c ",") eqn:E.
    + constructor; [exact Hcur|]. apply IH. simpl. tauto.
    + apply IH. intros Hin. apply Ascii.eqb_neq in E.
      rewrite list_ascii_of_string_append in Hin.
      apply in_app_or in Hin as [Hin|[Hin|[]]]; [tauto | congruence].
Qed.

(** X3.  Splitting at the commas loses nothing: the pieces joined with
    commas give the string back, no piece holds a comma, and there is
    always at least one piece. *)
Theorem split_commas_round_trip (s : string) :
  String.concat "," (split_commas s) = s /\
  Forall (fun p => ~ In ","%char (list_ascii_of_string p)) (split_commas s) /\
  split_commas s <> [].
Proof.
  unfold split_commas. split; [apply split_commas_aux_join|].
  split; [|apply split_commas_aux_nonempty].
  apply split_commas_aux_pieces. simpl. tauto.
Qed.

(** *** Opening the files *)

Lemma res_mapM_Forall2 {A B} (f : A -> res B) (l : list A) (l' : list B) :
  res_mapM f l = Ok l' -> Forall2 (fun x y => f x = Ok y) l l'.
Proof.
  revert l'. induction l as [|x l IH]; intros l' H; simpl in H.
  - injection H as <-. constructor.
  - apply res_bind_ok in H as (y & Hy & H).
    apply res_bind_ok in H as (ys & Hys & H).
    injection H as <-. constructor; auto.
Qed.

(** X4.  The datasets are opened at the paths without the marker [+],
    while the list handed to [open_trajs] keeps the names as they were
    given, marker included, in the order of the command line. *)
Theorem open_files_keeps_names (arguments : Args.t)
    (opened : string -> res Dataset.t) (data_f : list (string * Dataset.t)) :
  open_files arguments opened = Ok data_f ->
  map fst data_f = Args.filenames arguments /\
  Forall (fun fd => opened (strip_fn fd.1) = Ok fd.2) data_f.
Proof.
  unfold open_files. intros H. apply res_mapM_Forall2 in H.
  induction H as [|fn fd fns fds Hfd _ [IH1 IH2]]; [split; constructor|].
  apply res_bind_ok in Hfd as (d & Hd & Hfd). injection Hfd as <-.
  split; [simpl; f_equal; exact IH1|].
  constructor; [exact Hd | exact IH2].
Qed.

Lemma open_files_keeps_names_witness :
  map fst [("a.nc"%string, file_a); ("+b.nc"%string, file_b 10)]
  = ["a.nc"%string; "+b.nc"%string] /\
  Forall (fun fd => two_files file_a (file_b 10) (strip_fn fd.1) = Ok fd.2)
    [("a.nc"%string, file_a); ("+b.nc"%string, file_b 10)].
Proof.
  apply (open_files_keeps_names
           (Args.mk ["a.nc"%string; "+b.nc"%string] None "coordinates" None
              (Sc (1 # 1000000)) "NETCDF3_64BIT" None "id" (-1))
           (two_files file_a (file_b 10))).
  reflexivity.
Defined.

(** ** Invariants of the output dataset *)

(** Unfolds one step of a computation on the output dataset. *)
Ltac m_unfold :=
  unfold mbind, M_bind, mret, M_ret, get_output, put_output, lift; simpl.

(** A relation kept by the two loops over the variables is kept by the
    whole run. *)
Section run.
Context (R : relation output) `{!PreOrder R} (arguments : Args.t).
Hypothesis steps_setncattr : forall a v, steps R (setncattr a v).
Hypothesis steps_create : forall idata item,
    steps R (create_variable arguments idata item).
Hypothesis steps_copy :
    forall cursor last_data idata data_slice time index item,
    steps R (copy_variable arguments cursor last_data idata data_slice time
               index item).

Lemma run_copy_segment cursor last_data r :
    steps R (copy_segment arguments cursor last_data r).
  Proof.
    destruct r as [[[trajfn idata] data_slice] time]. unfold copy_segment.
    apply steps_bind; [apply _|apply steps_lift; apply _|]. intros index.
    apply steps_bind; [apply _| |].
    { apply steps_for_each; [apply _|]. intros. apply steps_create. }
    intros _. apply steps_bind; [apply _| |].
    { apply steps_for_each; [apply _|]. intros. apply steps_copy. }
    intros _. apply steps_bind; [apply _|apply steps_lift; apply _|].
    intros _. apply steps_ret; apply _.
  Qed.

Lemma run_copy_loop idata_f :
    forall cursor last_data,
    steps R (copy_loop arguments cursor last_data idata_f).
  Proof.
    induction idata_f as [|r rest IH]; intros cursor last_data; simpl.
    - apply steps_ret; apply _.
    - apply steps_bind; [apply _|apply run_copy_segment|intros c; apply IH].
  Qed.

Lemma run_copy_all idata_f : steps R (copy_all arguments idata_f).
  Proof.
    unfold copy_all.
    apply steps_bind; [apply _|apply steps_lift; apply _|]. intros first.
    apply steps_bind; [apply _| |intros _; apply run_copy_loop].
    apply steps_for_each; [apply _|]. intros. apply steps_setncattr.
  Qed.

Lemma run_main opened : steps R (main arguments opened).
  Proof.
    unfold main.
    apply steps_bind; [apply _|apply steps_lift; apply _|]. intros data_f.
    apply steps_bind; [apply _|apply steps_lift; apply _|]. intros idata_f.
    apply steps_bind; [apply _| |intros idata_f'; apply run_copy_all].
    destruct (Args.every arguments);
      [apply steps_lift | apply steps_ret]; apply _.
  Qed.
End run.

(** *** The output only grows *)

Lemma bind_run {A B} (m : M A) (f : A -> M B) (o : output) :
  (m ≫= f) o = match m o with
               | (o', Ok a) => f a o'
               | (o', Err e) => (o', Err e)
               end.
Proof. reflexivity. Qed.

Lemma steps_weaken (R R' : relation output) {A} (m : M A) :
  (forall o o', R o o' -> R' o o') -> steps R m -> steps R' m.
Proof. intros Hsub Hm o. apply Hsub, Hm. Qed.

#[local] Instance adds_dimensions_preorder : PreOrder adds_dimensions.
Proof.
  split.
  - intros o. repeat split; auto.
  - intros o1 o2 o3 (Ha & Hv & Hw & Hd) (Ha' & Hv' & Hw' & Hd').
    repeat split; try congruence. auto.
Qed.

#[local] Instance persists_preorder : PreOrder persists.
Proof.
  split.
  - intros o. split; [eauto|]. split; [auto|].
    split; exists []; rewrite app_nil_r; reflexivity.
  - intros o1 o2 o3 (Hv & Hd & [a Ha] & [w Hw]) (Hv' & Hd' & [a' Ha'] & [w' Hw']).
    split; [|split; [auto|split]].
    + intros v ov H. apply Hv in H as (ov' & H & Ht & Hdims).
      apply Hv' in H as (ov'' & H & Ht' & Hdims').
      exists ov''. split; [exact H|]. split; congruence.
    + exists (a ++ a'). rewrite Ha', Ha, app_assoc. reflexivity.
    + exists (w ++ w'). rewrite Hw', Hw, app_assoc. reflexivity.
Qed.

Lemma adds_dimensions_persists (o o' : output) :
  adds_dimensions o o' -> persists o o'.
Proof.
  intros (Ha & Hv & Hw & Hd). split; [|split; [exact Hd|split]].
  - intros v ov H. exists ov. rewrite Hv. auto.
  - exists []. rewrite app_nil_r. exact Ha.
  - exists []. rewrite app_nil_r. exact Hw.
Qed.

Section grows.
Context (arguments : Args.t).

  (** A dimension is created only when the output has none of its name. *)
Lemma ensure_dimension_adds idata dim_str :
    steps adds_dimensions (ensure_dimension idata dim_str).
  Proof.
    intros o. unfold ensure_dimension. rewrite bind_run. cbn [get_output].
    destruct (out_dimensions o !! dim_str) eqn:E; [reflexivity|].
    rewrite bind_run. unfold lift.
    destruct (dict_item (Dataset.dimensions idata) dim_str) as [dim|e];
      [|reflexivity].
    destruct (Dim.isunlimited dim); repeat split; simpl; intros d n Hd;
      (rewrite lookup_insert_ne; [exact Hd | congruence]).
  Qed.

Lemma ensure_dimensions_add idata dims :
    steps adds_dimensions (for_each dims (ensure_dimension idata)).
  Proof.
    apply steps_for_each; [apply _|]. intros. apply ensure_dimension_adds.
  Qed.

Lemma persists_setncattr a v : steps persists (setncattr a v).
  Proof.
    intros o. split; [eauto|]. split; [auto|]. split; simpl.
    - eexists. reflexivity.
    - exists []. rewrite app_nil_r. reflexivity.
  Qed.

Lemma persists_fresh_variable (o : output) x ov :
    out_variables o !! x = None ->
    persists o (mk_output (out_attrs o) (out_dimensions o)
                  (<[x := ov]> (out_variables o)) (out_written o)).
  Proof.
    intros Hx. split; [|split; [auto|split]]; simpl.
    - intros v ov' H. exists ov'. rewrite lookup_insert_ne by congruence. auto.
    - exists []. rewrite app_nil_r. reflexivity.
    - exists []. rewrite app_nil_r. reflexivity.
  Qed.

Lemma persists_var_setncattr x a v : steps persists (var_setncattr x a v).
  Proof.
    intros o. unfold var_setncattr. rewrite bind_run. cbn [get_output].
    destruct (out_variables o !! x) as [ov|] eqn:E; [|reflexivity].
    split; [|split; [auto|split]]; simpl.
    - intros v' ov' H. destruct (decide (x = v')) as [<-|Hne].
      + rewrite lookup_insert_eq. eexists. split; [reflexivity|].
        simpl. split; congruence.
      + rewrite lookup_insert_ne by exact Hne. eauto.
    - exists []. rewrite app_nil_r. reflexivity.
    - exists []. rewrite app_nil_r. reflexivity.
  Qed.

Lemma persists_assign w : steps persists (assign w).
  Proof.
    intros o. unfold assign. rewrite bind_run. cbn [get_output].
    destruct (out_variables o !! write_var w); [|reflexivity].
    split; [eauto|]. split; [auto|]. split; simpl.
    - exists []. rewrite app_nil_r. reflexivity.
    - eexists. reflexivity.
  Qed.

  (** A variable is created only when the output has none of its name. *)
Lemma persists_create_variable idata item :
    steps persists (create_variable arguments idata item).
  Proof.
    destruct item as [var_str var]. intros o. unfold create_variable.
    destruct (decide _); [reflexivity|].
    rewrite bind_run. cbn [get_output].
    destruct (out_variables o !! var_str) eqn:Evar; [reflexivity|].
    destruct (_ && _); [reflexivity|].
    rewrite bind_run.
    pose proof (ensure_dimensions_add idata (Var.dimensions var) o) as Hadd.
    destruct (for_each (Var.dimensions var) (ensure_dimension idata) o)
      as [o1 [[]|e]]; simpl in Hadd;
      [|apply adds_dimensions_persists, Hadd].
    transitivity o1; [apply adds_dimensions_persists, Hadd|].
    rewrite bind_run. unfold createVariable at 1. rewrite bind_run.
    cbn [get_output put_output].
    destruct Hadd as (_ & Hv & _ & _).
    etransitivity; [apply persists_fresh_variable; rewrite Hv; exact Evar|].
    apply steps_for_each; [apply _|]. intros. apply persists_var_setncattr.
  Qed.

Lemma persists_main opened : steps persists (main arguments opened).
  Proof.
    apply run_main; try apply _.
    - apply persists_setncattr.
    - apply persists_create_variable.
    - intros. apply steps_copy_variable; try apply _.
      intros w _. apply persists_assign.
  Qed.
End grows.

(** X6.  The output only grows.  Whatever the output held before a run, it
    still holds afterwards: every variable with its type and dimensions,
    every dimension with its size, the global attributes and the assignments
    in their order.  A variable or a dimension is created only when the
    output has none of its name. *)
Theorem output_only_grows (arguments : Args.t)
    (opened : string -> res Dataset.t) (o : output) :
  persists o (main arguments opened o).1.
Proof. apply persists_main. Qed.

(** *** Variables come with their dimensions *)

Section declared.
Context (arguments : Args.t).

Let D : relation output :=
    fun o o' => dimensions_declared o -> dimensions_declared o'.

#[local] Instance declared_preorder : PreOrder D.
  Proof.
    split.
    - intros o H. exact H.
    - intros o1 o2 o3 H12 H23 H. apply H23, H12, H.
  Qed.

Lemma adds_dimensions_declared (o o' : output) :
    adds_dimensions o o' -> D o o'.
  Proof.
    intros (_ & Hv & _ & Hd) H v ov Hov. rewrite Hv in Hov.
    eapply Forall_impl; [exact (H v ov Hov)|].
    intros d [n Hn]. exists n. apply Hd, Hn.
  Qed.

  (** When the loop of lines 348-355 ends normally, the output holds every
      dimension of the variable. *)
Lemma ensure_dimensions_all idata dims :
    forall o o1,
    for_each dims (ensure_dimension idata) o = (o1, Ok ()) ->
    Forall (fun d => is_Some (out_dimensions o1 !! d)) dims.
  Proof.
    induction dims as [|d dims IH]; intros o o1 H; [constructor|].
    cbn [for_each] in H. rewrite bind_run in H.
    destruct (ensure_dimension idata d o) as [o' [[]|e]] eqn:E;
      [|discriminate].
    constructor; [|eapply IH, H].
    assert (Hd : is_Some (out_dimensions o' !! d)).
    { unfold ensure_dimension in E. rewrite bind_run in E.
      cbn [get_output] in E.
      destruct (out_dimensions o !! d) eqn:Ed.
      - injection E as <-. rewrite Ed. eauto.
      - rewrite bind_run in E. unfold lift in E.
        destruct (dict_item (Dataset.dimensions idata) d) as [dim|e];
          [|discriminate].
        destruct (Dim.isunlimited dim); injection E as <-; simpl;
          rewrite lookup_insert_eq; eauto. }
    pose proof (ensure_dimensions_add idata dims o') as Hadd.
    rewrite H in Hadd. destruct Hadd as (_ & _ & _ & Hmono).
    destruct Hd as [n Hn]. exists n. apply Hmono, Hn.
  Qed.

Lemma declared_var_setncattr x a v : steps D (var_setncattr x a v).
  Proof.
    intros o H. unfold var_setncattr. rewrite bind_run. cbn [get_output].
    destruct (out_variables o !! x) as [ov|] eqn:E; [|exact H].
    intros v' ov'. simpl. destruct (decide (x = v')) as [<-|Hne].
    - rewrite lookup_insert_eq. intros [= <-]. simpl. apply (H x ov E).
    - rewrite lookup_insert_ne by exact Hne. apply H.
  Qed.

Lemma declared_create_variable idata item :
    steps D (create_variable arguments idata item).
  Proof.
    destruct item as [var_str var]. intros o. unfold create_variable.
    destruct (decide _); [reflexivity|].
    rewrite bind_run. cbn [get_output].
    destruct (out_variables o !! var_str) eqn:Evar; [reflexivity|].
    destruct (_ && _); [reflexivity|].
    rewrite bind_run.
    pose proof (ensure_dimensions_add idata (Var.dimensions var) o) as Hadd.
    pose proof (ensure_dimensions_all idata (Var.dimensions var) o) as Hall.
    destruct (for_each (Var.dimensions var) (ensure_dimension idata) o)
      as [o1 [[]|e]]; simpl in Hadd;
      [|apply adds_dimensions_declared, Hadd].
    specialize (Hall o1 eq_refl).
    transitivity o1; [apply adds_dimensions_declared, Hadd|].
    rewrite bind_run. unfold createVariable at 1. rewrite bind_run.
    cbn [get_output put_output].
    match goal with
    | |- D o1 (for_each ?l ?b ?o2).1 =>
        transitivity o2;
        [|apply (steps_for_each D l b); intros; apply declared_var_setncattr]
    end.
    intros H v ov. simpl. destruct (decide (var_str = v)) as [<-|Hne].
    - rewrite lookup_insert_eq. intros [= <-]. exact Hall.
    - rewrite lookup_insert_ne by exact Hne. apply H.
  Qed.

Lemma declared_main opened : steps D (main arguments opened).
  Proof.
    apply run_main; try apply _.
    - intros a v o H. exact H.
    - apply declared_create_variable.
    - intros. apply steps_copy_variable; try apply _.
      intros w _ o H. unfold assign. rewrite bind_run. cbn [get_output].
      destruct (out_variables o !! write_var w); exact H.
  Qed.
End declared.

(** X7.  In the output a run leaves behind, whether it ends normally or on
    an exception, every variable has all the dimensions it was created with:
    a variable is created only after the loop over its dimensions went
    through. *)
Theorem variables_have_their_dimensions (arguments : Args.t)
    (opened : string -> res Dataset.t) :
  dimensions_declared (main arguments opened empty_output).1.
Proof.
  apply (declared_main arguments opened empty_output).
  intros v ov H. simpl in H. rewrite lookup_empty in H. discriminate.
Qed.

(** *** The exclude list *)

Section excluded.
Context (arguments : Args.t) (x : string).
Hypothesis excluded : x ∈ exclude_list arguments.

Let E : relation output := fun o o' => absent x o -> absent x o'.

#[local] Instance excluded_preorder : PreOrder E.
  Proof.
    split.
    - intros o H. exact H.
    - intros o1 o2 o3 H12 H23 H. apply H23, H12, H.
  Qed.

Lemma excluded_createVariable y ty dims :
    y ∉ exclude_list arguments -> steps E (createVariable y ty dims).
  Proof.
    intros Hy o [Hvar Hw]. split; [|exact Hw]. simpl.
    rewrite lookup_insert_ne; [exact Hvar|]. intros ->. exact (Hy excluded).
  Qed.

Lemma excluded_var_setncattr y a v : steps E (var_setncattr y a v).
  Proof.
    intros o [Hvar Hw]. unfold var_setncattr. rewrite bind_run.
    cbn [get_output].
    destruct (out_variables o !! y) eqn:Ey; [|split; assumption].
    split; [|exact Hw]. simpl.
    rewrite lookup_insert_ne; [exact Hvar|]. intros ->. congruence.
  Qed.

Lemma excluded_assign w : steps E (assign w).
  Proof.
    intros o [Hvar Hw]. unfold assign. rewrite bind_run. cbn [get_output].
    destruct (out_variables o !! write_var w) eqn:Ew; [|split; assumption].
    split; [exact Hvar|]. simpl.
    apply Forall_app. split; [exact Hw|].
    constructor; [|constructor]. intros Heq. rewrite Heq in Ew. congruence.
  Qed.

Lemma excluded_main opened : steps E (main arguments opened).
  Proof.
    apply run_main; try apply _.
    - intros a v o H. exact H.
    - intros idata item. apply steps_create_variable; try apply _.
      + intros d n o H. exact H.
      + apply excluded_var_setncattr.
      + apply excluded_createVariable.
    - intros. apply steps_copy_variable; try apply _.
      intros w _. apply excluded_assign.
  Qed.
End excluded.

(** X8.  A variable named in [--exclude], one of the names between the
    commas, is left out of the output: whether the run ends normally or on
    an exception, no variable of that name was created and none was assigned
    to. *)
Theorem excluded_variables_stay_out (arguments : Args.t)
    (opened : string -> res Dataset.t) (e x : string) :
  Args.exclude arguments = Some e ->
  In x (split_commas e) ->
  absent x (main arguments opened empty_output).1.
Proof.
  intros He Hx.
  apply (excluded_main arguments x); [|split; [apply lookup_empty|constructor]].
  unfold exclude_list. rewrite He.
  apply elem_of_union_r, elem_of_list_to_set, list_elem_of_In, Hx.
Qed.

Lemma excluded_variables_stay_out_witness :
  absent "box"
    (main (Args.mk ["a.nc"%string; "b.nc"%string] None "coordinates" None
             (Sc (1 # 1000000)) "NETCDF3_64BIT" (Some "forces,box"%string)
             "id" (-1))
       (two_files file_a (file_b 10)) empty_output).1.
Proof.
  apply (excluded_variables_stay_out _ _ "forces,box" "box").
  - reflexivity.
  - simpl. right. left. reflexivity.
Defined.

(** *** The global attributes *)

Lemma for_each_setncattr (attrs : list (string * string)) :
  forall o,
  for_each attrs (fun a => setncattr a.1 a.2) o
  = (mk_output (out_attrs o ++ attrs) (out_dimensions o) (out_variables o)
       (out_written o), Ok ()).
Proof.
  induction attrs as [|[a v] attrs IH]; intros o.
  - simpl. rewrite app_nil_r. destruct o. reflexivity.
  - cbn [for_each]. rewrite bind_run. unfold setncattr at 1.
    rewrite bind_run. cbn [get_output put_output]. rewrite IH. simpl.
    rewrite <- app_assoc. reflexivity.
Qed.

#[local] Instance same_attrs_preorder : PreOrder same_attrs.
Proof.
  split.
  - intros o. reflexivity.
  - intros o1 o2 o3 H12 H23. unfold same_attrs in *. congruence.
Qed.

Lemma copy_loop_same_attrs (arguments : Args.t) idata_f cursor last_data :
  steps same_attrs (copy_loop arguments cursor last_data idata_f).
Proof.
  apply run_copy_loop; try apply _.
  - intros idata item. apply steps_create_variable; try apply _.
    + intros d n o. reflexivity.
    + intros y a v o. unfold var_setncattr. rewrite bind_run.
      cbn [get_output]. destruct (out_variables o !! y); reflexivity.
    + intros y ty dims _ o. reflexivity.
  - intros. apply steps_copy_variable; try apply _.
    intros w _ o. unfold assign. rewrite bind_run. cbn [get_output].
    destruct (out_variables o !! write_var w); reflexivity.
Qed.

(** X9.  The global attributes of the output are those of the dataset of
    the first tuple, in their order, added once to what the output held;
    the copy loop, whether it ends normally or on an exception, adds none
    and changes none. *)
Theorem global_attributes_of_first_file (arguments : Args.t) (first : traj)
    (rest : list traj) (o : output) :
  out_attrs (copy_all arguments (first :: rest) o).1
  = out_attrs o ++ Dataset.ncattrs (traj_data first).
Proof.
  unfold copy_all. rewrite bind_run.
  change (lift (getitem (first :: rest) 0) o) with (o, Ok first).
  cbv iota beta. rewrite bind_run, for_each_setncattr.
  apply (copy_loop_same_attrs arguments (first :: rest) 0 None).
Qed.

(** *** The identifier variable *)

(** X10.  An identifier variable whose dimensions are not (frame, atom)
    stops the round of its file with the [RuntimeError] of line 333 before
    anything of that file reaches the output. *)
Theorem index_shape_checked_first (arguments : Args.t) (cursor : Z)
    (last_data : option Dataset.t) (trajfn : string) (idata : Dataset.t)
    (data_slice : data_slice) (time : list Q) (index : Var.t) (o : output) :
  dict_get (Dataset.variables idata) (Args.index arguments) = Some index ->
  Var.dimensions index <> [FRAME_DIM; ATOM_DIM] ->
  copy_segment arguments cursor last_data (trajfn, idata, data_slice, time) o
  = (o, Err (RuntimeError IndexVariableDims)).
Proof.
  intros Hindex Hdims. unfold copy_segment. rewrite bind_run.
  unfold lift, find_index. rewrite Hindex.
  destruct (Var.dimensions index) as [|d0 [|d1 [|d2 ds]]]; try reflexivity.
  destruct (String.eqb d0 FRAME_DIM) eqn:E0; [|reflexivity].
  destruct (String.eqb d1 ATOM_DIM) eqn:E1; [|reflexivity].
  apply String.eqb_eq in E0, E1. congruence.
Qed.

Lemma index_shape_checked_first_witness :
  copy_segment default_arguments 0 None
    ("a.nc"%string,
     Dataset.mk [("id"%string, Var.mk ["atom"%string] DInt [] [])] [] [],
     Slice 0 0, []) empty_output
  = (empty_output, Err (RuntimeError IndexVariableDims)).
Proof.
  apply (index_shape_checked_first default_arguments 0 None "a.nc"
           (Dataset.mk [("id"%string, Var.mk ["atom"%string] DInt [] [])] [] [])
           (Slice 0 0) [] (Var.mk ["atom"%string] DInt [] []) empty_output).
  - reflexivity.
  - simpl. discriminate.
Defined.

(** ** The tuples [open_trajs] returns *)

Section search_bounds.
Context (test_tol : nd) (test1 test2 : list nd).

  (** The search never moves [first2] past frame 5. *)
Lemma search_first2_le (fuel : nat) :
    forall s s',
    search test_tol test1 test2 fuel s = Ok s' ->
    (st_first2 s <= 5)%Z -> (st_first2 s <= st_first2 s' <= 5)%Z.
  Proof.
    induction fuel as [|fuel IH]; intros s s' H Hle.
    - simpl in H. injection H as <-. lia.
    - cbn [search] in H.
      destruct (st_first2 s <? _)%Z eqn:Eguard;
        [|injection H as <-; lia].
      apply Z.ltb_lt in Eguard.
      apply res_bind_ok in H as ([|] & _ & H); [|injection H as <-; lia].
      apply res_bind_ok in H as (maxdiff & _ & H).
      apply res_bind_ok in H as ([[[l md] mx] mn] & _ & H).
      apply res_bind_ok in H as (mx' & _ & H).
      apply res_bind_ok in H as (mn' & _ & H).
      apply IH in H; cbn [st_first2] in *; lia.
  Qed.

  (** Once [first2] has reached frame 5 the loop is over; more rounds than
      the distance to 5 change nothing. *)
Lemma search_fuel (fuel : nat) :
    forall (k : nat) s,
    (5 - st_first2 s <= Z.of_nat fuel)%Z ->
    search test_tol test1 test2 (fuel + k) s
    = search test_tol test1 test2 fuel s.
  Proof.
    induction fuel as [|fuel IH]; intros k s Hle.
    - destruct k as [|k]; [reflexivity|]. cbn [Nat.add search].
      replace (st_first2 s <? _)%Z with false; [reflexivity|].
      symmetry. apply Z.ltb_ge. lia.
    - cbn [Nat.add search].
      destruct (st_first2 s <? _)%Z; [|reflexivity].
      destruct (nd_any_gt (st_maxdiff s) test_tol) as [[|]|e];
        cbn [mbind res_bind]; try reflexivity.
      destruct (residual_last test_tol test1 test2 (st_first2 s + 1))
        as [maxdiff|e];
        cbn [mbind res_bind]; [|reflexivity].
      destruct (backward_scan _ _ _ _ _ _ _ _) as [[[[l md] mx] mn]|e];
        cbn [mbind res_bind]; [|reflexivity].
      destruct (nd_maximum md mx) as [mx'|e]; cbn [mbind res_bind];
        [|reflexivity].
      destruct (nd_minimum md mn) as [mn'|e]; cbn [mbind res_bind];
        [|reflexivity].
      apply IH. cbn [st_first2]. lia.
  Qed.
End search_bounds.

(** X11.  The outer loop of the overlap search is over after six rounds at
    most: started at [first2 = -1], as line 125 starts it, it gives with any
    larger number of rounds what it gives with six. *)
Theorem search_ends_in_six_rounds (test_tol : nd) (test1 test2 : list nd)
    (k : nat) (last1 : option Z) (maxdiff max_maxdiff min_maxdiff : nd) :
  search test_tol test1 test2 (6 + k)
    (mk_search (-1) last1 maxdiff max_maxdiff min_maxdiff)
  = search test_tol test1 test2 6
      (mk_search (-1) last1 maxdiff max_maxdiff min_maxdiff).
Proof. apply search_fuel. cbn [st_first2]. lia. Qed.

Section tuples.
Context (time_var test_var : string) (test_index : option Z) (test_tol : nd).

Lemma find_overlap_first2 fn1 fn2 data1 data2 last1_before first2 last1 :
    find_overlap time_var test_var test_index test_tol fn1 fn2 data1 data2
      last1_before = Ok (first2, last1) ->
    (-1 <= first2 <= 5)%Z.
  Proof.
    unfold find_overlap. intros H.
    apply res_bind_ok in H as (trusted & _ & H).
    apply res_bind_ok in H as (s & Hs & H).
    assert (Hb : (-1 <= st_first2 s <= 5)%Z).
    { destruct trusted.
      - apply res_bind_ok in Hs as (v & _ & Hs).
        apply res_bind_ok in Hs as (n & _ & Hs).
        injection Hs as <-. cbn. lia.
      - apply res_bind_ok in Hs as (v1 & _ & Hs).
        apply res_bind_ok in Hs as (v2 & _ & Hs).
        apply res_bind_ok in Hs as (test1 & _ & Hs).
        apply res_bind_ok in Hs as (test2 & _ & Hs).
        apply search_first2_le in Hs; cbn [st_first2] in *; lia. }
    destruct (st_last1 s) as [l|]; [|discriminate].
    destruct (l <? 0)%Z; [discriminate|]. injection H as <- _. exact Hb.
  Qed.

Lemma find_overlap_first2_nonneg fn1 fn2 data1 data2 last1_before first2
      last1 :
    test_tol <> Vec [] ->
    frames_agree time_var test_var data2 ->
    find_overlap time_var test_var test_index test_tol fn1 fn2 data1 data2
      last1_before = Ok (first2, last1) ->
    (0 <= first2 <= 5)%Z.
  Proof.
    intros Htol Hwf H.
    pose proof (find_overlap_first2 _ _ _ _ _ _ _ H) as Hb.
    split; [|lia].
    destruct (starts_with_plus fn2) as [[|]|e] eqn:Eplus.
    - unfold find_overlap in H. rewrite Eplus in H. cbn [mbind res_bind] in H.
      apply res_bind_ok in H as (s & Hs & H).
      apply res_bind_ok in Hs as (v & _ & Hs).
      apply res_bind_ok in Hs as (n & _ & Hs).
      injection Hs as <-. cbn in H.
      destruct (Z.of_nat n <? 0)%Z; [discriminate|].
      injection H as <- _. lia.
    - destruct (find_overlap_range time_var test_var test_index test_tol Htol
                  _ _ _ _ _ _ _ Eplus Hwf H) as (_ & _ & _ & Hge).
      exact Hge.
    - unfold find_overlap in H. rewrite Eplus in H. discriminate.
  Qed.

Lemma open_step_shape fn1 fn2 data1 data2 first1 last1_before last_time
      r first2 last1 lt :
    open_step time_var test_var test_index test_tol fn1 fn2 data1 data2 first1
      last1_before last_time = Ok (r, first2, last1, lt) ->
    traj_fn r = fn1 /\ traj_data r = data1 /\
    traj_slice r = Slice first1 last1 /\
    find_overlap time_var test_var test_index test_tol fn1 fn2 data1 data2
      last1_before = Ok (first2, last1).
  Proof.
    unfold open_step. intros H.
    apply res_bind_ok in H as ([f2 l1] & Hfind & H).
    apply res_bind_ok in H as ([[time1 is_int] from_arange] & _ & H).
    apply res_bind_ok in H as (time & _ & H).
    apply res_bind_ok in H as (t & _ & H).
    injection H as <- <- <- <-. auto.
  Qed.

Lemma add_offset_length is_int last_time time time' :
    add_offset is_int last_time time = Ok time' -> length time' = length time.
  Proof.
    unfold add_offset. destruct last_time as [[lt b]|]; [|congruence].
    intros H. apply res_bind_ok in H as (t0 & _ & H).
    destruct (is_int && negb b); [discriminate|]. injection H as <-.
    apply length_map.
  Qed.

  (** The tuple of the last file: its slice ends at the length of its
      time array, which holds a value for every frame of the file. *)
Lemma open_last_shape fn2 data2 first1 last_time r :
    open_last time_var test_var fn2 data2 first1 last_time = Ok r ->
    traj_fn r = fn2 /\ traj_data r = data2 /\
    traj_slice r = Slice first1 (Z.of_nat (length (traj_time r))) /\
    exists time1 is_int from_arange,
      time_axis time_var test_var data2 = Ok (time1, is_int, from_arange) /\
      length (traj_time r) = length time1.
  Proof.
    unfold open_last. intros H.
    apply res_bind_ok in H as ([[time1 is_int] from_arange] & Haxis & H).
    apply res_bind_ok in H as (time & Hoff & H).
    injection H as <-. repeat split.
    exists time1, is_int, from_arange. split; [exact Haxis|].
    cbn [traj_time snd]. apply add_offset_length in Hoff.
    rewrite Hoff. apply fix_time_length.
  Qed.

Lemma open_loop_files (rest : list (string * Dataset.t)) :
    forall cur first1 last1 last_time recs,
    open_loop time_var test_var test_index test_tol first1 last1 last_time
      cur rest = Ok recs ->
    map traj_fn recs = map fst (cur :: rest) /\
    map traj_data recs = map snd (cur :: rest).
  Proof.
    induction rest as [|next rest IH]; intros cur first1 last1 last_time recs H.
    - cbn [open_loop] in H.
      apply res_bind_ok in H as (r & Hr & H). injection H as <-.
      apply open_last_shape in Hr as (Hfn & Hdata & _).
      simpl. rewrite Hfn, Hdata. auto.
    - cbn [open_loop] in H.
      apply res_bind_ok in H as ([[[r first2] last1'] lt] & Hstep & H).
      apply res_bind_ok in H as (rs & Hrs & H). injection H as <-.
      apply open_step_shape in Hstep as (Hfn & Hdata & _).
      apply IH in Hrs as [IH1 IH2].
      cbn [map]. rewrite Hfn, Hdata, IH1, IH2. auto.
  Qed.

Lemma open_loop_slices (rest : list (string * Dataset.t)) :
    test_tol <> Vec [] ->
    forall cur first1 last1 last_time recs,
    (0 <= first1 <= 5)%Z ->
    Forall (fun fd => frames_agree time_var test_var fd.2) rest ->
    open_loop time_var test_var test_index test_tol first1 last1 last_time
      cur rest = Ok recs ->
    (exists r rs b, recs = r :: rs /\ traj_slice r = Slice first1 b) /\
    Forall (fun r => exists a b, traj_slice r = Slice a b /\ (0 <= a <= 5)%Z)
      recs /\
    (forall r, last recs = Some r ->
       exists a, traj_slice r = Slice a (Z.of_nat (length (traj_time r)))).
  Proof.
    intros Htol.
    induction rest as [|next rest IH];
      intros cur first1 last1 last_time recs Hfirst Hwf H.
    - cbn [open_loop] in H.
      apply res_bind_ok in H as (r & Hr & H). injection H as <-.
      apply open_last_shape in Hr as (_ & _ & Hslice & _).
      split; [eauto|]. split.
      + constructor; [eauto|constructor].
      + intros r' [= <-]. eauto.
    - cbn [open_loop] in H.
      apply res_bind_ok in H as ([[[r first2] last1'] lt] & Hstep & H).
      apply res_bind_ok in H as (rs & Hrs & H). injection H as <-.
      apply Forall_cons in Hwf as [Hnext Hwf].
      apply open_step_shape in Hstep as (_ & _ & Hslice & Hfind).
      apply (find_overlap_first2_nonneg _ _ _ _ _ _ _ Htol Hnext) in Hfind.
      destruct (IH next first2 (Some last1') (Some lt) rs Hfind Hwf Hrs)
        as ((r1 & rs1 & b1 & -> & Hs1) & Hall & Hlast).
      split; [eauto|]. split.
      + constructor; [eauto|exact Hall].
      + intros r'. rewrite last_cons_cons. apply Hlast.
  Qed.
End tuples.

(** X12.  [open_trajs] returns one tuple per file, in the order of the
    files, each with the name as given and the dataset of its file. *)
Theorem one_tuple_per_file (time_var test_var : string)
    (test_index : option Z) (test_tol : nd)
    (data_f : list (string * Dataset.t)) (recs : list traj) :
  open_trajs time_var test_var test_index test_tol data_f = Ok recs ->
  map traj_fn recs = map fst data_f /\ map traj_data recs = map snd data_f.
Proof.
  unfold open_trajs. destruct data_f as [|first rest]; [discriminate|].
  apply open_loop_files.
Qed.

Lemma one_tuple_per_file_witness :
  map traj_fn [("a.nc"%string, file_a, Slice 0 2, [0; 1]);
               ("b.nc"%string, file_b 10, Slice 0 3,
                [0 + (1 - 0); 1 + (1 - 0); 2 + (1 - 0)])]
  = map fst [("a.nc"%string, file_a); ("b.nc"%string, file_b 10)] /\
  map traj_data [("a.nc"%string, file_a, Slice 0 2, [0; 1]);
                 ("b.nc"%string, file_b 10, Slice 0 3,
                  [0 + (1 - 0); 1 + (1 - 0); 2 + (1 - 0)])]
  = map snd [("a.nc"%string, file_a); ("b.nc"%string, file_b 10)].
Proof.
  apply (one_tuple_per_file "time" "coordinates" None (Sc (1 # 1000000))).
  reflexivity.
Defined.

(** X13.  The slices of the tuples.  The first tuple starts at frame 0; no
    tuple starts after frame 5, so at most five leading frames of a file are
    left out; and the slice of the last tuple ends at the length of its time
    array.  (Tolerance not an empty vector; test variables with at least one
    frame.) *)
Theorem slices_start_within_five_frames (time_var test_var : string)
    (test_index : option Z) (test_tol : nd)
    (data_f : list (string * Dataset.t)) (recs : list traj) :
  test_tol <> Vec [] ->
  Forall (fun fd => frames_agree time_var test_var fd.2) data_f ->
  open_trajs time_var test_var test_index test_tol data_f = Ok recs ->
  (exists r rs b, recs = r :: rs /\ traj_slice r = Slice 0 b) /\
  Forall (fun r => exists a b, traj_slice r = Slice a b /\ (0 <= a <= 5)%Z)
    recs /\
  (forall r, last recs = Some r ->
     exists a, traj_slice r = Slice a (Z.of_nat (length (traj_time r)))).
Proof.
  intros Htol Hwf H. unfold open_trajs in H.
  destruct data_f as [|first rest]; [discriminate|].
  apply Forall_cons in Hwf as [_ Hwf].
  apply (open_loop_slices time_var test_var test_index test_tol rest Htol
           first 0 None None recs); [lia | exact Hwf | exact H].
Qed.

(** Discharges [frames_agree] on a dataset given in full. *)
Ltac frames_agree_by_evaluation :=
  let v := fresh "v" in let Hv := fresh "Hv" in
  let vt := fresh "vt" in let Hvt := fresh "Hvt" in
  intros v Hv; vm_compute in Hv; injection Hv as <-;
  split; [discriminate|];
  intros vt Hvt; vm_compute in Hvt; injection Hvt as <-; reflexivity.

Lemma slices_start_within_five_frames_witness :
  (exists r rs b,
     [("a.nc"%string, file_a, Slice 0 2, [0; 1]);
      ("b.nc"%string, file_b 10, Slice 0 3,
       [0 + (1 - 0); 1 + (1 - 0); 2 + (1 - 0)])] = r :: rs /\
     traj_slice r = Slice 0 b) /\
  Forall (fun r => exists a b, traj_slice r = Slice a b /\ (0 <= a <= 5)%Z)
    [("a.nc"%string, file_a, Slice 0 2, [0; 1]);
     ("b.nc"%string, file_b 10, Slice 0 3,
      [0 + (1 - 0); 1 + (1 - 0); 2 + (1 - 0)])] /\
  (forall r,
     last [("a.nc"%string, file_a, Slice 0 2, [0; 1]);
           ("b.nc"%string, file_b 10, Slice 0 3,
            [0 + (1 - 0); 1 + (1 - 0); 2 + (1 - 0)])] = Some r ->
     exists a, traj_slice r = Slice a (Z.of_nat (length (traj_time r)))).
Proof.
  apply (slices_start_within_five_frames "time" "coordinates" None
           (Sc (1 # 1000000))
           [("a.nc"%string, file_a); ("b.nc"%string, file_b 10)]).
  - discriminate.
  - constructor; [frames_agree_by_evaluation|].
    constructor; [frames_agree_by_evaluation | constructor].
  - reflexivity.
Defined.

(** ** The time stamps of the tuples *)

Lemma join_continuity_witness :
  exists t t',
    last [0; 1] = Some t /\
    head [0 + (1 - 0); 1 + (1 - 0); 2 + (1 - 0)] = Some t' /\ t' == t.
Proof.
  apply (join_continuity "time" "coordinates" None (Sc (1 # 1000000))
           [("a.nc"%string, file_a); ("b.nc"%string, file_b 10)]
           [("a.nc"%string, file_a, Slice 0 2, [0; 1]);
            ("b.nc"%string, file_b 10, Slice 0 3,
             [0 + (1 - 0); 1 + (1 - 0); 2 + (1 - 0)])]
           ltac:(discriminate)
           ltac:(constructor; [frames_agree_by_evaluation|];
                 constructor; [frames_agree_by_evaluation | constructor])
           eq_refl 0%nat
           ("a.nc"%string, file_a, Slice 0 2, [0; 1])
           ("b.nc"%string, file_b 10, Slice 0 3,
            [0 + (1 - 0); 1 + (1 - 0); 2 + (1 - 0)])
           eq_refl eq_refl eq_refl).
Defined.

(** *** Order inside a tuple *)

Lemma sorted_take {A} (R : relation A) (l : list A) (n : nat) :
  StronglySorted R l -> StronglySorted R (take n l).
Proof.
  intros H. revert n. induction H as [|x l Hl IH Hx]; intros [|n]; simpl;
    try constructor; auto.
  apply Forall_take, Hx.
Qed.

Lemma sorted_drop {A} (R : relation A) (l : list A) (n : nat) :
  StronglySorted R l -> StronglySorted R (drop n l).
Proof.
  intros H. revert n. induction H as [|x l Hl IH Hx]; intros [|n]; simpl;
    try constructor; auto.
Qed.

Lemma sorted_slice_list {A} (R : relation A) (l : list A) (a b : Z) :
  StronglySorted R l -> StronglySorted R (slice_list a b l).
Proof. intros H. apply sorted_take, sorted_drop, H. Qed.

Lemma sorted_shift (c : Q) (l : list Q) :
  StronglySorted Qlt l -> StronglySorted Qlt (map (fun t => t + c) l).
Proof.
  induction 1 as [|x l Hl IH Hx]; simpl; constructor; [exact IH|].
  apply Forall_map. eapply Forall_impl; [exact Hx|].
  intros y Hy. simpl in *. lra.
Qed.

Lemma arange_sorted (n : nat) : StronglySorted Qlt (arange n).
Proof.
  unfold arange. generalize 0%nat as s.
  induction n as [|n IH]; intros s; simpl; constructor; [apply IH|].
  apply Forall_forall. intros x Hx.
  apply list_elem_of_In, in_map_iff in Hx as (k & <- & Hk).
  apply in_seq in Hk. rewrite <- Zlt_Qlt. lia.
Qed.

Section sorted_tuples.
Context (time_var test_var : string) (test_index : option Z) (test_tol : nd).

Lemma time_axis_sorted data time1 is_int from_arange :
    time_increases time_var data ->
    time_axis time_var test_var data = Ok (time1, is_int, from_arange) ->
    StronglySorted Qlt time1.
  Proof.
    intros Hinc H. unfold time_axis in H.
    destruct (dict_get (Dataset.variables data) time_var) as [vt|] eqn:Evt.
    - apply res_bind_ok in H as (ts & Hts & H). injection H as <- _ _.
      exact (Hinc vt ts Evt Hts).
    - apply res_bind_ok in H as (v & _ & H).
      apply res_bind_ok in H as (n & _ & H). injection H as <- _ _.
      apply arange_sorted.
  Qed.

Lemma add_offset_sorted is_int last_time time time' :
    StronglySorted Qlt time ->
    add_offset is_int last_time time = Ok time' -> StronglySorted Qlt time'.
  Proof.
    unfold add_offset. intros Hs H. destruct last_time as [[lt b]|];
      [|congruence].
    apply res_bind_ok in H as (t0 & _ & H).
    destruct (is_int && negb b); [discriminate|]. injection H as <-.
    apply sorted_shift, Hs.
  Qed.

Lemma open_step_sorted fn1 fn2 data1 data2 first1 last1_before last_time
      r first2 last1 lt :
    time_increases time_var data1 ->
    open_step time_var test_var test_index test_tol fn1 fn2 data1 data2 first1
      last1_before last_time = Ok (r, first2, last1, lt) ->
    StronglySorted Qlt (traj_time r).
  Proof.
    unfold open_step. intros Hinc H.
    apply res_bind_ok in H as ([f2 l1] & _ & H).
    apply res_bind_ok in H as ([[time1 is_int] from_arange] & Haxis & H).
    apply res_bind_ok in H as (time & Hoff & H).
    apply res_bind_ok in H as (t & _ & H).
    injection H as <- _ _ _. cbn [traj_time snd].
    eapply add_offset_sorted; [|exact Hoff].
    apply fix_time_sorted, sorted_slice_list.
    eapply time_axis_sorted; eauto.
  Qed.

Lemma open_last_sorted fn2 data2 first1 last_time r :
    time_increases time_var data2 ->
    open_last time_var test_var fn2 data2 first1 last_time = Ok r ->
    StronglySorted Qlt (traj_time r).
  Proof.
    unfold open_last. intros Hinc H.
    apply res_bind_ok in H as ([[time1 is_int] from_arange] & Haxis & H).
    apply res_bind_ok in H as (time & Hoff & H).
    injection H as <-. cbn [traj_time snd].
    eapply add_offset_sorted; [|exact Hoff].
    apply fix_time_sorted. eapply time_axis_sorted; eauto.
  Qed.

Lemma open_loop_sorted (rest : list (string * Dataset.t)) :
    forall cur first1 last1 last_time recs,
    Forall (fun fd => time_increases time_var fd.2) (cur :: rest) ->
    open_loop time_var test_var test_index test_tol first1 last1 last_time
      cur rest = Ok recs ->
    Forall (fun r => StronglySorted Qlt (traj_time r)) recs.
  Proof.
    induction rest as [|next rest IH];
      intros cur first1 last1 last_time recs Hinc H;
      apply Forall_cons in Hinc as [Hcur Hinc]; cbn [open_loop] in H.
    - apply res_bind_ok in H as (r & Hr & H). injection H as <-.
      constructor; [|constructor]. eapply open_last_sorted; eauto.
    - apply res_bind_ok in H as ([[[r first2] last1'] lt] & Hstep & H).
      apply res_bind_ok in H as (rs & Hrs & H). injection H as <-.
      constructor; [eapply open_step_sorted; eauto|].
      eapply IH; eauto.
  Qed.
End sorted_tuples.

(** X15.  The time array of every tuple increases strictly when the time
    variables of the files do: slicing, the repair of the first value and
    the shift keep the order.  A file without a time variable gets the frame
    numbers, which increase. *)
Theorem tuple_times_increase (time_var test_var : string)
    (test_index : option Z) (test_tol : nd)
    (data_f : list (string * Dataset.t)) (recs : list traj) :
  Forall (fun fd => time_increases time_var fd.2) data_f ->
  open_trajs time_var test_var test_index test_tol data_f = Ok recs ->
  Forall (fun r => StronglySorted Qlt (traj_time r)) recs.
Proof.
  intros Hinc H. unfold open_trajs in H.
  destruct data_f as [|first rest]; [discriminate|].
  eapply open_loop_sorted; eauto.
Qed.

(** Discharges [time_increases] on a dataset given in full. *)
Ltac time_increases_by_evaluation :=
  let vt := fresh "vt" in let ts := fresh "ts" in
  let Hvt := fresh "Hvt" in let Hts := fresh "Hts" in
  intros vt ts Hvt Hts; vm_compute in Hvt; injection Hvt as <-;
  vm_compute in Hts; injection Hts as <-;
  repeat constructor.

Lemma tuple_times_increase_witness :
  Forall (fun r => StronglySorted Qlt (traj_time r))
    [("a.nc"%string, file_a, Slice 0 2, [0; 1]);
     ("b.nc"%string, file_b 10, Slice 0 3,
      [0 + (1 - 0); 1 + (1 - 0); 2 + (1 - 0)])].
Proof.
  apply (tuple_times_increase "time" "coordinates" None (Sc (1 # 1000000))
           [("a.nc"%string, file_a); ("b.nc"%string, file_b 10)]).
  - constructor; [time_increases_by_evaluation|].
    constructor; [time_increases_by_evaluation | constructor].
  - reflexivity.
Defined.

(** *** Order across the tuples *)

Lemma sorted_lt_le (l : list Q) : StronglySorted Qlt l -> StronglySorted Qle l.
Proof.
  induction 1 as [|x l Hl IH Hx]; constructor; [exact IH|].
  eapply Forall_impl; [exact Hx|]. intros y Hy. simpl in Hy. lra.
Qed.

Lemma sorted_head_le (l : list Q) (h x : Q) :
  StronglySorted Qle l -> head l = Some h -> x ∈ l -> h <= x.
Proof.
  intros Hs Hh Hx. destruct l as [|y l]; [discriminate|].
  injection Hh as ->. apply StronglySorted_inv in Hs as [_ Hall].
  apply elem_of_cons in Hx as [->|Hx]; [lra|].
  rewrite Forall_forall in Hall. apply Hall, Hx.
Qed.

Lemma sorted_le_last (l : list Q) (t x : Q) :
  StronglySorted Qle l -> last l = Some t -> x ∈ l -> x <= t.
Proof.
  intros Hs. revert t x. induction Hs as [|y l Hl IH Hy]; intros t x Ht Hx.
  - discriminate.
  - destruct l as [|z l].
    + injection Ht as <-. apply list_elem_of_singleton in Hx as ->. lra.
    + rewrite last_cons_cons in Ht.
      apply elem_of_cons in Hx as [->|Hx]; [|eapply IH; eauto].
      rewrite Forall_forall in Hy.
      apply Hy. rewrite last_lookup in Ht.
      eapply list_elem_of_lookup_2, Ht.
  Qed.

Lemma sorted_app (l1 l2 : list Q) :
  StronglySorted Qle l1 -> StronglySorted Qle l2 ->
  (forall x y, x ∈ l1 -> y ∈ l2 -> x <= y) ->
  StronglySorted Qle (l1 ++ l2).
Proof.
  intros H1 H2 Hcross. induction H1 as [|x l1 Hl1 IH Hx]; [exact H2|].
  simpl. constructor.
  - apply IH. intros a b Ha Hb. apply Hcross; [right; exact Ha | exact Hb].
  - apply Forall_app. split; [exact Hx|].
    apply Forall_forall. intros y Hy. apply Hcross; [left | exact Hy].
Qed.

(** Tuples that are sorted and start each where the one before ends make
    a timeline that never goes back. *)
Lemma timeline_sorted (recs : list traj) :
  Forall (fun r => StronglySorted Qlt (traj_time r)) recs ->
  (forall k ra rb, recs !! k = Some ra -> recs !! S k = Some rb ->
     exists t t', last (traj_time ra) = Some t /\
                  head (traj_time rb) = Some t' /\ t' == t) ->
  StronglySorted Qle (timeline recs) /\
  forall r rs h y, recs = r :: rs -> head (traj_time r) = Some h ->
    y ∈ timeline recs -> h <= y.
Proof.
  induction recs as [|ra recs IH]; intros Hs Hjoin.
  - split; [constructor|]. intros r rs h y [=].
  - apply Forall_cons in Hs as [Ha Hs].
    apply sorted_lt_le in Ha.
    destruct IH as [IHs IHh]; [exact Hs| |].
    { intros k r1 r2 H1 H2. apply (Hjoin (S k) r1 r2); assumption. }
    unfold timeline in *. cbn [map concat].
    assert (Hcross : forall x y, x ∈ traj_time ra ->
              y ∈ concat (map traj_time recs) ->
              x <= y /\ forall h, head (traj_time ra) = Some h -> h <= y).
    { intros x y Hx Hy. destruct recs as [|rb recs'].
      - simpl in Hy. apply elem_of_nil in Hy. contradiction.
      - destruct (Hjoin 0%nat ra rb eq_refl eq_refl) as (t & t' & Ht & Ht' & E).
        pose proof (IHh rb recs' t' y eq_refl Ht' Hy) as Hy'.
        pose proof (sorted_le_last _ _ _ Ha Ht Hx) as Hx'.
        split; [lra|]. intros h Hh.
        assert (Hin : h ∈ traj_time ra).
        { destruct (traj_time ra); [discriminate|].
          injection Hh as ->. left. }
        pose proof (sorted_le_last _ _ _ Ha Ht Hin). lra. }
    split.
    + apply sorted_app; [exact Ha | exact IHs|].
      intros x y Hx Hy. exact (proj1 (Hcross x y Hx Hy)).
    + intros r rs h y [= <- <-] Hh Hy.
      apply elem_of_app in Hy as [Hy|Hy].
      * exact (sorted_head_le _ _ _ Ha Hh Hy).
      * assert (Hin : h ∈ traj_time ra).
        { destruct (traj_time ra); [discriminate|].
          injection Hh as ->. left. }
        exact (proj2 (Hcross h y Hin Hy) h Hh).
Qed.

(** X16.  In exact arithmetic (the time stamps are rationals here: the
    rounding of the additions of lines 190-192 in floating point, which can
    put the first stamp of a tuple one unit in the last place below the last
    stamp of the tuple before it, is left out): when no file carries the
    marker [+], the time stamps of the tuples, taken one tuple after the
    other, never go back: they increase inside a tuple and each tuple
    starts at the stamp the one before ends on, which the timeline thus
    holds twice. *)
Theorem timeline_never_goes_back (time_var test_var : string)
    (test_index : option Z) (test_tol : nd)
    (data_f : list (string * Dataset.t)) (recs : list traj) :
  test_tol <> Vec [] ->
  none_trusted data_f ->
  Forall (fun fd => frames_agree time_var test_var fd.2) data_f ->
  Forall (fun fd => time_increases time_var fd.2) data_f ->
  open_trajs time_var test_var test_index test_tol data_f = Ok recs ->
  StronglySorted Qle (timeline recs).
Proof.
  intros Htol Hplus Hwf Hinc H. unfold open_trajs in H.
  destruct data_f as [|first rest]; [discriminate|].
  pose proof (open_loop_files _ _ _ _ _ _ _ _ _ _ H) as [Hfiles _].
  apply timeline_sorted.
  - eapply open_loop_sorted; eauto.
  - apply Forall_cons in Hwf as [Hfirst Hrest].
    destruct (open_loop_joins time_var test_var test_index test_tol Htol rest
                first 0 None None recs Hfirst Hrest H)
      as (r & rs & _ & _ & _ & Hjoins).
    intros k ra rb Ha Hb. apply (Hjoins k ra rb Ha Hb).
    apply (f_equal (fun l => l !! S k)) in Hfiles.
    rewrite !list_lookup_fmap, Hb in Hfiles. simpl in Hfiles.
    unfold none_trusted in Hplus. simpl in Hplus.
    destruct (rest !! k) as [fd|] eqn:Efd; [|discriminate].
    injection Hfiles as ->.
    rewrite Forall_forall in Hplus. apply Hplus.
    eapply list_elem_of_lookup_2, Efd.
Qed.

Lemma timeline_never_goes_back_witness :
  StronglySorted Qle
    (timeline [("a.nc"%string, file_a, Slice 0 2, [0; 1]);
               ("b.nc"%string, file_b 10, Slice 0 3,
                [0 + (1 - 0); 1 + (1 - 0); 2 + (1 - 0)])]).
Proof.
  apply (timeline_never_goes_back "time" "coordinates" None
           (Sc (1 # 1000000))
           [("a.nc"%string, file_a); ("b.nc"%string, file_b 10)]).
  - discriminate.
  - constructor; [reflexivity | constructor].
  - constructor; [frames_agree_by_evaluation|].
    constructor; [frames_agree_by_evaluation | constructor].
  - constructor; [time_increases_by_evaluation|].
    constructor; [time_increases_by_evaluation | constructor].
  - reflexivity.
Defined.

(** ** The overlap search with one tolerance for all components *)

Lemma residual_at_spec (test1 test2 : list nd) :
  comparable test1 test2 ->
  forall l f a b, test1 !! l = Some a -> test2 !! f = Some b ->
    residual a b = Ok (residual_at test1 test2 l f).
Proof.
  intros Hc l f a b Ha Hb. unfold residual_at. rewrite Ha, Hb.
  destruct (Hc l f a b Ha Hb) as [q ->]. reflexivity.
Qed.

Lemma residual_at_nonneg (test1 test2 : list nd) (l f : nat) :
  0 <= residual_at test1 test2 l f.
Proof.
  unfold residual_at.
  destruct (test1 !! l) as [a|]; [|lra].
  destruct (test2 !! f) as [b|]; [|lra].
  destruct (residual a b) as [q|e] eqn:E; [|lra].
  eapply residual_nonneg, E.
Qed.

(** X17.  With a scalar tolerance and a later file that does not carry the
    marker [+], the pair of frames [find_overlap] returns is the first pair,
    in the order of the search, that the test [np.any(maxdiff > test_tol)]
    of lines 127 and 135 lets through: for the pair returned
    [maxdiff > test_tol] does not hold; it holds for every frame of the
    earlier file against every earlier frame of the later file, and for
    every later frame of the earlier file against the frame returned.  The
    frame of the later file is one of its first six.  (The values are
    rationals: a residual that is not a number does not occur.) *)
Theorem scalar_search_returns_first_match (time_var test_var : string)
    (test_index : option Z) (tol : Q) (fn1 fn2 : string)
    (data1 data2 : Dataset.t) (v1 v2 : Var.t) (test1 test2 : list nd)
    (last1_before : option Z) (first2 last1 : Z) :
  starts_with_plus fn2 = Ok false ->
  dict_get (Dataset.variables data1) test_var = Some v1 ->
  dict_get (Dataset.variables data2) test_var = Some v2 ->
  test_array time_var test_var test_index v1 = Ok test1 ->
  test_array time_var test_var test_index v2 = Ok test2 ->
  (0 < length test1)%nat -> (0 < length test2)%nat ->
  comparable test1 test2 ->
  find_overlap time_var test_var test_index (Sc tol) fn1 fn2 data1 data2
    last1_before = Ok (first2, last1) ->
  exists f l : nat,
    first2 = Z.of_nat f /\ last1 = Z.of_nat l /\
    (f < candidates (length test2))%nat /\ (l < length test1)%nat /\
    ~ tol < residual_at test1 test2 l f /\
    forall l' f', (l' < length test1)%nat ->
      (f' < f)%nat \/ (f' = f /\ (l < l')%nat) ->
      tol < residual_at test1 test2 l' f'.
Proof.
  intros Hplus Hv1 Hv2 Ht1 Ht2 Hn1 Hn2 Hc H.
  destruct (find_overlap_scalar time_var test_var test_index tol fn1 fn2
              data1 data2 v1 v2 test1 test2 (residual_at test1 test2)
              Hplus Hv1 Hv2 Ht1 Ht2 Hn1 Hn2 (residual_at_spec _ _ Hc)
              last1_before)
    as [(f & l & Hfind & Hf & Hl & Hle & Hfirst)|(mn & mx & Hfind & _)];
    rewrite Hfind in H; [|discriminate].
  injection H as <- <-. exists f, l.
  repeat (split; [assumption || reflexivity|]).
  split; [apply Qle_not_lt, Hle|exact Hfirst].
Qed.

Lemma scalar_search_returns_first_match_witness :
  exists f l : nat,
    0%Z = Z.of_nat f /\ 2%Z = Z.of_nat l /\
    Nat.lt f (candidates (length [Vec [2; 2]; Vec [3; 3]; Vec [4; 4]])) /\
    Nat.lt l (length [Vec [0; 0]; Vec [1; 1]; Vec [2; 2]]) /\
    ~ 1 # 1000000 < residual_at [Vec [0; 0]; Vec [1; 1]; Vec [2; 2]]
                        [Vec [2; 2]; Vec [3; 3]; Vec [4; 4]] l f /\
    forall l' f',
      Nat.lt l' (length [Vec [0; 0]; Vec [1; 1]; Vec [2; 2]]) ->
      (f' < f)%nat \/ (f' = f /\ (l < l')%nat) ->
      1 # 1000000 < residual_at [Vec [0; 0]; Vec [1; 1]; Vec [2; 2]]
                      [Vec [2; 2]; Vec [3; 3]; Vec [4; 4]] l' f'.
Proof.
  eapply (scalar_search_returns_first_match "time" "coordinates" None
            (1 # 1000000) "a.nc" "b.nc" file_a (file_b 10) _ _
            [Vec [0; 0]; Vec [1; 1]; Vec [2; 2]]
            [Vec [2; 2]; Vec [3; 3]; Vec [4; 4]] None).
  - reflexivity.
  - reflexivity.
  - reflexivity.
  - reflexivity.
  - reflexivity.
  - simpl. lia.
  - simpl. lia.
  - intros [|[|[|l]]] [|[|[|f]]] a b Ha Hb; try discriminate;
      injection Ha as <-; injection Hb as <-; eexists; vm_compute;
      reflexivity.
  - reflexivity.
Defined.

(** X18.  With a scalar tolerance, when no frame of the earlier file is
    within the tolerance of any of the first six frames of the later file,
    [find_overlap] raises the [RuntimeError] of line 151 with the names of
    the two files.  The maximum it reports is the largest residual met; the
    minimum is the smallest residual met, or the starting value
    [test_tol + 1e12] when that is smaller. *)
Theorem scalar_search_reports_residuals (time_var test_var : string)
    (test_index : option Z) (tol : Q) (fn1 fn2 : string)
    (data1 data2 : Dataset.t) (v1 v2 : Var.t) (test1 test2 : list nd)
    (last1_before : option Z) :
  starts_with_plus fn2 = Ok false ->
  dict_get (Dataset.variables data1) test_var = Some v1 ->
  dict_get (Dataset.variables data2) test_var = Some v2 ->
  test_array time_var test_var test_index v1 = Ok test1 ->
  test_array time_var test_var test_index v2 = Ok test2 ->
  (0 < length test1)%nat -> (0 < length test2)%nat ->
  comparable test1 test2 ->
  (forall l f, (l < length test1)%nat ->
     (f < candidates (length test2))%nat ->
     tol < residual_at test1 test2 l f) ->
  exists mn mx : Q,
    find_overlap time_var test_var test_index (Sc tol) fn1 fn2 data1 data2
      last1_before
    = Err (RuntimeError (NotConsecutive fn1 fn2 (Sc mn) (Sc mx))) /\
    (forall l f, (l < length test1)%nat ->
       (f < candidates (length test2))%nat ->
       mn <= residual_at test1 test2 l f <= mx) /\
    (exists l f, (l < length test1)%nat /\
       (f < candidates (length test2))%nat /\
       mx == residual_at test1 test2 l f) /\
    mn <= tol + huge /\
    (mn == tol + huge \/
     exists l f, (l < length test1)%nat /\
       (f < candidates (length test2))%nat /\
       mn == residual_at test1 test2 l f).
Proof.
  intros Hplus Hv1 Hv2 Ht1 Ht2 Hn1 Hn2 Hc Hnone.
  destruct (find_overlap_scalar time_var test_var test_index tol fn1 fn2
              data1 data2 v1 v2 test1 test2 (residual_at test1 test2)
              Hplus Hv1 Hv2 Ht1 Ht2 Hn1 Hn2 (residual_at_spec _ _ Hc)
              last1_before)
    as [(f & l & Hfind & Hf & Hl & Hle & Hfirst)
       |(mn & mx & Hfind & _ & Hb)].
  { specialize (Hnone l f Hl Hf). lra. }
  destruct Hb as (Hmx0 & Hmx & Hmxw & Hmncap & Hmn & Hmnw).
  assert (Hex : forall l f, (l < length test1)%nat ->
            (f < candidates (length test2))%nat ->
            examined (length test1) (candidates (length test2)) (-1) l f).
  { intros l f Hl Hf. repeat split; auto. intros _. lia. }
  exists mn, mx. split; [exact Hfind|]. split; [|split; [|split]].
  - intros l f Hl Hf. split; [apply Hmn | apply Hmx]; auto.
  - destruct Hmxw as [Hz|(l & f & (Hf & Hl & _) & E)]; [|eauto 6].
    assert (Hc0 : (0 < candidates (length test2))%nat)
      by (unfold candidates; lia).
    exists 0%nat, 0%nat. split; [exact Hn1|]. split; [exact Hc0|].
    pose proof (Hmx 0%nat 0%nat (Hex _ _ Hn1 Hc0)).
    pose proof (residual_at_nonneg test1 test2 0 0). lra.
  - exact Hmncap.
  - destruct Hmnw as [Hz|(l & f & (Hf & Hl & _) & E)]; [left; exact Hz|].
    right. eauto 6.
Qed.

Lemma scalar_search_reports_residuals_witness :
  exists mn mx : Q,
    find_overlap "time" "coordinates" None (Sc 1) "a.nc" "b.nc"
      (traj_dataset [0; 1] [[0; 0]; [1; 1]]) (traj_dataset [0] [[5; 5]]) None
    = Err (RuntimeError (NotConsecutive "a.nc" "b.nc" (Sc mn) (Sc mx))) /\
    (forall l f, Nat.lt l (length [Vec [0; 0]; Vec [1; 1]]) ->
       Nat.lt f (candidates (length [Vec [5; 5]])) ->
       mn <= residual_at [Vec [0; 0]; Vec [1; 1]] [Vec [5; 5]] l f <= mx) /\
    (exists l f, Nat.lt l (length [Vec [0; 0]; Vec [1; 1]]) /\
       Nat.lt f (candidates (length [Vec [5; 5]])) /\
       mx == residual_at [Vec [0; 0]; Vec [1; 1]] [Vec [5; 5]] l f) /\
    mn <= 1 + huge /\
    (mn == 1 + huge \/
     exists l f, Nat.lt l (length [Vec [0; 0]; Vec [1; 1]]) /\
       Nat.lt f (candidates (length [Vec [5; 5]])) /\
       mn == residual_at [Vec [0; 0]; Vec [1; 1]] [Vec [5; 5]] l f).
Proof.
  eapply (scalar_search_reports_residuals "time" "coordinates" None 1
            "a.nc" "b.nc" (traj_dataset [0; 1] [[0; 0]; [1; 1]])
            (traj_dataset [0] [[5; 5]]) _ _
            [Vec [0; 0]; Vec [1; 1]] [Vec [5; 5]] None).
  - reflexivity.
  - reflexivity.
  - reflexivity.
  - reflexivity.
  - reflexivity.
  - simpl. lia.
  - simpl. lia.
  - intros [|[|l]] [|f] a b Ha Hb; try discriminate;
      injection Ha as <-; injection Hb as <-; eexists; vm_compute;
      reflexivity.
  - intros [|[|l]] [|f] Hl Hf; unfold candidates in Hf; simpl in Hl, Hf;
      try lia; vm_compute; reflexivity.
Defined.

(** ** Resampling: order of the frames kept *)

Lemma sorted_lookup_le (time : list Q) :
  StronglySorted Qle time ->
  forall j j' a b, time !! j = Some a -> time !! j' = Some b ->
    (j < j')%nat -> a <= b.
Proof.
  induction 1 as [|x l Hl IH Hx]; intros j j' a b Ha Hb Hlt.
  - discriminate.
  - destruct j' as [|j']; [lia|]. simpl in Hb. destruct j as [|j].
    + injection Ha as <-. rewrite Forall_forall in Hx.
      eapply Hx, list_elem_of_lookup_2, Hb.
    + simpl in Ha. apply (IH j j'); auto. lia.
Qed.

Lemma slot_mono (every : Q) (i i' : Z) :
  0 < every -> (i <= i')%Z -> slot every i <= slot every i'.
Proof. intros He Hi. unfold slot. rewrite Zle_Qle in Hi. nra. Qed.

(** On a timeline that never goes back, a later target has a later or the
    same nearest frame. *)
Lemma nearest_monotone (time : list Q) (x x' : Q) (j j' : nat) :
  StronglySorted Qle time -> x <= x' ->
  nearest_frame time x j -> nearest_frame time x' j' -> (j <= j')%nat.
Proof.
  intros Hs Hx (t & Hj & _ & Hlt) (t' & Hj' & Hle' & _).
  destruct (le_lt_dec j j') as [|Hgt]; [assumption|exfalso].
  pose proof (sorted_lookup_le time Hs j' j t' t Hj' Hj Hgt) as Htt.
  specialize (Hlt j' t' Hgt Hj'). specialize (Hle' j t Hj).
  revert Hlt Hle'. qabs; lra.
Qed.

Lemma paired_in_order (time : list Q) (every : Q) (ks : list Z) (r : list nat) :
  time <> [] -> StronglySorted Qle time -> 0 < every ->
  Forall2 (fun i j => argmin (difftime time every i) = j /\
                      Qltb (nth j (difftime time every i) 0) 1 = true) ks r ->
  StronglySorted Z.lt ks -> NoDup r ->
  StronglySorted lt r /\ Forall (fun j => (j < length time)%nat) r.
Proof.
  intros Hne Hs He HF. induction HF as [|k j ks r [Hkj _] HF IH];
    intros Hks Hnd; [split; constructor|].
  apply StronglySorted_inv in Hks as [Hks Hall].
  apply NoDup_cons in Hnd as [Hj Hnd].
  destruct (IH Hks Hnd) as [IHs IHr].
  pose proof (argmin_nearest time every k Hne) as Hn. rewrite Hkj in Hn.
  split; constructor; auto.
  - apply Forall_forall. intros j' Hj'.
    apply list_elem_of_lookup in Hj' as [n Hn'].
    destruct (Forall2_lookup_r _ _ _ _ _ HF Hn') as (k' & Hk' & <- & _).
    pose proof (argmin_nearest time every k' Hne) as Hn2.
    rewrite Forall_forall in Hall.
    assert (Hlt : (k < k')%Z) by (eapply Hall, list_elem_of_lookup_2, Hk').
    pose proof (nearest_monotone time _ _ _ _ Hs
                  (slot_mono every k k' He ltac:(lia)) Hn Hn2) as Hle.
    destruct (decide (j = argmin (difftime time every k'))) as [->|Hneq];
      [|lia].
    exfalso. apply Hj. eapply list_elem_of_lookup_2, Hn'.
  - eapply nearest_frame_lt, Hn.
Qed.

(** X19.  On time stamps that never go back and with a positive interval,
    [get_nearest_indices] returns frame numbers of the list in strictly
    increasing order: resampling keeps the frames in their order. *)
Theorem resampled_frames_in_order (time : list Q) (every : Q) (r : list nat) :
  StronglySorted Qle time -> 0 < every ->
  get_nearest_indices time every = Ok r ->
  StronglySorted lt r /\ Forall (fun j => (j < length time)%nat) r.
Proof.
  intros Hs He. unfold get_nearest_indices.
  destruct (amin time) as [lo|] eqn:Hlo; [|discriminate].
  destruct (amax time) as [hi|] eqn:Hhi; [|discriminate].
  destruct (Qeq_bool every 0); [discriminate|].
  intros [= <-].
  pose proof (amin_nonempty _ _ Hlo) as Hne.
  set (slots := zrange (first_slot lo every) (stop_slot hi every)).
  destruct (nearest_loop_slots time every slots None (zrange_sorted _ _))
    as (ks & HF & Hsorted & _).
  eapply paired_in_order; eauto.
  apply nearest_loop_NoDup; [exact Hne | apply zrange_sorted].
Qed.

Lemma resampled_frames_in_order_witness :
  StronglySorted lt [0; 2]%nat /\
  Forall (fun j => (j < length [0; 1; 2; 3])%nat) [0; 2]%nat.
Proof.
  apply (resampled_frames_in_order [0; 1; 2; 3] 2 [0; 2]%nat).
  - repeat constructor; discriminate.
  - reflexivity.
  - reflexivity.
Defined.

(** ** [filter_trajs] *)

Lemma consolidate_timeline (frames : list oframe) :
  forall cur_k cur_fn cur_data cur_slice cur_time,
  timeline (consolidate cur_k cur_fn cur_data cur_slice cur_time frames)
  = cur_time ++ map oframe_time frames.
Proof.
  induction frames as [|[[[[k fn] data] i] t] rest IH];
    intros cur_k cur_fn cur_data cur_slice cur_time; cbn [consolidate].
  - unfold timeline. simpl. rewrite !app_nil_r. reflexivity.
  - destruct (Nat.eqb k cur_k).
    + rewrite IH, <- app_assoc. reflexivity.
    + unfold timeline in *. cbn [map concat]. rewrite IH. reflexivity.
Qed.

(** The groups hold as many frame numbers as time stamps, and none is
    empty when the first frame belongs to the group the loop starts with. *)
Lemma consolidate_groups (frames : list oframe) :
  forall cur_k cur_fn cur_data cur_slice cur_time,
  length cur_slice = length cur_time ->
  cur_time <> [] \/ (exists fr rest, frames = fr :: rest /\ fr.1.1.1.1 = cur_k) ->
  Forall (fun r => exists idx, traj_slice r = Indices idx /\
                     length idx = length (traj_time r) /\ traj_time r <> [])
    (consolidate cur_k cur_fn cur_data cur_slice cur_time frames).
Proof.
  induction frames as [|[[[[k fn] data] i] t] rest IH];
    intros cur_k cur_fn cur_data cur_slice cur_time Hlen Hne;
    cbn [consolidate].
  - constructor; [|constructor]. exists cur_slice.
    destruct Hne as [Hne|(fr & rest & [=] & _)]. auto.
  - destruct (Nat.eqb k cur_k) eqn:E.
    + apply IH.
      * rewrite !length_app. simpl. lia.
      * left. destruct cur_time; discriminate.
    + constructor.
      * exists cur_slice. repeat split; auto.
        destruct Hne as [Hne|(fr & rest' & [= <- _] & Hk)]; [exact Hne|].
        simpl in Hk. apply Nat.eqb_neq in E. contradiction.
      * apply IH; [reflexivity | left; discriminate].
Qed.

Lemma picked_times (frames picked : list oframe) (sel : list nat) :
  Forall2 (fun i fr => of_option IndexError (frames !! i) = Ok fr) sel picked ->
  Forall2 (fun i t => exists fr, frames !! i = Some fr /\ oframe_time fr = t)
    sel (map oframe_time picked).
Proof.
  induction 1 as [|j fr js frs Hfr _ IH]; [constructor|].
  cbn [map]. constructor; [|exact IH].
  apply of_option_ok in Hfr. eauto.
Qed.

Lemma frames_of_tagged (k : nat) (r : traj) (fs : list oframe) :
  frames_of k r = Ok fs ->
  Forall (fun fr => let '(k', fn, data, i, t) := fr in
            k' = k /\ fn = traj_fn r /\ data = traj_data r /\
            traj_time r !! i = Some t) fs.
Proof.
  destruct r as [[[fn data] data_slice] time]. unfold frames_of. intros H.
  apply res_bind_ok in H as (idx & _ & H).
  apply res_mapM_Forall2 in H. clear -H.
  induction H as [|i fr idx fs Hfr _ IH]; constructor; [|exact IH].
  apply res_bind_ok in Hfr as (t & Ht & [= <-]).
  apply of_option_ok in Ht. auto.
Qed.

Lemma all_frames_tagged (idata_f : list traj) :
  forall (k0 : nat) (frames : list oframe),
  all_frames k0 idata_f = Ok frames ->
  Forall (fun fr => let '(k, fn, data, i, t) := fr in
            exists r, (k0 <= k)%nat /\ idata_f !! (k - k0)%nat = Some r /\
              fn = traj_fn r /\ data = traj_data r /\
              traj_time r !! i = Some t) frames.
Proof.
  induction idata_f as [|r rest IH]; intros k0 frames H; cbn [all_frames] in H.
  - injection H as <-. constructor.
  - apply res_bind_ok in H as (fs & Hfs & H).
    apply res_bind_ok in H as (fs' & Hfs' & [= <-]).
    apply Forall_app. split.
    + eapply Forall_impl; [apply (frames_of_tagged _ _ _ Hfs)|].
      intros [[[[k fn] data] i] t] (-> & -> & -> & Ht). exists r.
      rewrite Nat.sub_diag. auto.
    + eapply Forall_impl; [apply (IH _ _ Hfs')|].
      intros [[[[k fn] data] i] t] (r' & Hk & Hr' & Hrest). exists r'.
      split; [lia|]. split; [|exact Hrest].
      replace (k - k0)%nat with (S (k - S k0)) by lia. exact Hr'.
Qed.

Lemma all_frames_of_tuples (idata_f : list traj) (frames : list oframe) :
  all_frames 0 idata_f = Ok frames ->
  Forall (frame_of_tuple idata_f) frames.
Proof.
  intros H. eapply Forall_impl; [apply (all_frames_tagged _ _ _ H)|].
  intros [[[[k fn] data] i] t] (r & _ & Hr & Hrest). exists r.
  rewrite Nat.sub_0_r in Hr. auto.
Qed.

Lemma neighbours_differ_cons (a b : nat) (ks : list nat) :
  a <> b -> neighbours_differ (b :: ks) -> neighbours_differ (a :: b :: ks).
Proof.
  intros Hab Hks [|j] x y Hx Hy.
  - injection Hx as <-. injection Hy as <-. exact Hab.
  - apply (Hks j x y Hx Hy).
Qed.

Lemma neighbours_differ_one (a : nat) : neighbours_differ [a].
Proof. intros [|j] x y Hx Hy; discriminate. Qed.

Lemma groups_frames_cons (k : nat) (ks : list nat) (r : traj)
    (out : list traj) :
  groups_frames (k :: ks) (r :: out) = group_frames k r ++ groups_frames ks out.
Proof. reflexivity. Qed.

(** The loop of lines 222-233 splits the entries where the tuple they come
    from changes, and nowhere else; every group holds the frame numbers and
    the time stamps of its entries. *)
Lemma consolidate_frames (idata_f : list traj) (frames : list oframe) :
  forall cur_k cur_fn cur_data cur_slice cur_time,
  length cur_slice = length cur_time ->
  (exists r, idata_f !! cur_k = Some r /\ cur_fn = traj_fn r /\
     cur_data = traj_data r) ->
  Forall (frame_of_tuple idata_f) frames ->
  exists ks,
    length (cur_k :: ks)
    = length (consolidate cur_k cur_fn cur_data cur_slice cur_time frames) /\
    neighbours_differ (cur_k :: ks) /\
    groups_frames (cur_k :: ks)
      (consolidate cur_k cur_fn cur_data cur_slice cur_time frames)
    = zip_with (fun i t => (cur_k, cur_fn, cur_data, i, t)) cur_slice cur_time
      ++ map as_regrouped frames.
Proof.
  induction frames as [|[[[[k fn] data] i] t] rest IH];
    intros cur_k cur_fn cur_data cur_slice cur_time Hlen Hcur Hframes;
    cbn [consolidate].
  - exists []. split; [reflexivity|]. split; [apply neighbours_differ_one|].
    unfold groups_frames, group_frames. cbn. rewrite !app_nil_r. reflexivity.
  - apply Forall_cons in Hframes as [(r & Hr & -> & -> & Ht) Hrest].
    destruct (Nat.eqb k cur_k) eqn:E.
    + apply Nat.eqb_eq in E. subst k.
      destruct Hcur as (r' & Hr' & -> & ->).
      assert (r' = r) as -> by congruence.
      destruct (IH cur_k (traj_fn r) (traj_data r)
                  (cur_slice ++ [Z.of_nat i]) (cur_time ++ [t]))
        as (ks & Hks & Hdiff & Hgroups); [| |exact Hrest|].
      { rewrite !length_app. simpl. lia. }
      { eauto. }
      exists ks. split; [exact Hks|]. split; [exact Hdiff|].
      rewrite Hgroups, zip_with_app by exact Hlen.
      rewrite <- app_assoc. reflexivity.
    + apply Nat.eqb_neq in E.
      destruct (IH k (traj_fn r) (traj_data r) [Z.of_nat i] [t])
        as (ks & Hks & Hdiff & Hgroups); [reflexivity|eauto|exact Hrest|].
      exists (k :: ks). split; [cbn [length] in *; lia|].
      split; [apply neighbours_differ_cons; [congruence|exact Hdiff]|].
      rewrite groups_frames_cons, Hgroups. reflexivity.
Qed.

(** X20.  What [filter_trajs] returns holds the frames the resampler
    selected, each with the file name and the dataset of the tuple it comes
    from, its frame number in that tuple and its time stamp, in the order
    selected and in groups: a new tuple starts where the tuple of [idata_f]
    the frames come from changes, and nowhere else.  Every tuple holds as
    many frame numbers as time stamps, and at least one; its time stamps,
    one tuple after the other, are those of the selected frames. *)
Theorem filter_trajs_regroups (idata_f : list traj) (every : Q)
    (out : list traj) :
  filter_trajs idata_f every = Ok out ->
  exists (frames : list oframe) (sel : list nat) (picked : list oframe)
      (ks : list nat),
    all_frames 0 idata_f = Ok frames /\
    Forall (frame_of_tuple idata_f) frames /\
    get_nearest_indices (map oframe_time frames) every = Ok sel /\
    Forall2 (fun i fr => frames !! i = Some fr) sel picked /\
    length ks = length out /\
    neighbours_differ ks /\
    groups_frames ks out = map as_regrouped picked /\
    Forall2 (fun i t => exists fr, frames !! i = Some fr /\ oframe_time fr = t)
      sel (timeline out) /\
    Forall (fun r => exists idx, traj_slice r = Indices idx /\
                       length idx = length (traj_time r) /\ traj_time r <> [])
      out.
Proof.
  unfold filter_trajs. intros H.
  apply res_bind_ok in H as (frames & Hframes & H).
  apply res_bind_ok in H as (sel & Hsel & H).
  destruct sel as [|i0 sel]; [discriminate|].
  apply res_bind_ok in H as (picked & Hpicked & H).
  destruct picked as [|[[[[k fn] data] i] t] picked]; [discriminate|].
  assert (out = consolidate k fn data [] [] ((k, fn, data, i, t) :: picked))
    as -> by congruence.
  apply res_mapM_Forall2 in Hpicked.
  pose proof (all_frames_of_tuples _ _ Hframes) as Htagged.
  assert (Hlookup : Forall2 (fun i fr => frames !! i = Some fr) (i0 :: sel)
                      ((k, fn, data, i, t) :: picked)).
  { eapply Forall2_impl; [exact Hpicked|]. intros j fr Hfr.
    apply of_option_ok in Hfr. exact Hfr. }
  assert (Hof : Forall (frame_of_tuple idata_f) ((k, fn, data, i, t) :: picked)).
  { rewrite Forall_forall in Htagged. apply Forall_forall. intros fr Hin.
    apply list_elem_of_lookup_1 in Hin as [n Hn].
    destruct (Forall2_lookup_r _ _ _ _ _ Hlookup Hn) as (j & _ & Hj).
    apply Htagged. eapply list_elem_of_lookup_2, Hj. }
  destruct (consolidate_frames idata_f ((k, fn, data, i, t) :: picked)
              k fn data [] []) as (ks & Hks & Hdiff & Hgroups);
    [reflexivity| |exact Hof|].
  { apply Forall_cons in Hof as [(r & Hr & -> & -> & _) _]. eauto. }
  exists frames, (i0 :: sel), ((k, fn, data, i, t) :: picked), (k :: ks).
  split; [exact Hframes|]. split; [exact Htagged|]. split; [exact Hsel|].
  split; [exact Hlookup|]. split; [exact Hks|]. split; [exact Hdiff|].
  split; [exact Hgroups|]. split.
  - rewrite consolidate_timeline. apply picked_times, Hpicked.
  - apply consolidate_groups; [reflexivity|]. right. eauto.
Qed.

Lemma filter_trajs_regroups_witness :
  exists (frames : list oframe) (sel : list nat) (picked : list oframe)
      (ks : list nat),
    all_frames 0 [("a.nc"%string, file_a, Slice 0 2, [0; 1]);
                  ("b.nc"%string, file_b 10, Slice 0 3, [1; 2; 3])]
    = Ok frames /\
    Forall (frame_of_tuple [("a.nc"%string, file_a, Slice 0 2, [0; 1]);
                            ("b.nc"%string, file_b 10, Slice 0 3, [1; 2; 3])])
      frames /\
    get_nearest_indices (map oframe_time frames) 2 = Ok sel /\
    Forall2 (fun i fr => frames !! i = Some fr) sel picked /\
    length ks
    = length [("a.nc"%string, file_a, Indices [0%Z], [0]);
              ("b.nc"%string, file_b 10, Indices [1%Z], [2])] /\
    neighbours_differ ks /\
    groups_frames ks [("a.nc"%string, file_a, Indices [0%Z], [0]);
                      ("b.nc"%string, file_b 10, Indices [1%Z], [2])]
    = map as_regrouped picked /\
    Forall2 (fun i t => exists fr, frames !! i = Some fr /\ oframe_time fr = t)
      sel
      (timeline [("a.nc"%string, file_a, Indices [0%Z], [0]);
                 ("b.nc"%string, file_b 10, Indices [1%Z], [2])]) /\
    Forall (fun r => exists idx, traj_slice r = Indices idx /\
                       length idx = length (traj_time r) /\ traj_time r <> [])
      [("a.nc"%string, file_a, Indices [0%Z], [0]);
       ("b.nc"%string, file_b 10, Indices [1%Z], [2])].
Proof.
  apply (filter_trajs_regroups
           [("a.nc"%string, file_a, Slice 0 2, [0; 1]);
            ("b.nc"%string, file_b 10, Slice 0 3, [1; 2; 3])] 2).
  reflexivity.
Defined.

(** *** No frame near a multiple of the interval *)

Lemma nearest_loop_none (time : list Q) (every : Q) (slots : list Z)
    (last_j : option nat) :
  time <> [] ->
  (forall i t, t ∈ time -> 1 <= Qabs (t - slot every i)) ->
  nearest_loop time every slots last_j = [].
Proof.
  intros Hne Hfar.
  destruct (nearest_loop time every slots last_j) as [|j r] eqn:E;
    [reflexivity|exfalso].
  assert (Hj : j ∈ nearest_loop time every slots last_j)
    by (rewrite E; left).
  apply nearest_loop_elem in Hj as (i & _ & Hpick & Hnear).
  pose proof (argmin_nearest time every i Hne) as Hn.
  rewrite Hpick in Hn, Hnear. apply Qltb_lt in Hnear.
  rewrite difftime_nth in Hnear by (eapply nearest_frame_lt, Hn).
  destruct Hn as (t & Hj & _). unfold distance in Hnear.
  rewrite (nth_lookup_Some _ _ _ _ Hj) in Hnear.
  specialize (Hfar i t (list_elem_of_lookup_2 _ _ _ Hj)). lra.
Qed.

(** X21.  When every frame is at least 1 away from every multiple of the
    interval, the resampler selects nothing and [filter_trajs] raises the
    [RuntimeError] of line 213. *)
Theorem no_frame_near_a_multiple (idata_f : list traj) (every : Q)
    (frames : list oframe) :
  all_frames 0 idata_f = Ok frames ->
  frames <> [] ->
  ~ every == 0 ->
  (forall i fr, fr ∈ frames -> 1 <= Qabs (oframe_time fr - slot every i)) ->
  filter_trajs idata_f every = Err (RuntimeError NoFramesLeft).
Proof.
  intros Hframes Hne He Hfar. unfold filter_trajs. rewrite Hframes.
  cbn [mbind res_bind]. unfold get_nearest_indices.
  assert (Hne' : map oframe_time frames <> [])
    by (destruct frames; [congruence | discriminate]).
  destruct (map oframe_time frames) as [|t0 ts] eqn:Et; [congruence|].
  cbn [amin amax].
  destruct (Qeq_bool every 0) eqn:E0; [apply Qeq_bool_iff in E0; contradiction|].
  rewrite nearest_loop_none; [reflexivity | discriminate|].
  intros i t Ht. rewrite <- Et in Ht.
  apply list_elem_of_fmap in Ht as (fr & -> & Hfr). apply Hfar, Hfr.
Qed.

Lemma no_frame_near_a_multiple_witness :
  filter_trajs [("a.nc"%string, file_a, Slice 0 1, [3 # 2])] 10
  = Err (RuntimeError NoFramesLeft).
Proof.
  apply (no_frame_near_a_multiple
           [("a.nc"%string, file_a, Slice 0 1, [3 # 2])] 10
           [(0%nat, "a.nc"%string, file_a, 0%nat, 3 # 2)]).
  - reflexivity.
  - discriminate.
  - discriminate.
  - intros i fr Hfr. apply list_elem_of_singleton in Hfr as ->.
    unfold oframe_time, slot. cbn [snd].
    destruct (Z_le_gt_dec i 0) as [Hi|Hi].
    + rewrite Zle_Qle in Hi. change (inject_Z 0) with 0 in Hi. qabs; lra.
    + assert (Hi' : (1 <= i)%Z) by lia. rewrite Zle_Qle in Hi'.
      change (inject_Z 1) with 1 in Hi'. qabs; lra.
Defined.

(** ** Bounds of the reordering *)

Lemma py_index_Some (n : nat) (i : Z) :
  (- Z.of_nat n <= i < Z.of_nat n)%Z -> is_Some (py_index n i).
Proof.
  intros H. unfold py_index. destruct (i <? 0)%Z eqn:E.
  - apply Z.ltb_lt in E.
    replace ((0 <=? i + Z.of_nat n) && (i + Z.of_nat n <? Z.of_nat n))%Z
      with true; [eauto|].
    symmetry. apply andb_true_iff.
    split; [apply Z.leb_le | apply Z.ltb_lt]; lia.
  - apply Z.ltb_ge in E.
    replace ((0 <=? i) && (i <? Z.of_nat n))%Z with true; [eauto|].
    symmetry. apply andb_true_iff.
    split; [apply Z.leb_le | apply Z.ltb_lt]; lia.
Qed.

Lemma py_index_None (n : nat) (i : Z) :
  ~ (- Z.of_nat n <= i < Z.of_nat n)%Z -> py_index n i = None.
Proof.
  intros H. unfold py_index. destruct (i <? 0)%Z eqn:E.
  - apply Z.ltb_lt in E.
    destruct ((0 <=? i + Z.of_nat n) && (i + Z.of_nat n <? Z.of_nat n))%Z
      eqn:E'; [|reflexivity].
    apply andb_true_iff in E' as [E1 E2].
    apply Z.leb_le in E1. apply Z.ltb_lt in E2. lia.
  - apply Z.ltb_ge in E.
    destruct ((0 <=? i) && (i <? Z.of_nat n))%Z eqn:E'; [|reflexivity].
    apply andb_true_iff in E' as [E1 E2].
    apply Z.leb_le in E1. apply Z.ltb_lt in E2. lia.
Qed.

Lemma scatter_bounds (index_offset : Z) (ids : list Z) :
  forall (var_data acc : list row),
  length ids = length var_data ->
  (Forall (fun id => (- Z.of_nat (length acc) <= id + index_offset
                      < Z.of_nat (length acc))%Z) ids ->
   exists out, scatter index_offset ids var_data acc = Ok out /\
               length out = length acc) /\
  (Exists (fun id => ~ (- Z.of_nat (length acc) <= id + index_offset
                        < Z.of_nat (length acc))%Z) ids ->
   scatter index_offset ids var_data acc = Err IndexError).
Proof.
  induction ids as [|id ids IH]; intros var_data acc Hlen.
  - split; [|intros H; inversion H].
    intros _. exists acc. destruct var_data; auto.
  - destruct var_data as [|r var_data]; [discriminate|].
    injection Hlen as Hlen. cbn [scatter]. split.
    + intros [Hid Hall]%Forall_cons.
      destruct (py_index_Some _ _ Hid) as [k ->]. cbn [of_option mbind res_bind].
      destruct (IH var_data (<[k := r]> acc) Hlen) as [IHok _].
      rewrite length_insert in IHok. apply IHok, Hall.
    + intros Hex.
      destruct (py_index (length acc) (id + index_offset)) as [k|] eqn:Ek;
        [|reflexivity].
      cbn [of_option mbind res_bind].
      destruct (IH var_data (<[k := r]> acc) Hlen) as [_ IHerr].
      rewrite length_insert in IHerr. apply IHerr.
      apply Exists_cons in Hex as [Hid|Hex]; [|exact Hex].
      rewrite (py_index_None _ _ Hid) in Ek. discriminate.
Qed.

(** X22.  The reordering of a frame goes through exactly when every
    identifier, shifted by the offset, is an index numpy accepts for the
    rows of the frame, from [-n] to [n - 1] for [n] rows: then the result
    has [n] rows; if one identifier falls outside, [IndexError] is raised. *)
Theorem reorder_bounds (index_offset : Z) (ids : list Z) (var_data : list row) :
  length ids = length var_data ->
  (Forall (fun id => (- Z.of_nat (length var_data) <= id + index_offset
                      < Z.of_nat (length var_data))%Z) ids ->
   exists out, reorder index_offset ids var_data = Ok out /\
               length out = length var_data) /\
  (Exists (fun id => ~ (- Z.of_nat (length var_data) <= id + index_offset
                        < Z.of_nat (length var_data))%Z) ids ->
   reorder index_offset ids var_data = Err IndexError).
Proof.
  intros Hlen. unfold reorder. rewrite Hlen, Nat.eqb_refl.
  pose proof (scatter_bounds index_offset ids var_data (zeros_like var_data)
                Hlen) as H.
  assert (Hz : length (zeros_like var_data) = length var_data)
    by apply length_map.
  rewrite Hz in H. exact H.
Qed.

Lemma reorder_bounds_witness :
  (Forall (fun id => (- Z.of_nat (length [[1]; [2]; [3]]) <= id + -1
                      < Z.of_nat (length [[1]; [2]; [3]]))%Z) [3; 1; 0]%Z ->
   exists out, reorder (-1) [3; 1; 0]%Z [[1]; [2]; [3]] = Ok out /\
               length out = length [[1]; [2]; [3]]) /\
  (Exists (fun id => ~ (- Z.of_nat (length [[1]; [2]; [3]]) <= id + -1
                        < Z.of_nat (length [[1]; [2]; [3]]))%Z) [3; 1; 0]%Z ->
   reorder (-1) [3; 1; 0]%Z [[1]; [2]; [3]] = Err IndexError).
Proof.
  apply (reorder_bounds (-1) [3; 1; 0]%Z [[1]; [2]; [3]]). reflexivity.
Defined.

(** An identifier 0 with the offset -1 counts from the end, as a negative
    index does in numpy: the row goes to the last place. *)
Example reorder_wraps_around :
  reorder (-1) [3; 1; 0]%Z [[1]; [2]; [3]] = Ok [[2]; [0]; [3]].
Proof. reflexivity. Qed.

(** ** A later file without frames *)

(** X23.  When the test variable of the later file has no frame, the
    search does not run at all and [last1] is not assigned: for the first
    pair of files line 150 raises [UnboundLocalError]; for a later pair it
    reads the value the pair before left there, and [first2] stays -1. *)
Theorem empty_later_file (time_var test_var : string) (test_index : option Z)
    (test_tol : nd) (fn1 fn2 : string) (data1 data2 : Dataset.t)
    (v1 v2 : Var.t) (test1 : list nd) (last1_before : option Z) :
  starts_with_plus fn2 = Ok false ->
  dict_get (Dataset.variables data1) test_var = Some v1 ->
  dict_get (Dataset.variables data2) test_var = Some v2 ->
  test_array time_var test_var test_index v1 = Ok test1 ->
  test_array time_var test_var test_index v2 = Ok [] ->
  find_overlap time_var test_var test_index test_tol fn1 fn2 data1 data2
    last1_before
  = match last1_before with
    | None => Err (UnboundLocalError "last1")
    | Some last1 =>
        if (last1 <? 0)%Z then
          Err (RuntimeError
                 (NotConsecutive fn1 fn2 (nd_add test_tol (1000000000000 # 1))
                    (nd_zeros_like test_tol)))
        else Ok ((-1)%Z, last1)
    end.
Proof.
  intros Hplus Hv1 Hv2 Ht1 Ht2. unfold find_overlap, dict_item.
  rewrite Hplus, Hv1, Hv2. cbn [of_option mbind res_bind].
  rewrite Ht1, Ht2. reflexivity.
Qed.

Lemma empty_later_file_witness :
  find_overlap "time" "coordinates" None (Sc (1 # 1000000)) "a.nc" "b.nc"
    file_a (traj_dataset [] []) None
  = Err (UnboundLocalError "last1").
Proof.
  eapply (empty_later_file "time" "coordinates" None (Sc (1 # 1000000))
            "a.nc" "b.nc" file_a (traj_dataset [] []) _ _ _ None);
    reflexivity.
Defined.

(** ** Variables named like a dimension *)

Section dimension_named.
Context (arguments : Args.t) (idata : Dataset.t) (x : string).
Hypothesis is_dimension : dict_has (Dataset.dimensions idata) x = true.

Let W : relation output := fun o o' =>
    Forall (fun w => write_var w <> x) (out_written o) ->
    Forall (fun w => write_var w <> x) (out_written o').

#[local] Instance dimension_named_preorder : PreOrder W.
  Proof.
    split.
    - intros o H. exact H.
    - intros o1 o2 o3 H12 H23 H. apply H23, H12, H.
  Qed.

Lemma assign_other (w : write) : write_var w <> x -> steps W (assign w).
  Proof.
    intros Hw o H. unfold assign. rewrite bind_run. cbn [get_output].
    destruct (out_variables o !! write_var w); [|exact H].
    simpl. apply Forall_app. split; [exact H|]. constructor; [exact Hw|].
    constructor.
  Qed.

Lemma copy_variable_other cursor last_data data_slice time index item :
    steps W (copy_variable arguments cursor last_data idata data_slice time
               index item).
  Proof.
    destruct item as [var_str var]. unfold copy_variable.
    destruct (decide _); [apply steps_ret; apply _|].
    destruct (dict_has _ var_str) eqn:Ehas; [apply steps_ret; apply _|].
    assert (Hne : var_str <> x) by congruence.
    apply steps_bind; [apply _|apply steps_lift; apply _|]. intros d0.
    destruct (String.eqb d0 FRAME_DIM).
    - destruct (String.eqb var_str "time").
      + apply assign_other. exact Hne.
      + apply steps_bind; [apply _|apply steps_lift; apply _|]. intros n0.
        apply steps_bind; [apply _|apply steps_lift; apply _|]. intros frames.
        apply steps_for_each; [apply _|]. intros [oframe iframe] _.
        unfold copy_frame.
        apply steps_bind; [apply _|apply steps_lift; apply _|]. intros f.
        apply steps_bind; [apply _| |intros; apply assign_other; exact Hne].
        destruct index as [ix|]; [|apply steps_ret; apply _].
        destruct (Var.dimensions var) as [|? [|d1 ?]];
          try (apply steps_ret; apply _).
        destruct (String.eqb d1 ATOM_DIM); [|apply steps_ret; apply _].
        apply steps_bind; [apply _|apply steps_lift; apply _|]. intros ids.
        destruct (Var.dtype ix); apply steps_lift; apply _.
    - destruct (match last_data with Some _ => _ | None => _ end).
      + destruct (contents_differ _ _);
          [apply steps_lift | apply steps_ret]; apply _.
      + apply assign_other. exact Hne.
  Qed.

Lemma create_variable_writes_nothing item :
    steps W (create_variable arguments idata item).
  Proof.
    apply steps_create_variable; try apply _.
    - intros d n o H. exact H.
    - intros y a v o H. unfold var_setncattr. rewrite bind_run.
      cbn [get_output]. destruct (out_variables o !! y); exact H.
    - intros y ty dims _ o H. exact H.
  Qed.

  (** Under NETCDF4 the variable is not created either. *)
Let V : relation output := fun o o' =>
    out_variables o !! x = None -> out_variables o' !! x = None.

#[local] Instance dimension_named_created_preorder : PreOrder V.
  Proof.
    split.
    - intros o H. exact H.
    - intros o1 o2 o3 H12 H23 H. apply H23, H12, H.
  Qed.

Lemma create_variable_netcdf4 item :
    Args.netcdf_format arguments = "NETCDF4"%string ->
    steps V (create_variable arguments idata item).
  Proof.
    intros Hfmt. destruct item as [var_str var]. unfold create_variable.
    destruct (decide _); [apply steps_ret; apply _|].
    apply steps_bind; [apply _|apply steps_get; apply _|]. intros o.
    destruct (out_variables o !! var_str); [apply steps_ret; apply _|].
    rewrite Hfmt. cbn [String.eqb Ascii.eqb Bool.eqb andb].
    destruct (dict_has (Dataset.dimensions idata) var_str) eqn:Ehas;
      [apply steps_ret; apply _|].
    assert (Hne : var_str <> x) by congruence.
    apply steps_bind; [apply _| |intros _]; [|apply steps_bind; [apply _| |]].
    - apply steps_for_each; [apply _|]. intros d _.
      eapply steps_weaken; [|apply ensure_dimension_adds].
      intros o1 o2 (_ & Hv & _) H. rewrite Hv. exact H.
    - intros o1 H. simpl. rewrite lookup_insert_ne by exact Hne. exact H.
    - intros _. apply steps_for_each; [apply _|]. intros a _ o1 H.
      unfold var_setncattr. rewrite bind_run. cbn [get_output].
      destruct (out_variables o1 !! var_str) eqn:E; [|exact H].
      simpl. rewrite lookup_insert_ne by exact Hne. exact H.
  Qed.

Lemma copy_variable_creates_nothing cursor last_data data_slice time index
      item :
    steps V (copy_variable arguments cursor last_data idata data_slice time
               index item).
  Proof.
    apply steps_copy_variable; try apply _.
    intros w _ o H. unfold assign. rewrite bind_run. cbn [get_output].
    destruct (out_variables o !! write_var w); exact H.
  Qed.

Lemma copy_segment_other cursor last_data trajfn data_slice time :
    steps W (copy_segment arguments cursor last_data
               (trajfn, idata, data_slice, time)).
  Proof.
    unfold copy_segment.
    apply steps_bind; [apply _|apply steps_lift; apply _|]. intros index.
    apply steps_bind; [apply _| |intros _].
    { apply steps_for_each; [apply _|]. intros item _.
      apply create_variable_writes_nothing. }
    apply steps_bind; [apply _| |intros _].
    { apply steps_for_each; [apply _|]. intros item _.
      apply copy_variable_other. }
    apply steps_bind; [apply _|apply steps_lift; apply _|].
    intros _. apply steps_ret; apply _.
  Qed.

Lemma copy_segment_netcdf4 cursor last_data trajfn data_slice time :
    Args.netcdf_format arguments = "NETCDF4"%string ->
    steps V (copy_segment arguments cursor last_data
               (trajfn, idata, data_slice, time)).
  Proof.
    intros Hfmt. unfold copy_segment.
    apply steps_bind; [apply _|apply steps_lift; apply _|]. intros index.
    apply steps_bind; [apply _| |intros _].
    { apply steps_for_each; [apply _|]. intros item _.
      apply create_variable_netcdf4. exact Hfmt. }
    apply steps_bind; [apply _| |intros _].
    { apply steps_for_each; [apply _|]. intros item _.
      apply copy_variable_creates_nothing. }
    apply steps_bind; [apply _|apply steps_lift; apply _|].
    intros _. apply steps_ret; apply _.
  Qed.
End dimension_named.

(** X24.  A variable that has the name of a dimension of its file is not
    copied: the round of that file assigns nothing to a variable of that
    name, whatever the format.  With the format NETCDF4 the round does not
    create it either. *)
Theorem dimension_named_variable_skipped (arguments : Args.t) (cursor : Z)
    (last_data : option Dataset.t) (trajfn : string) (idata : Dataset.t)
    (data_slice : data_slice) (time : list Q) (x : string) (o : output) :
  dict_has (Dataset.dimensions idata) x = true ->
  let o' := (copy_segment arguments cursor last_data
               (trajfn, idata, data_slice, time) o).1 in
  (Forall (fun w => write_var w <> x) (out_written o) ->
   Forall (fun w => write_var w <> x) (out_written o')) /\
  (Args.netcdf_format arguments = "NETCDF4"%string ->
   out_variables o !! x = None -> out_variables o' !! x = None).
Proof.
  intros Hdim o'. subst o'. split.
  - apply (copy_segment_other arguments idata x Hdim cursor last_data trajfn
             data_slice time o).
  - intros Hfmt.
    apply (copy_segment_netcdf4 arguments idata x Hdim cursor last_data
             trajfn data_slice time Hfmt o).
Qed.

Lemma dimension_named_variable_skipped_witness :
  let o' := (copy_segment
               (Args.mk ["a.nc"%string] None "coordinates" None
                  (Sc (1 # 1000000)) "NETCDF4" None "id" (-1))
               0 None
               ("a.nc"%string,
                Dataset.mk
                  [("atom"%string, Var.mk ["atom"%string] DInt [] [[[1]]; [[2]]]);
                   ("time"%string, Var.mk ["frame"%string] DFloat [] [[[0]]])]
                  [("frame"%string, Dim.mk true 0);
                   ("atom"%string, Dim.mk false 2)] [],
                Slice 0 1, [0]) empty_output).1 in
  (Forall (fun w => write_var w <> "atom"%string) (out_written empty_output) ->
   Forall (fun w => write_var w <> "atom"%string) (out_written o')) /\
  ("NETCDF4"%string = "NETCDF4"%string ->
   out_variables empty_output !! "atom"%string = None ->
   out_variables o' !! "atom"%string = None).
Proof.
  apply (dimension_named_variable_skipped
           (Args.mk ["a.nc"%string] None "coordinates" None
              (Sc (1 # 1000000)) "NETCDF4" None "id" (-1))
           0 None "a.nc"
           (Dataset.mk
              [("atom"%string, Var.mk ["atom"%string] DInt [] [[[1]]; [[2]]]);
               ("time"%string, Var.mk ["frame"%string] DFloat [] [[[0]]])]
              [("frame"%string, Dim.mk true 0);
               ("atom"%string, Dim.mk false 2)] [])
           (Slice 0 1) [0] "atom" empty_output).
  reflexivity.
Defined.

(** ** Time stamps and frames of a tuple *)

Lemma slice_list_length {A B} (a b : Z) (l : list A) (l' : list B) :
  length l = length l' ->
  length (slice_list a b l) = length (slice_list a b l').
Proof.
  intros H. unfold slice_list.
  rewrite !length_take, !length_drop, H. reflexivity.
Qed.

Lemma slice_to_end_length (n : nat) (a : Z) :
  (0 <= a <= Z.of_nat n)%Z ->
  (Z.to_nat a + length (slice_list a (Z.of_nat n) (seq 0 n)))%nat = n.
Proof.
  intros Ha. unfold slice_list. rewrite length_take, length_drop, length_seq.
  unfold slice_bound.
  replace (a <? 0)%Z with false by (symmetry; apply Z.ltb_ge; lia).
  replace (Z.of_nat n <? 0)%Z with false by (symmetry; apply Z.ltb_ge; lia).
  lia.
Qed.

Section counts.
Context (time_var test_var : string) (test_index : option Z) (test_tol : nd).
Hypothesis tol_nonempty : test_tol <> Vec [].

  (** The frame of the later file the search settles on is a frame of that
      file. *)
Lemma find_overlap_first2_frame fn1 fn2 data1 data2 last1_before first2
      last1 v2 :
    frames_agree time_var test_var data2 ->
    find_overlap time_var test_var test_index test_tol fn1 fn2 data1 data2
      last1_before = Ok (first2, last1) ->
    dict_get (Dataset.variables data2) test_var = Some v2 ->
    (0 <= first2 <= Z.of_nat (length (Var.data v2)))%Z.
  Proof.
    intros Hwf H Hv2.
    destruct (starts_with_plus fn2) as [[|]|e] eqn:Eplus;
      unfold find_overlap in H; rewrite Eplus in H;
      cbn [mbind res_bind] in H; [| |discriminate].
    - apply res_bind_ok in H as (s & Hs & H).
      apply res_bind_ok in Hs as (v & _ & Hs).
      apply res_bind_ok in Hs as (n & _ & Hs).
      injection Hs as <-. cbn in H.
      destruct (Z.of_nat n <? 0)%Z; [discriminate|].
      injection H as <- _. lia.
    - apply res_bind_ok in H as (s & Hs & H).
      apply res_bind_ok in Hs as (v1 & _ & Hs).
      apply res_bind_ok in Hs as (v2' & Hv2' & Hs).
      apply res_bind_ok in Hs as (test1 & _ & Hs).
      apply res_bind_ok in Hs as (test2 & Ht2 & Hs).
      apply of_option_ok in Hv2'.
      assert (v2' = v2) as -> by congruence.
      apply test_array_length in Ht2.
      destruct (Hwf v2 Hv2) as [Hne2 _].
      apply search_from_start in Hs as (l & Hl & _ & Hf); [|assumption|].
      2: { rewrite Ht2. destruct (Var.data v2); [congruence | simpl; lia]. }
      rewrite Hl in H. destruct (l <? 0)%Z; [discriminate|].
      injection H as <- _. rewrite <- Ht2. lia.
  Qed.

Lemma open_step_counts fn1 fn2 data1 data2 first1 last1_before last_time
      r first2 last1 lt v1 :
    frames_agree time_var test_var data1 ->
    dict_get (Dataset.variables data1) test_var = Some v1 ->
    open_step time_var test_var test_index test_tol fn1 fn2 data1 data2 first1
      last1_before last_time = Ok (r, first2, last1, lt) ->
    length (traj_time r)
    = length (slice_list first1 last1 (seq 0 (length (Var.data v1)))).
  Proof.
    intros Hwf Hv1 H. unfold open_step in H.
    apply res_bind_ok in H as ([f2 l1] & _ & H).
    apply res_bind_ok in H as ([[time1 is_int] from_arange] & Haxis & H).
    apply res_bind_ok in H as (time & Hoff & H).
    apply res_bind_ok in H as (t & _ & H).
    injection H as <- _ <- _. cbn [traj_time snd].
    apply add_offset_length in Hoff. rewrite Hoff, fix_time_length.
    apply slice_list_length. rewrite length_seq.
    eapply time_axis_length; eauto.
  Qed.

Lemma open_loop_counts (rest : list (string * Dataset.t)) :
    forall cur first1 last1 last_time recs,
    frames_agree time_var test_var cur.2 ->
    Forall (fun fd => frames_agree time_var test_var fd.2) rest ->
    (forall v, dict_get (Dataset.variables cur.2) test_var = Some v ->
       (0 <= first1 <= Z.of_nat (length (Var.data v)))%Z) ->
    open_loop time_var test_var test_index test_tol first1 last1 last_time
      cur rest = Ok recs ->
    forall k r v a b,
      recs !! k = Some r -> traj_slice r = Slice a b ->
      dict_get (Dataset.variables (traj_data r)) test_var = Some v ->
      ((S k < length recs)%nat ->
       length (traj_time r)
       = length (slice_list a b (seq 0 (length (Var.data v))))) /\
      (S k = length recs ->
       length (traj_time r)
       = (Z.to_nat a
          + length (slice_list a b (seq 0 (length (Var.data v)))))%nat).
  Proof.
    induction rest as [|next rest IH];
      intros cur first1 last1 last_time recs Hcur Hrest Hfirst H k r v a b
        Hk Hslice Hv.
    - cbn [open_loop] in H.
      apply res_bind_ok in H as (r0 & Hr & H). injection H as <-.
      destruct k as [|k]; [|discriminate]. injection Hk as <-.
      split; [simpl; lia|]. intros _.
      apply open_last_shape in Hr
        as (_ & Hdata & Hs & time1 & is_int & from_arange & Haxis & Hlen).
      rewrite Hdata in Hv. rewrite Hs in Hslice. injection Hslice as <- <-.
      pose proof (time_axis_length _ _ _ _ _ _ _ Hcur Hv Haxis) as Hn.
      rewrite Hlen, Hn. symmetry. apply slice_to_end_length, Hfirst, Hv.
    - cbn [open_loop] in H.
      apply res_bind_ok in H as ([[[r0 first2] last1'] lt] & Hstep & H).
      apply res_bind_ok in H as (rs & Hrs & H). injection H as <-.
      apply Forall_cons in Hrest as [Hnext Hrest].
      pose proof (open_loop_files _ _ _ _ _ _ _ _ _ _ Hrs) as [Hfiles _].
      assert (Hlen : (0 < length rs)%nat).
      { apply (f_equal length) in Hfiles. rewrite !length_map in Hfiles.
        rewrite Hfiles. simpl. lia. }
      pose proof Hstep as Hshape.
      apply open_step_shape in Hshape as (_ & Hdata & Hs & Hfind).
      destruct k as [|k].
      + injection Hk as <-. split; [|simpl; lia]. intros _.
        rewrite Hdata in Hv. rewrite Hs in Hslice. injection Hslice as <- <-.
        exact (open_step_counts _ _ _ _ _ _ _ _ _ _ _ _ Hcur Hv Hstep).
      + simpl in Hk.
        destruct (IH next first2 (Some last1') (Some lt) rs Hnext Hrest
                    (fun v2 => find_overlap_first2_frame _ _ _ _ _ _ _ v2
                                 Hnext Hfind)
                    Hrs k r v a b Hk Hslice Hv) as [IH1 IH2].
        split; intros Hlt; [apply IH1 | apply IH2]; simpl in Hlt; lia.
  Qed.
End counts.

(** X25.  Time stamps against frames.  For every tuple [open_trajs] returns
    but the last, the time array holds one stamp for each frame the slice
    selects.  The time array of the last tuple holds a stamp for every frame
    of its file: when its slice starts at frame [a], that is [a] stamps more
    than the slice selects frames.  (Tolerance not an empty vector; time and
    test variable of a file with the same number of frames, at least
    one.) *)
Theorem tuple_frame_counts (time_var test_var : string)
    (test_index : option Z) (test_tol : nd)
    (data_f : list (string * Dataset.t)) (recs : list traj) :
  test_tol <> Vec [] ->
  Forall (fun fd => frames_agree time_var test_var fd.2) data_f ->
  open_trajs time_var test_var test_index test_tol data_f = Ok recs ->
  forall k r v a b,
    recs !! k = Some r -> traj_slice r = Slice a b ->
    dict_get (Dataset.variables (traj_data r)) test_var = Some v ->
    ((S k < length recs)%nat ->
     length (traj_time r)
     = length (slice_list a b (seq 0 (length (Var.data v))))) /\
    (S k = length recs ->
     length (traj_time r)
     = (Z.to_nat a
        + length (slice_list a b (seq 0 (length (Var.data v)))))%nat).
Proof.
  intros Htol Hwf H. unfold open_trajs in H.
  destruct data_f as [|first rest]; [discriminate|].
  apply Forall_cons in Hwf as [Hfirst Hrest].
  eapply open_loop_counts; eauto.
  intros v _. lia.
Qed.

(** Two files of three frames; frame 1 of the second is the last frame of
    the first.  The second tuple starts at frame 1 and selects two frames,
    with three time stamps. *)
Lemma tuple_frame_counts_witness :
  ((2 < 2)%nat ->
   length [1; 2; 3] = length (slice_list 1 3 (seq 0 3))) /\
  (2%nat = 2%nat ->
   length [1; 2; 3] = (Z.to_nat 1 + length (slice_list 1 3 (seq 0 3)))%nat).
Proof.
  apply (tuple_frame_counts "time" "coordinates" None (Sc (1 # 1000000))
           [("a.nc"%string, traj_dataset [0; 1; 2] [[0; 0]; [1; 1]; [2; 2]]);
            ("b.nc"%string, traj_dataset [0; 1; 2] [[9; 9]; [2; 2]; [3; 3]])]
           [("a.nc"%string, traj_dataset [0; 1; 2] [[0; 0]; [1; 1]; [2; 2]],
             Slice 0 2, [0; 1]);
            ("b.nc"%string, traj_dataset [0; 1; 2] [[9; 9]; [2; 2]; [3; 3]],
             Slice 1 3, [1; 2; 3])]
           ltac:(discriminate)
           ltac:(constructor; [frames_agree_by_evaluation|];
                 constructor; [frames_agree_by_evaluation | constructor])
           eq_refl 1%nat
           ("b.nc"%string, traj_dataset [0; 1; 2] [[9; 9]; [2; 2]; [3; 3]],
            Slice 1 3, [1; 2; 3])
           (Var.mk ["frame"%string; "atom"%string] DFloat []
              (map (map (fun x => [x])) [[9; 9]; [2; 2]; [3; 3]]))
           1%Z 3%Z eq_refl eq_refl eq_refl).
Defined.

(** ** The frames a round copies *)

Lemma seq_lookup_all {A} (l : list A) :
  Forall2 (fun i x => l !! i = Some x) (seq 0 (length l)) l.
Proof.
  apply Forall2_same_length_lookup_2; [apply length_seq|].
  intros i k x Hk Hx. apply lookup_seq in Hk as [-> _]. exact Hx.
Qed.

(** The frame numbers a slice selects and the frames it selects. *)
Lemma slice_list_frames {A} (a b : Z) (l : list A) :
  Forall2 (fun i x => l !! i = Some x)
    (slice_list a b (seq 0 (length l))) (slice_list a b l).
Proof.
  unfold slice_list. rewrite length_seq.
  apply Forall2_take, Forall2_drop, seq_lookup_all.
Qed.

Section frames.
Context (arguments : Args.t) (cursor : Z) (var_str : string) (var : Var.t).

  (** Where frame [k] of the selection goes when the enumeration started
      at [start]. *)
Let place (start k : nat) (f : frame) : write :=
    WriteFrame var_str (cursor + Z.of_nat (start + k)) f.

Lemma copy_frames_in_order (idx : list nat) (fs : list frame) :
    Forall2 (fun i f => Var.data var !! i = Some f) idx fs ->
    forall (start : nat) (o : output),
    is_Some (out_variables o !! var_str) ->
    for_each (zip (seq start (length idx)) idx)
      (copy_frame arguments cursor None var_str var) o
    = (mk_output (out_attrs o) (out_dimensions o) (out_variables o)
         (out_written o ++ imap (place start) fs), Ok ()).
  Proof.
    induction 1 as [|i f idx fs Hf _ IH]; intros start o Hvar.
    - simpl. rewrite app_nil_r. destruct o. reflexivity.
    - cbn [length seq zip zip_with for_each]. rewrite bind_run.
      unfold copy_frame at 1. rewrite bind_run. unfold lift at 1.
      rewrite (getitem_in_range _ _ _ Hf). rewrite bind_run.
      cbn [mret M_ret].
      rewrite assign_created by exact Hvar.
      rewrite IH by exact Hvar. cbn [add_write out_attrs out_dimensions
        out_variables out_written].
      assert (E : [WriteFrame var_str (cursor + Z.of_nat start) f]
                  ++ imap (place (S start)) fs
                  = imap (place start) (f :: fs)).
      { cbn [imap app]. f_equal.
        - unfold place. do 2 f_equal. lia.
        - apply imap_ext. intros k x _. unfold place. cbn [compose].
          do 2 f_equal. lia. }
      rewrite <- app_assoc, E. reflexivity.
  Qed.
End frames.

(** X26.  A variable along the frame dimension, in a file without
    identifier variable, is copied frame by frame: the frames the slice
    selects are assigned unchanged, in their order, at the positions
    [cursor], [cursor + 1], ... of the output variable, and nothing else
    is touched. *)
Theorem frames_copied_in_order (arguments : Args.t) (cursor : Z)
    (last_data : option Dataset.t) (idata : Dataset.t) (a b : Z)
    (time : list Q) (var_str : string) (var : Var.t) (dims : list string)
    (o : output) :
  var_str ∉ exclude_list arguments ->
  dict_has (Dataset.dimensions idata) var_str = false ->
  Var.dimensions var = FRAME_DIM :: dims ->
  var_str <> "time"%string ->
  is_Some (out_variables o !! var_str) ->
  copy_variable arguments cursor last_data idata (Slice a b) time None
    (var_str, var) o
  = (mk_output (out_attrs o) (out_dimensions o) (out_variables o)
       (out_written o ++
        imap (fun k f => WriteFrame var_str (cursor + Z.of_nat k) f)
          (slice_list a b (Var.data var))),
     Ok ()).
Proof.
  intros Hex Hdim Hdims Htime Hvar. unfold copy_variable.
  destruct (decide (var_str ∈ exclude_list arguments)); [contradiction|].
  rewrite Hdim, Hdims, bind_run.
  change (lift (getitem (FRAME_DIM :: dims) 0) o) with (o, Ok FRAME_DIM).
  cbv iota beta.
  replace (String.eqb FRAME_DIM FRAME_DIM) with true by reflexivity.
  apply String.eqb_neq in Htime. rewrite Htime.
  rewrite bind_run. unfold lift at 1, shape0. rewrite Hdims.
  rewrite bind_run. unfold lift at 1. cbn [arange_select].
  unfold enumerate.
  rewrite (copy_frames_in_order arguments cursor var_str var _ _
             (slice_list_frames a b (Var.data var)) 0 o Hvar).
  reflexivity.
Qed.

Lemma frames_copied_in_order_witness :
  copy_variable default_arguments 5 None file_a (Slice 1 3) [1; 2] None
    ("coordinates"%string,
     Var.mk ["frame"%string; "atom"%string] DFloat []
       [[[1]; [1]]; [[2]; [2]]; [[3]; [3]]])
    (mk_output [] ∅
       {["coordinates"%string :=
           mk_ovar DFloat ["frame"%string; "atom"%string] []]} [])
  = (mk_output [] ∅
       {["coordinates"%string :=
           mk_ovar DFloat ["frame"%string; "atom"%string] []]}
       ([] ++
        imap (fun k f => WriteFrame "coordinates" (5 + Z.of_nat k) f)
          (slice_list 1 3 [[[1]; [1]]; [[2]; [2]]; [[3]; [3]]])),
     Ok ()).
Proof.
  exact (frames_copied_in_order default_arguments 5 None file_a 1 3 [1; 2]
           "coordinates"
           (Var.mk ["frame"%string; "atom"%string] DFloat []
              [[[1]; [1]]; [[2]; [2]]; [[3]; [3]]])
           ["atom"%string]
           (mk_output [] ∅
              {["coordinates"%string :=
                  mk_ovar DFloat ["frame"%string; "atom"%string] []]} [])
           ltac:(refine (bool_decide_unpack _ _); vm_compute; reflexivity)
           eq_refl eq_refl ltac:(discriminate)
           ltac:(simpl; rewrite lookup_singleton_eq; eauto)).
Defined.

(** ** The overlap search with one tolerance per component *)

Lemma getitem_of_last {A} (l : list A) (a : A) :
  last l = Some a -> getitem l (Z.of_nat (length l) - 1) = Ok a.
Proof.
  intros H. rewrite last_lookup in H.
  assert (Hlt : (0 < length l)%nat)
    by (apply lookup_lt_Some in H; lia).
  replace (Z.of_nat (length l) - 1)%Z with (Z.of_nat (pred (length l)))
    by lia.
  apply getitem_in_range, H.
Qed.

Lemma getitem_of_head {A} (l : list A) (b : A) :
  head l = Some b -> getitem l 0 = Ok b.
Proof. destruct l; [discriminate|]. intros [= ->]. reflexivity. Qed.

(** What can be compared with the tolerance can be combined with the
    running maximum and minimum, which have the shape of the tolerance. *)
Lemma bounds_combine (d : nd) (tv : list Q) (c : Q) (above : bool) :
  nd_any_gt d (Vec tv) = Ok above ->
  (exists mx, nd_maximum d (nd_zeros_like (Vec tv)) = Ok mx) /\
  (exists mn, nd_minimum d (nd_add (Vec tv) c) = Ok mn).
Proof.
  unfold nd_any_gt, nd_maximum, nd_minimum. cbn [nd_zeros_like nd_add].
  destruct d as [x|u]; cbn [nd_map2]; [split; eexists; reflexivity|].
  rewrite !length_map.
  destruct (Nat.eqb (length u) (length tv));
    [intros _; split; eexists; reflexivity|].
  destruct (Nat.eqb (length u) 1);
    [intros _; split; eexists; reflexivity|].
  destruct (Nat.eqb (length tv) 1);
    [intros _; split; eexists; reflexivity|].
  discriminate.
Qed.

(** X27.  For a test variable of rank at most 2, which holds one number
    or one vector of numbers per frame, and a tolerance per component:
    when the last frame of the earlier file agrees with the first frame of
    the later file, component by component, the search stops at once: the
    later file is taken from its frame 0 and the earlier file up to, not
    including, its last frame.  (Frames of higher rank, which numpy lines
    up with the tolerance along their last axis, are left out.) *)
Theorem vector_tolerance_immediate_match (time_var test_var : string)
    (test_index : option Z) (tv : list Q) (fn1 fn2 : string)
    (data1 data2 : Dataset.t) (v1 v2 : Var.t) (test1 test2 : list nd)
    (a b : nd) (last1_before : option Z) :
  tv <> [] ->
  starts_with_plus fn2 = Ok false ->
  dict_get (Dataset.variables data1) test_var = Some v1 ->
  dict_get (Dataset.variables data2) test_var = Some v2 ->
  (length (Var.dimensions v1) <= 2)%nat ->
  (length (Var.dimensions v2) <= 2)%nat ->
  test_array time_var test_var test_index v1 = Ok test1 ->
  test_array time_var test_var test_index v2 = Ok test2 ->
  last test1 = Some a -> head test2 = Some b ->
  within_tol (Vec tv) a b = Ok true ->
  find_overlap time_var test_var test_index (Vec tv) fn1 fn2 data1 data2
    last1_before
  = Ok (0%Z, (Z.of_nat (length test1) - 1)%Z).
Proof.
  intros Htv Hplus Hv1 Hv2 _ _ Ht1 Ht2 Ha Hb Hin.
  unfold within_tol in Hin.
  apply res_bind_ok in Hin as (d & Hd & Hin).
  apply res_fmap_ok in Hin as ([|] & Hgt & Hin); [discriminate|]. clear Hin.
  destruct (bounds_combine d tv (1000000000000 # 1) false Hgt)
    as [[mx Hmx] [mn Hmn]].
  assert (Hn1 : (0 < length test1)%nat)
    by (destruct test1; [discriminate | simpl; lia]).
  assert (Hn2 : (0 < length test2)%nat)
    by (destruct test2; [discriminate | simpl; lia]).
  unfold find_overlap, dict_item. rewrite Hplus, Hv1, Hv2.
  cbn [of_option mbind res_bind]. rewrite Ht1, Ht2. cbn [mbind res_bind].
  set (s0 := mk_search _ _ _ _ _).
  assert (Hs : search (Vec tv) test1 test2 6 s0
               = Ok (mk_search 0 (Some (Z.of_nat (length test1) - 1)%Z) d
                       mx mn)).
  { subst s0. cbn [search st_first2 st_maxdiff st_max_maxdiff st_min_maxdiff].
    replace (-1 <? Z.min (Z.of_nat (length test2) - 1) 5)%Z with true
      by (symmetry; apply Z.ltb_lt; lia).
    rewrite (initial_above (Vec tv)) by congruence.
    cbn [mbind res_bind]. change (-1 + 1)%Z with 0%Z.
    assert (Hres : residual_last (Vec tv) test1 test2 0 = Ok d).
    { unfold residual_last. rewrite (getitem_of_last _ _ Ha).
      cbn [mbind res_bind]. rewrite (getitem_of_head _ _ Hb).
      cbn [mbind res_bind]. rewrite Hd. reflexivity. }
    rewrite Hres. cbn [mbind res_bind].
    destruct (length test1) as [|k] eqn:Ek; [lia|].
    cbn [backward_scan]. rewrite Hgt. cbn [mbind res_bind].
    rewrite Hmx. cbn [mbind res_bind]. rewrite Hmn. cbn [mbind res_bind].
    destruct (0 <? Z.min (Z.of_nat (length test2) - 1) 5)%Z.
    - rewrite Hgt. cbn [mbind res_bind]. do 3 f_equal. lia.
    - do 3 f_equal. lia. }
  rewrite Hs. cbn [mbind res_bind st_last1 st_first2].
  replace (Z.of_nat (length test1) - 1 <? 0)%Z with false
    by (symmetry; apply Z.ltb_ge; lia).
  reflexivity.
Qed.

Lemma vector_tolerance_immediate_match_witness :
  find_overlap "time" "cell_lengths" None (Vec [1; 10]) "a.nc" "b.nc"
    (cell_dataset [[0; 0]; [100; 100]]) (cell_dataset [[100; 105]]) None
  = Ok (0%Z, 1%Z).
Proof.
  eapply (vector_tolerance_immediate_match "time" "cell_lengths" None
            [1; 10] "a.nc" "b.nc" (cell_dataset [[0; 0]; [100; 100]])
            (cell_dataset [[100; 105]]) _ _
            [Vec [0; 0]; Vec [100; 100]] [Vec [100; 105]]
            (Vec [100; 100]) (Vec [100; 105]) None).
  - discriminate.
  - reflexivity.
  - reflexivity.
  - reflexivity.
  - simpl. lia.
  - simpl. lia.
  - reflexivity.
  - reflexivity.
  - reflexivity.
  - reflexivity.
  - vm_compute. reflexivity.
Defined.

(** ** Resampling a regular series at its own interval *)

Lemma Qmin_left (x y : Q) : x <= y -> Qmin x y = x.
Proof.
  intros H. unfold Qmin, GenericMinMax.gmin.
  destruct (x ?= y) eqn:E; try reflexivity.
  apply Qgt_alt in E. lra.
Qed.

Lemma Qmax_right (x y : Q) : x < y -> Qmax x y = y.
Proof.
  intros H. unfold Qmax, GenericMinMax.gmax.
  rewrite (proj1 (Qlt_alt x y) H). reflexivity.
Qed.

Lemma fold_left_Qmin_first (l : list Q) (x : Q) :
  Forall (fun y => x <= y) l -> fold_left Qmin l x = x.
Proof.
  induction 1 as [|y l Hy _ IH]; [reflexivity|].
  simpl. rewrite Qmin_left by exact Hy. exact IH.
Qed.

Lemma last_cons_default {A} (l : list A) (x y : A) :
  List.last (y :: l) x = List.last l y.
Proof.
  revert x y. induction l as [|z l IH]; intros x y; [reflexivity|].
  change (List.last (y :: z :: l) x) with (List.last (z :: l) x).
  rewrite (IH x z), (IH y z). reflexivity.
Qed.

Lemma fold_left_Qmax_last (l : list Q) :
  forall x, StronglySorted Qlt (x :: l) -> fold_left Qmax l x = List.last l x.
Proof.
  induction l as [|y l IH]; intros x Hs; [reflexivity|].
  apply StronglySorted_inv in Hs as [Hs Hx].
  apply Forall_cons in Hx as [Hxy _].
  cbn [fold_left]. rewrite Qmax_right by exact Hxy. rewrite (IH y Hs).
  symmetry. apply last_cons_default.
Qed.

(** [int()] of a float that holds an integer. *)
Lemma Qtrunc_integer (q : Q) (z : Z) : q == inject_Z z -> Qtrunc q = z.
Proof.
  unfold Qeq, Qtrunc. simpl. intros H. rewrite Z.mul_1_r in H.
  rewrite H. apply Z.quot_mul. discriminate.
Qed.

Section regular.
Context (a : Z) (n : nat) (every : Q).
Hypothesis every_pos : 0 < every.

  (** Frame [k] sits at the multiple [a + k] of the interval. *)
Let stamp (k : nat) : Q := inject_Z (a + Z.of_nat k) * every.
Let time : list Q := map stamp (seq 0 n).

Lemma stamp_lt (j k : nat) : (j < k)%nat -> stamp j < stamp k.
  Proof.
    intros H. unfold stamp.
    assert (Hz : (a + Z.of_nat j < a + Z.of_nat k)%Z) by lia.
    rewrite Zlt_Qlt in Hz. nra.
  Qed.

Lemma time_lookup (k : nat) (t : Q) :
    time !! k = Some t <-> (k < n)%nat /\ t = stamp k.
  Proof.
    unfold time. rewrite list_lookup_fmap. split.
    - destruct (seq 0 n !! k) as [j|] eqn:E; [|discriminate].
      apply lookup_seq in E as [-> Hk]. intros [= <-]. auto.
    - intros [Hk ->]. rewrite lookup_seq_lt by exact Hk. reflexivity.
  Qed.

  (** The frame nearest to the multiple [a + s] is frame [s], at distance
      0. *)
Lemma regular_argmin (s : nat) :
    (s < n)%nat ->
    argmin (difftime time every (a + Z.of_nat s)) = s /\
    Qltb (nth s (difftime time every (a + Z.of_nat s)) 0) 1 = true.
  Proof.
    intros Hs. set (d := difftime time every (a + Z.of_nat s)).
    assert (Hds : d !! s = Some (Qabs (stamp s - slot every (a + Z.of_nat s)))).
    { apply difftime_lookup. exists (stamp s). split; [|reflexivity].
      apply time_lookup. auto. }
    assert (Hzero : Qabs (stamp s - slot every (a + Z.of_nat s)) == 0).
    { unfold stamp, slot. qabs; lra. }
    assert (Harg : is_argmin d s).
    { eexists. split; [exact Hds|]. split.
      - intros k y (t & _ & ->)%difftime_lookup. rewrite Hzero.
        apply Qabs_nonneg.
      - intros k y Hk (t & Ht & ->)%difftime_lookup.
        apply time_lookup in Ht as [_ ->]. rewrite Hzero.
        pose proof (stamp_lt k s Hk) as Hlt.
        change (slot every (a + Z.of_nat s)) with (stamp s).
        qabs; lra. }
    assert (Hne : d <> []) by (intros E; rewrite E in Hds; discriminate).
    split.
    - apply (is_argmin_unique d); [apply argmin_spec, Hne | exact Harg].
    - rewrite (nth_lookup_Some _ _ _ _ Hds). apply Qltb_lt. lra.
  Qed.

Lemma regular_loop (m : nat) :
    forall (s : nat) (last_j : option nat),
    (s + m <= n)%nat -> same_index last_j s = false ->
    nearest_loop time every
      (map (fun k => (a + Z.of_nat k)%Z) (seq s m)) last_j
    = seq s m.
  Proof.
    induction m as [|m IH]; intros s last_j Hle Hlast; [reflexivity|].
    cbn [seq map]. rewrite nearest_loop_cons.
    destruct (regular_argmin s) as [-> ->]; [lia|].
    rewrite Hlast. cbn [andb negb]. f_equal.
    apply IH; [lia|]. unfold same_index. apply Nat.eqb_neq. lia.
  Qed.

Lemma regular_amin : (0 < n)%nat -> amin time = Some (stamp 0).
  Proof.
    intros Hn. unfold time. destruct n as [|n']; [lia|].
    cbn [seq map amin]. f_equal. apply fold_left_Qmin_first.
    apply Forall_forall. intros y Hy.
    apply list_elem_of_fmap in Hy as (k & -> & Hk).
    apply elem_of_seq in Hk. apply Qlt_le_weak, stamp_lt. lia.
  Qed.

Lemma regular_sorted (s m : nat) : StronglySorted Qlt (map stamp (seq s m)).
  Proof.
    revert s. induction m as [|m IH]; intros s; cbn [seq map]; constructor;
      [apply IH|].
    apply Forall_forall. intros y Hy.
    apply list_elem_of_fmap in Hy as (k & -> & Hk).
    apply elem_of_seq in Hk. apply stamp_lt. lia.
  Qed.

Lemma regular_last (s m : nat) :
    List.last (map stamp (seq (S s) m)) (stamp s) = stamp (s + m).
  Proof.
    revert s. induction m as [|m IH]; intros s.
    - rewrite Nat.add_0_r. reflexivity.
    - cbn [seq map]. rewrite last_cons_default, IH. f_equal. lia.
  Qed.

Lemma regular_amax : (0 < n)%nat -> amax time = Some (stamp (pred n)).
  Proof.
    intros Hn. unfold time. destruct n as [|n']; [lia|].
    cbn [seq map amax]. f_equal.
    rewrite fold_left_Qmax_last by apply (regular_sorted 0 (S n')).
    apply (regular_last 0 n').
  Qed.
End regular.

(** X28.  A series of whole-number time stamps that sits on consecutive
    multiples of a whole-number interval is kept whole: for time stamps
    [(a + k) * every], [k = 0 .. n - 1], with [every] a positive integer and
    all stamps of magnitude at most [2 ^ 23], [get_nearest_indices] returns
    every frame number, in order.  (On such values the quotients, products
    and differences of lines 52-56 are whole numbers of magnitude at most
    [2 ^ 24], which single and double precision hold exactly, so that the
    rationals used here compute what the script computes.) *)
Theorem regular_series_kept_whole (a e : Z) (n : nat) :
  (0 < e)%Z -> (0 < n)%nat ->
  ((Z.abs a + Z.of_nat n) * e <= 2 ^ 23)%Z ->
  get_nearest_indices
    (map (fun k => inject_Z (a + Z.of_nat k) * inject_Z e) (seq 0 n))
    (inject_Z e)
  = Ok (seq 0 n).
Proof.
  intros He0 Hn _.
  assert (He : 0 < inject_Z e)
    by (change 0 with (inject_Z 0); rewrite <- Zlt_Qlt; exact He0).
  set (every := inject_Z e) in *. unfold get_nearest_indices.
  rewrite (regular_amin a n every He Hn), (regular_amax a n every He Hn).
  destruct (Qeq_bool every 0) eqn:E0;
    [apply Qeq_bool_iff in E0; lra|].
  f_equal. unfold first_slot, stop_slot.
  rewrite (Qtrunc_integer _ (a + Z.of_nat 0)) by (field; lra).
  rewrite (Qtrunc_integer _ (a + Z.of_nat (pred n))) by (field; lra).
  unfold zrange.
  replace (Z.to_nat (a + Z.of_nat (pred n) + 1 - (a + Z.of_nat 0))) with n
    by lia.
  etransitivity;
    [|apply (regular_loop a n every He n 0 None); [simpl; lia | reflexivity]].
  f_equal. apply map_ext. intros k. lia.
Qed.

Lemma regular_series_kept_whole_witness :
  get_nearest_indices
    (map (fun k => inject_Z (3 + Z.of_nat k) * inject_Z 5) (seq 0 4))
    (inject_Z 5)
  = Ok (seq 0 4).
Proof.
  apply (regular_series_kept_whole 3 5 4).
  - lia.
  - lia.
  - vm_compute. discriminate.
Defined.

(** ** The copy finds its keys *)

Lemma keyless_ok {A} (a : A) : keyless (Ok a).
Proof. intros key. discriminate. Qed.

Lemma keyless_bind {A B} (r : res A) (f : A -> res B) :
  keyless r -> (forall a, keyless (f a)) -> keyless (r ≫= f).
Proof.
  intros Hr Hf key. destruct r as [a|e]; [apply Hf|].
  change (Err e ≫= f) with (Err e : res B). intros [= ->].
  apply (Hr key eq_refl).
Qed.

Lemma keyless_index_error {A} (x : option A) : keyless (of_option IndexError x).
Proof. intros key. destruct x; discriminate. Qed.

Lemma keyless_getitem {A} (l : list A) (i : Z) : keyless (getitem l i).
Proof.
  unfold getitem. destruct (py_index (length l) i).
  - apply keyless_index_error.
  - intros key. discriminate.
Qed.

Lemma keyless_res_mapM {A B} (f : A -> res B) (l : list A) :
  (forall x, keyless (f x)) -> keyless (res_mapM f l).
Proof.
  intros Hf. induction l as [|x l IH]; [apply keyless_ok|].
  cbn [res_mapM]. apply keyless_bind; [apply Hf|]. intros y.
  apply keyless_bind; [exact IH|]. intros ys. apply keyless_ok.
Qed.

Lemma keyless_arange_select (n : nat) (s : data_slice) :
  keyless (arange_select n s).
Proof.
  destruct s as [start stop|idx]; [apply keyless_ok|].
  apply keyless_res_mapM. intros i. apply keyless_index_error.
Qed.

Lemma keyless_shape0 (v : Var.t) : keyless (shape0 v).
Proof. unfold shape0. intros key. destruct (Var.dimensions v); discriminate. Qed.

Lemma keyless_scatter (index_offset : Z) (ids : list Z) :
  forall var_data sorted_var_data,
  keyless (scatter index_offset ids var_data sorted_var_data).
Proof.
  induction ids as [|id ids IH]; intros var_data sorted_var_data;
    [apply keyless_ok|].
  destruct var_data as [|r var_data]; [apply keyless_ok|].
  cbn [scatter]. apply keyless_bind; [apply keyless_index_error|].
  intros k. apply IH.
Qed.

Lemma keyless_reorder (index_offset : Z) (ids : list Z) (var_data : list row) :
  keyless (reorder index_offset ids var_data).
Proof.
  unfold reorder. destruct (Nat.eqb _ _); [apply keyless_scatter|].
  intros key. discriminate.
Qed.

Lemma keyless_find_index (arguments : Args.t) (idata : Dataset.t) :
  keyless (find_index arguments idata).
Proof.
  unfold find_index. intros key.
  destruct (dict_get _ _) as [ix|]; [|discriminate].
  destruct (Var.dimensions ix) as [|d0 [|d1 [|d2 ds]]]; try discriminate.
  destruct (_ && _); discriminate.
Qed.

Lemma finds_ret {A} (P : output -> Prop) (a : A) (Q : A -> output -> Prop) :
  (forall o, P o -> Q a o) -> finds_its_keys P (mret a) Q.
Proof. intros H o HP. apply H, HP. Qed.

Lemma finds_bind {A B} (P : output -> Prop) (m : M A)
    (R : A -> output -> Prop) (f : A -> M B) (Q : B -> output -> Prop) :
  finds_its_keys P m R -> (forall a, finds_its_keys (R a) (f a) Q) ->
  finds_its_keys P (m ≫= f) Q.
Proof.
  intros Hm Hf o HP. specialize (Hm o HP). unfold mbind, M_bind.
  destruct (m o) as [o1 [a|e]]; cbn [fst snd] in *.
  - apply (Hf a o1 Hm).
  - exact Hm.
Qed.

Lemma finds_lift {A} (P : output -> Prop) (r : res A) :
  keyless r -> finds_its_keys P (lift r) (fun _ => P).
Proof.
  intros Hr o HP. unfold lift. cbn [fst snd].
  destruct r as [a|e]; [exact HP|]. intros key ->. apply (Hr key eq_refl).
Qed.

Lemma finds_get (P : output -> Prop) :
  finds_its_keys P get_output (fun a o => a = o /\ P o).
Proof. intros o HP. split; [reflexivity|exact HP]. Qed.

Lemma finds_weaken {A} (P P' : output -> Prop) (m : M A)
    (Q Q' : A -> output -> Prop) :
  (forall o, P' o -> P o) -> (forall a o, Q a o -> Q' a o) ->
  finds_its_keys P m Q -> finds_its_keys P' m Q'.
Proof.
  intros HP HQ H o HP'. specialize (H o (HP o HP')).
  destruct (m o).2; [apply HQ, H|exact H].
Qed.

Lemma finds_for_each {A} (I : output -> Prop) (l : list A)
    (body : A -> M unit) :
  (forall x, x ∈ l -> finds_its_keys I (body x) (fun _ => I)) ->
  finds_its_keys I (for_each l body) (fun _ => I).
Proof.
  induction l as [|x l IH]; intros H.
  - apply finds_ret. auto.
  - cbn [for_each]. apply finds_bind with (R := fun _ => I).
    + apply H. left.
    + intros _. apply IH. intros y Hy. apply H. right. exact Hy.
Qed.

(** What a relation kept by every step keeps, is kept along the run. *)
Lemma finds_steps {A} (R : relation output) (P F : output -> Prop) (m : M A)
    (Q : A -> output -> Prop) :
  steps R m -> (forall o o', R o o' -> F o -> F o') ->
  finds_its_keys P m Q ->
  finds_its_keys (fun o => P o /\ F o) m (fun a o' => Q a o' /\ F o').
Proof.
  intros HR HF H o [HP HFo]. specialize (H o HP). specialize (HR o).
  destruct (m o).2; [|exact H]. split; [exact H|]. apply (HF o _ HR HFo).
Qed.

Section keys.
Context (arguments : Args.t).

  (** The output has a variable of the name [v]. *)
Let has (v : string) (o : output) : Prop := is_Some (out_variables o !! v).

  (** The second loop assigns to [v]. *)
Let wanted (idata : Dataset.t) (v : string) : Prop :=
    (v ∉ exclude_list arguments) /\
    dict_has (Dataset.dimensions idata) v = false.

Lemma ensure_dimension_finds idata dim_str :
    dict_has (Dataset.dimensions idata) dim_str = true ->
    finds_its_keys (fun _ => True) (ensure_dimension idata dim_str)
      (fun _ _ => True).
  Proof.
    intros Hd o _. unfold ensure_dimension. rewrite bind_run.
    cbn [get_output fst snd].
    destruct (out_dimensions o !! dim_str); [exact I|].
    unfold dict_item. unfold dict_has in Hd.
    destruct (dict_get (Dataset.dimensions idata) dim_str) as [dim|];
      [|discriminate].
    rewrite bind_run. cbn [of_option lift fst snd].
    destruct (Dim.isunlimited dim); exact I.
  Qed.

Lemma createVariable_finds v ty dims :
    finds_its_keys (fun _ => True) (createVariable v ty dims)
      (fun _ => has v).
  Proof.
    intros o _. unfold has. simpl. rewrite lookup_insert_eq. eauto.
  Qed.

Lemma var_setncattr_finds v a x :
    finds_its_keys (has v) (var_setncattr v a x) (fun _ => has v).
  Proof.
    intros o [ov Hov]. unfold var_setncattr. rewrite bind_run.
    cbn [get_output fst snd]. rewrite Hov. unfold has. simpl.
    rewrite lookup_insert_eq. eauto.
  Qed.

  (** The first loop leaves a variable of the name in the output, unless
      the name is excluded or names a dimension of the file. *)
Lemma create_variable_finds idata v var :
    (forall d, d ∈ Var.dimensions var ->
       dict_has (Dataset.dimensions idata) d = true) ->
    finds_its_keys (fun _ => True) (create_variable arguments idata (v, var))
      (fun _ o => wanted idata v -> has v o).
  Proof.
    intros Hd. unfold create_variable.
    destruct (decide (v ∈ exclude_list arguments)) as [Hin|Hnotin].
    { apply finds_ret. intros o _ [Hc _]. contradiction. }
    eapply finds_bind; [apply finds_get|]. intros a.
    destruct (out_variables a !! v) as [ov|] eqn:Ev.
    { apply finds_ret. intros o [-> _] _. unfold has. rewrite Ev. eauto. }
    destruct (_ && _) eqn:Ec.
    { apply finds_ret. intros o _ [_ Hdim]. rewrite Hdim, andb_false_r in Ec.
      discriminate. }
    apply finds_bind with (R := fun _ _ => True).
    { apply finds_weaken
        with (P := fun _ => True) (Q := fun (_ : unit) (_ : output) => True);
        [auto|auto|].
      apply finds_for_each. intros d Hin. apply ensure_dimension_finds, Hd, Hin. }
    intros _. apply finds_bind with (R := fun _ => has v).
    { apply createVariable_finds. }
    intros _.
    apply finds_weaken with (P := has v) (Q := fun _ => has v); [auto|auto|].
    apply finds_for_each. intros x _. apply var_setncattr_finds.
  Qed.

Lemma has_persists v (o o' : output) : persists o o' -> has v o -> has v o'.
  Proof.
    intros (Hv & _) [ov Hov]. destruct (Hv v ov Hov) as (ov' & Hov' & _).
    exists ov'. exact Hov'.
  Qed.

Lemma create_loop_finds idata (items : list (string * Var.t)) :
    (forall v var d, (v, var) ∈ items -> d ∈ Var.dimensions var ->
       dict_has (Dataset.dimensions idata) d = true) ->
    finds_its_keys (fun _ => True)
      (for_each items (create_variable arguments idata))
      (fun _ o => forall v var, (v, var) ∈ items -> wanted idata v -> has v o).
  Proof.
    induction items as [|[v0 var0] items IH]; intros Hd.
    - apply finds_ret. intros o _ v var Hin. apply elem_of_nil in Hin.
      contradiction.
    - cbn [for_each].
      apply finds_bind with (R := fun _ o => wanted idata v0 -> has v0 o).
      { apply create_variable_finds. intros d Hin.
        apply (Hd v0 var0 d); [left|exact Hin]. }
      intros _.
      eapply finds_weaken;
        [| |apply (finds_steps persists (fun _ => True)
                     (fun o => wanted idata v0 -> has v0 o));
            [apply (steps_for_each persists (PreOrder0 := persists_preorder));
             intros; apply persists_create_variable
            |intros o o' Hp H Hw; apply (has_persists v0 o o' Hp (H Hw))
            |apply IH; intros v var d Hin; apply (Hd v var d); right; exact Hin]].
      + intros o H. split; [exact I|exact H].
      + intros _ o [Hrest Hfirst] v var Hin Hw.
        apply elem_of_cons in Hin as [[= -> ->]|Hin];
          [apply Hfirst, Hw|apply (Hrest v var Hin Hw)].
  Qed.

Section assigned.
Context (vs : gmap string ovar).

    (** The variables of the output are [vs]. *)
Let kept (o : output) : Prop := out_variables o = vs.

Lemma assign_finds w :
      is_Some (vs !! write_var w) ->
      finds_its_keys kept (assign w) (fun _ => kept).
    Proof.
      intros [ov Hov] o Ho. unfold kept in *. unfold assign.
      rewrite bind_run. cbn [get_output fst snd]. rewrite Ho, Hov.
      exact Ho.
    Qed.

Lemma copy_frame_finds cursor index v var item :
      is_Some (vs !! v) ->
      finds_its_keys kept (copy_frame arguments cursor index v var item)
        (fun _ => kept).
    Proof.
      intros Hv. destruct item as [oframe iframe]. unfold copy_frame.
      apply finds_bind with (R := fun _ => kept);
        [apply finds_lift, keyless_getitem|]. intros var_data.
      apply finds_bind with (R := fun _ => kept);
        [|intros f; apply assign_finds; exact Hv].
      destruct index as [ix|]; [|apply finds_ret; auto].
      destruct (Var.dimensions var) as [|d0 [|d1 ds]];
        try (apply finds_ret; auto).
      destruct (String.eqb d1 ATOM_DIM); [|apply finds_ret; auto].
      apply finds_bind with (R := fun _ => kept);
        [apply finds_lift, keyless_getitem|]. intros ids.
      destruct (Var.dtype ix); apply finds_lift;
        [apply keyless_reorder|intros key; discriminate
        |intros key; discriminate].
    Qed.

    (** The second loop assigns only where the first left a variable. *)
Lemma copy_variable_finds cursor last_data idata data_slice time index
        v var :
      (wanted idata v -> is_Some (vs !! v)) ->
      finds_its_keys kept
        (copy_variable arguments cursor last_data idata data_slice time index
           (v, var))
        (fun _ => kept).
    Proof.
      intros Hv. unfold copy_variable.
      destruct (decide (v ∈ exclude_list arguments)) as [Hin|Hnotin];
        [apply finds_ret; auto|].
      destruct (dict_has (Dataset.dimensions idata) v) eqn:Edim;
        [apply finds_ret; auto|].
      assert (Hvs : is_Some (vs !! v)) by (apply Hv; split; assumption).
      apply finds_bind with (R := fun _ => kept);
        [apply finds_lift, keyless_getitem|]. intros d0.
      destruct (String.eqb d0 FRAME_DIM).
      - destruct (String.eqb v "time"); [apply assign_finds, Hvs|].
        apply finds_bind with (R := fun _ => kept);
          [apply finds_lift, keyless_shape0|]. intros n.
        apply finds_bind with (R := fun _ => kept);
          [apply finds_lift, keyless_arange_select|]. intros frames.
        apply finds_for_each. intros item _. apply copy_frame_finds, Hvs.
      - destruct (match last_data with
                  | Some last_data => dict_get (Dataset.variables last_data) v
                  | None => None
                  end) as [last_var|]; [|apply assign_finds, Hvs].
        destruct (contents_differ last_var var); [|apply finds_ret; auto].
        apply finds_lift. intros key. discriminate.
    Qed.
End assigned.

Lemma copy_segment_finds cursor last_data r :
    dimensions_known (traj_data r) ->
    finds_its_keys (fun _ => True) (copy_segment arguments cursor last_data r)
      (fun _ _ => True).
  Proof.
    destruct r as [[[trajfn idata] data_slice] time]. intros Hknown.
    unfold copy_segment.
    apply finds_bind with (R := fun _ _ => True);
      [apply finds_lift, keyless_find_index|]. intros index.
    eapply finds_bind; [apply create_loop_finds; exact Hknown|]. intros [].
    cbv beta.
    apply finds_bind with (R := fun _ _ => True).
    - intros o Ho.
      pose proof (finds_for_each (fun o' => out_variables o' = out_variables o)
                    (Dataset.variables idata)
                    (copy_variable arguments cursor last_data idata data_slice
                       time index)) as Hloop.
      assert (Hbody : forall x, x ∈ Dataset.variables idata ->
                finds_its_keys (fun o' => out_variables o' = out_variables o)
                  (copy_variable arguments cursor last_data idata data_slice
                     time index x)
                  (fun _ o' => out_variables o' = out_variables o)).
      { intros [v var] Hin. apply copy_variable_finds. intros Hw.
        apply (Ho v var Hin Hw). }
      specialize (Hloop Hbody o eq_refl).
      destruct (for_each _ _ o).2; [exact I|exact Hloop].
    - intros _. apply finds_bind with (R := fun _ _ => True);
        [apply finds_lift, keyless_getitem|].
      intros _. apply finds_ret. auto.
  Qed.

Lemma copy_loop_finds idata_f :
    Forall (fun r => dimensions_known (traj_data r)) idata_f ->
    forall cursor last_data,
    finds_its_keys (fun _ => True) (copy_loop arguments cursor last_data idata_f)
      (fun _ _ => True).
  Proof.
    induction 1 as [|r rest Hr _ IH]; intros cursor last_data.
    - apply finds_ret. auto.
    - cbn [copy_loop]. apply finds_bind with (R := fun _ _ => True).
      + apply copy_segment_finds, Hr.
      + intros c. apply IH.
  Qed.

Lemma copy_all_finds idata_f :
    Forall (fun r => dimensions_known (traj_data r)) idata_f ->
    finds_its_keys (fun _ => True) (copy_all arguments idata_f)
      (fun _ _ => True).
  Proof.
    intros Hknown. unfold copy_all.
    apply finds_bind with (R := fun _ _ => True);
      [apply finds_lift, keyless_getitem|]. intros first.
    apply finds_bind with (R := fun _ _ => True);
      [|intros _; apply copy_loop_finds, Hknown].
    apply (finds_for_each (fun _ => True)). intros a _ o _. exact I.
  Qed.
End keys.

(** X5.  The copy raises no [KeyError]: whatever the output holds when it
    starts, every variable the second loop of a round assigns to
    ([odata.variables[var_str]], lines 372, 387 and 391) was left in the
    output by the first loop of that round, and every
    [idata.dimensions[dim_str]] of line 350 finds its dimension, provided the
    dimensions of the variables of each file are dimensions of that file. *)
Theorem copy_raises_no_key_error (arguments : Args.t) (idata_f : list traj)
    (o : output) :
  Forall (fun r => dimensions_known (traj_data r)) idata_f ->
  forall key, (copy_all arguments idata_f o).2 <> Err (KeyError key).
Proof.
  intros Hknown key Herr.
  pose proof (copy_all_finds arguments idata_f Hknown o I) as H.
  rewrite Herr in H. apply (H key eq_refl).
Qed.

(** Settles [dimensions_known] for a dataset given in full. *)
Ltac dimensions_known_by_cases :=
  let Hin := fresh "Hin" in
  let Hd := fresh "Hd" in
  intros ? ? ? Hin Hd; vm_compute in Hin;
  repeat (apply elem_of_cons in Hin as [Hin|Hin];
          [injection Hin as -> ->;
           repeat (apply elem_of_cons in Hd as [->|Hd]; [reflexivity|]);
           apply elem_of_nil in Hd; contradiction|]);
  apply elem_of_nil in Hin; contradiction.

Lemma copy_raises_no_key_error_witness :
  (copy_all default_arguments
     [("a.nc"%string, file_a, Slice 0 2, [0; 1]);
      ("b.nc"%string, file_b 10, Slice 0 3, [1; 2; 3])] empty_output).2
  <> Err (KeyError "coordinates").
Proof.
  apply (copy_raises_no_key_error default_arguments
           [("a.nc"%string, file_a, Slice 0 2, [0; 1]);
            ("b.nc"%string, file_b 10, Slice 0 3, [1; 2; 3])] empty_output).
  repeat (constructor; [dimensions_known_by_cases|]). constructor.
Defined.

(** ** The joins of the timeline *)

Section links.
Context (time_var test_var : string) (test_index : option Z) (test_tol : nd).
Hypothesis tol_nonempty : test_tol <> Vec [].



End links.




(** ** The timeline between the joins *)

Lemma sorted_app_lt (l1 l2 : list Q) :
  StronglySorted Qlt l1 -> StronglySorted Qlt l2 ->
  (forall x y, x ∈ l1 -> y ∈ l2 -> x < y) ->
  StronglySorted Qlt (l1 ++ l2).
Proof.
  intros H1 H2 Hcross. induction H1 as [|x l1 Hl1 IH Hx]; [exact H2|].
  simpl. constructor.
  - apply IH. intros a b Ha Hb. apply Hcross; [right; exact Ha | exact Hb].
  - apply Forall_app. split; [exact Hx|].
    apply Forall_forall. intros y Hy. apply Hcross; [left | exact Hy].
Qed.

(** Tuples that increase and start each where the one before ends make,
    once the first time stamp of every later tuple is left out, a timeline
    that increases. *)
Lemma without_join_repeats_sorted (rs : list traj) :
  forall r,
  Forall (fun r' => StronglySorted Qlt (traj_time r')) (r :: rs) ->
  (forall k ra rb, (r :: rs) !! k = Some ra -> (r :: rs) !! S k = Some rb ->
     exists t t', last (traj_time ra) = Some t /\
                  head (traj_time rb) = Some t' /\ t' == t) ->
  StronglySorted Qlt (without_join_repeats (r :: rs)).
Proof.
  induction rs as [|rb rs IH]; intros r Hs Hjoin; cbn [without_join_repeats].
  - apply Forall_cons in Hs as [Hr _]. cbn [map concat].
    rewrite app_nil_r. exact Hr.
  - apply Forall_cons in Hs as [Hr Hs].
    assert (IHb : StronglySorted Qlt (without_join_repeats (rb :: rs))).
    { apply IH; [exact Hs|]. intros k r1 r2 H1 H2.
      apply (Hjoin (S k) r1 r2); assumption. }
    destruct (Hjoin 0%nat r rb eq_refl eq_refl) as (t & t' & Ht & Ht' & E).
    cbn [without_join_repeats] in IHb. cbn [map concat].
    destruct (traj_time rb) as [|h tl] eqn:Erb; [discriminate|].
    injection Ht' as ->. cbn [tail].
    cbn [app] in IHb. apply StronglySorted_inv in IHb as [Htl Hh].
    apply sorted_app_lt; [exact Hr | exact Htl|].
    intros x y Hx Hy.
    pose proof (sorted_le_last _ _ _ (sorted_lt_le _ Hr) Ht Hx) as Hxt.
    rewrite Forall_forall in Hh. specialize (Hh y Hy). lra.
Qed.

(** C4, counterexample.  Two files whose own time values increase, the
    second starting with the last frame of the first: the tuple of the
    second file starts at the time stamp the tuple of the first ends on, so
    that the timeline holds the value 1 twice. *)
Lemma join_repeats_a_time_stamp :
  exists recs : list traj,
    open_trajs "time" "coordinates" None (Sc (1 # 1000000))
      [("a.nc"%string, file_a); ("b.nc"%string, file_b 10)] = Ok recs /\
    time_increases "time" file_a /\ time_increases "time" (file_b 10) /\
    ~ StronglySorted Qlt (timeline recs).
Proof.
  eexists. split; [reflexivity|].
  split; [time_increases_by_evaluation|].
  split; [time_increases_by_evaluation|].
  intros H. vm_compute in H.
  apply StronglySorted_inv in H as [H _].
  apply StronglySorted_inv in H as [_ H].
  apply Forall_cons in H as [H _]. vm_compute in H. discriminate.
Qed.

(** C4.  In exact arithmetic, when no file carries the marker [+] and the
    time values of every file increase: the time stamps of the tuples, one
    tuple after the other, never go back; they increase inside every tuple;
    every tuple after the first starts at the very time stamp the tuple
    before it ends on; and with that first time stamp of every later tuple
    left out, the time stamps increase from one end to the other. *)
Theorem timeline_repeats_only_at_joins (time_var test_var : string)
    (test_index : option Z) (test_tol : nd)
    (data_f : list (string * Dataset.t)) (recs : list traj) :
  test_tol <> Vec [] ->
  none_trusted data_f ->
  Forall (fun fd => frames_agree time_var test_var fd.2) data_f ->
  Forall (fun fd => time_increases time_var fd.2) data_f ->
  open_trajs time_var test_var test_index test_tol data_f = Ok recs ->
  StronglySorted Qle (timeline recs) /\
  Forall (fun r => StronglySorted Qlt (traj_time r)) recs /\
  (forall k ra rb, recs !! k = Some ra -> recs !! S k = Some rb ->
     exists t t', last (traj_time ra) = Some t /\
                  head (traj_time rb) = Some t' /\ t' == t) /\
  StronglySorted Qlt (without_join_repeats recs).
Proof.
  intros Htol Hplus Hwf Hinc H. unfold open_trajs in H.
  destruct data_f as [|first rest]; [discriminate|].
  pose proof (open_loop_files _ _ _ _ _ _ _ _ _ _ H) as [Hfiles _].
  assert (Hsorted : Forall (fun r => StronglySorted Qlt (traj_time r)) recs)
    by (eapply open_loop_sorted; eauto).
  assert (Hjoin : forall k ra rb,
            recs !! k = Some ra -> recs !! S k = Some rb ->
            exists t t', last (traj_time ra) = Some t /\
                         head (traj_time rb) = Some t' /\ t' == t).
  { apply Forall_cons in Hwf as [Hfirst Hrest].
    destruct (open_loop_joins time_var test_var test_index test_tol Htol rest
                first 0 None None recs Hfirst Hrest H)
      as (r & rs & _ & _ & _ & Hjoins).
    intros k ra rb Ha Hb. apply (Hjoins k ra rb Ha Hb).
    apply (f_equal (fun l => l !! S k)) in Hfiles.
    rewrite !list_lookup_fmap, Hb in Hfiles. simpl in Hfiles.
    unfold none_trusted in Hplus. simpl in Hplus.
    destruct (rest !! k) as [fd|] eqn:Efd; [|discriminate].
    injection Hfiles as ->.
    rewrite Forall_forall in Hplus. apply Hplus.
    eapply list_elem_of_lookup_2, Efd. }
  split; [apply timeline_sorted; assumption|].
  split; [exact Hsorted|]. split; [exact Hjoin|].
  destruct recs as [|r rs]; [constructor|].
  apply without_join_repeats_sorted; assumption.
Qed.

Lemma timeline_repeats_only_at_joins_witness :
  StronglySorted Qle
    (timeline [("a.nc"%string, file_a, Slice 0 2, [0; 1]);
               ("b.nc"%string, file_b 10, Slice 0 3,
                [0 + (1 - 0); 1 + (1 - 0); 2 + (1 - 0)])]) /\
  Forall (fun r => StronglySorted Qlt (traj_time r))
    [("a.nc"%string, file_a, Slice 0 2, [0; 1]);
     ("b.nc"%string, file_b 10, Slice 0 3,
      [0 + (1 - 0); 1 + (1 - 0); 2 + (1 - 0)])] /\
  (forall k ra rb,
     [("a.nc"%string, file_a, Slice 0 2, [0; 1]);
      ("b.nc"%string, file_b 10, Slice 0 3,
       [0 + (1 - 0); 1 + (1 - 0); 2 + (1 - 0)])] !! k = Some ra ->
     [("a.nc"%string, file_a, Slice 0 2, [0; 1]);
      ("b.nc"%string, file_b 10, Slice 0 3,
       [0 + (1 - 0); 1 + (1 - 0); 2 + (1 - 0)])] !! S k = Some rb ->
     exists t t', last (traj_time ra) = Some t /\
                  head (traj_time rb) = Some t' /\ t' == t) /\
  StronglySorted Qlt
    (without_join_repeats
       [("a.nc"%string, file_a, Slice 0 2, [0; 1]);
        ("b.nc"%string, file_b 10, Slice 0 3,
         [0 + (1 - 0); 1 + (1 - 0); 2 + (1 - 0)])]).
Proof.
  apply (timeline_repeats_only_at_joins "time" "coordinates" None
           (Sc (1 # 1000000))
           [("a.nc"%string, file_a); ("b.nc"%string, file_b 10)]).
  - discriminate.
  - constructor; [reflexivity | constructor].
  - constructor; [frames_agree_by_evaluation|].
    constructor; [frames_agree_by_evaluation | constructor].
  - constructor; [time_increases_by_evaluation|].
    constructor; [time_increases_by_evaluation | constructor].
  - reflexivity.
Defined.

(** ** The report of a search without a match *)


